(** * Search algorithm animation demo: the search engine, embedded and verified

    A shallow embedding of the TypeScript of [App.vue] (frontiers, grid,
    [Maze], template parsing, the demo driver) and of [priorityQueue.ts]
    (the binary heap), followed by the properties of the specification that
    hold of it and the inputs at which two of them fail.

    Conventions of the embedding.
    - JavaScript numbers that hold coordinates, distances, costs and counters
      are integers throughout the program; they are modelled by [Z].
    - Positions inside a JavaScript array are modelled by [nat]; an array is
      a [list], indexed with stdpp's lookup [l !! i] and updated with
      [<[i:=x]> l].  The heap computes positions with [>>>] and [<<], which
      agree with halving and doubling on every position below [2^30].
    - A call that can [throw] returns a [result]: [Ok v] or [Throw e].  The
      store left behind by a throwing call is not modelled.
    - The three reactive references shared between the component and the
      [Maze] object ([mazeData], [numExplored], [solutionType]) are the
      fields of one record, so that every mutation is seen by all holders.
    - A handler that catches what it calls, or whose caller goes on after it
      threw, returns the component as the call leaves it, together with the
      exception, if any.
    - [Math.random] is answered by an oracle, a sequence of natural numbers;
      the recursion of [genDFSMaze] runs on fuel, and is shown to have
      enough. *)

From Stdlib Require Import ZArith List String Ascii Lia Bool DecimalString.
From Equations Require Import Equations.
From stdpp Require Import base tactics option list sorting.

Local Open Scope Z_scope.

(** ** Exceptions *)

Inductive exn : Type :=
| Error (message : string)   (* [throw new Error(message)] *)
| TypeError.                 (* property access on [undefined] *)

Inductive result (A : Type) : Type :=
| Ok (a : A)
| Throw (e : exn).
Arguments Ok {A} a.
Arguments Throw {A} e.

Definition bind {A B} (r : result A) (k : A -> result B) : result B :=
  match r with
  | Ok a => k a
  | Throw e => Throw e
  end.

Notation "'let*' x ':=' r 'in' k" := (bind r (fun x => k))
  (at level 10, x pattern, r at level 100, k at level 200).

(** Case analysis that remembers the equation, for loop guards. *)
Definition inspect {A} (a : A) : {b : A | a = b} := exist _ a eq_refl.

Definition is_ok {A} (r : result A) : Prop := exists a, r = Ok a.

(** ** priorityQueue.ts *)

Module PriorityQueue.
Section Heap.
Context {T : Type}.
Variable comparator : T -> T -> bool.

Definition top : nat := 0.
Definition parent (i : nat) : nat := (Nat.shiftr (i + 1) 1 - 1)%nat.
Definition left (i : nat) : nat := (Nat.shiftl i 1 + 1)%nat.
Definition right (i : nat) : nat := Nat.shiftl (i + 1) 1.

Definition size (_heap : list T) : nat := length _heap.

Definition find (finder : T -> bool) (_heap : list T) : option T :=
  List.find finder _heap.

Definition isEmpty (_heap : list T) : bool := Nat.eqb (size _heap) 0.

(** [undefined] on the empty heap is [None]. *)
Definition peek (_heap : list T) : option T := _heap !! top.

(** The loops call [_greater] and [_swap] at positions inside the array
    only; outside it the comparator would receive [undefined]. *)
Definition _greater (_heap : list T) (i j : nat) : bool :=
  match _heap !! i, _heap !! j with
  | Some a, Some b => comparator a b
  | _, _ => false
  end.

Definition _swap (_heap : list T) (i j : nat) : list T :=
  match _heap !! i, _heap !! j with
  | Some a, Some b => <[j := a]> (<[i := b]> _heap)
  | _, _ => _heap
  end.

(** [_siftUp]: the loop, started at the last position. *)
Equations? siftUp_loop (h : list T) (node : nat) : list T by wf node lt :=
  siftUp_loop h node with inspect (Nat.ltb top node && _greater h node (parent node)) => {
    | exist _ true Hc => siftUp_loop (_swap h node (parent node)) (parent node);
    | exist _ false _ => h }.
Proof.
  apply andb_prop in Hc as [Hc _]. apply Nat.ltb_lt in Hc.
  unfold parent. rewrite Nat.shiftr_div_pow2.
  pose proof (Nat.div_mod_eq (node + 1) (2 ^ 1)) as Hd.
  pose proof (Nat.mod_upper_bound (node + 1) (2 ^ 1)) as Hm.
  change (2 ^ 1)%nat with 2%nat in *. lia.
Qed.

Definition _siftUp (h : list T) : list T := siftUp_loop h (size h - 1)%nat.

Definition siftDown_cond (h : list T) (node : nat) : bool :=
  (Nat.ltb (left node) (size h) && _greater h (left node) node)
  || (Nat.ltb (right node) (size h) && _greater h (right node) node).

Definition maxChild (h : list T) (node : nat) : nat :=
  if Nat.ltb (right node) (size h) && _greater h (right node) (left node)
  then right node else left node.

Equations? siftDown_loop (h : list T) (node : nat) : list T
  by wf (size h - node)%nat lt :=
  siftDown_loop h node with inspect (siftDown_cond h node) => {
    | exist _ true Hc => siftDown_loop (_swap h node (maxChild h node)) (maxChild h node);
    | exist _ false _ => h }.
Proof.
  assert (Hlen : length (_swap h node (maxChild h node)) = length h).
  { unfold _swap. destruct (h !! node), (h !! maxChild h node); try reflexivity.
    now rewrite !length_insert. }
  unfold size in *. rewrite Hlen. clear Hlen.
  unfold siftDown_cond, maxChild, left, right, size in *.
  rewrite !Nat.shiftl_mul_pow2 in *. change (2 ^ 1)%nat with 2%nat in *.
  destruct (Nat.ltb_spec ((node + 1) * 2) (length h));
    destruct (Nat.ltb_spec (node * 2 + 1) (length h));
    cbn [andb orb] in *; try discriminate; try lia.
  match goal with |- context [if ?b then _ else _] => destruct b end; lia.
Qed.

Definition _siftDown (h : list T) : list T := siftDown_loop h top.

(** [push(value)] for one value; [push(...values)] folds it. *)
Definition push1 (h : list T) (value : T) : list T := _siftUp (h ++ [value]).

Definition push (h : list T) (values : list T) : nat * list T :=
  let h' := fold_left push1 values h in (size h', h').

(** [pop()]: the root (or [undefined]) and the heap left behind. *)
Definition pop (h : list T) : option T * list T :=
  let poppedValue := peek h in
  let bottom := (Z.of_nat (size h) - 1)%Z in
  let h1 := if (Z.of_nat top <? bottom)%Z then _swap h top (Z.to_nat bottom) else h in
  let h2 := take (length h1 - 1)%nat h1 in
  (poppedValue, _siftDown h2).

(** [replace(value)]: the assignment to position [top] of an empty array
    makes it an array of one element. *)
Definition replace (h : list T) (value : T) : option T * list T :=
  let replacedValue := peek h in
  let h1 := match h with [] => [value] | _ => <[top := value]> h end in
  (replacedValue, _siftDown h1).

End Heap.
End PriorityQueue.

(** ** App.vue: states, actions, nodes *)

Inductive Action : Type := Up | Down | Left | Right.

(** [type State = [number, number]]: row, then column. *)
Definition State : Type := Z * Z.

Definition State_equals (a b : State) : bool :=
  (a.1 =? b.1) && (a.2 =? b.2).

#[warnings="-register-all"]
Inductive Node : Type := mkNode {
  state : State;
  parent : option Node;
  action : option Action;
  manhattanDistance : Z;
  pathCost : Z
}.

(** [Number.prototype.toString] on an integer: its decimal digits. *)
Definition toString (z : Z) : string := NilZero.string_of_int (Z.to_int z).

(** [Array.prototype.find(...) !== undefined] over nodes. *)
Definition found (o : option Node) : bool :=
  match o with Some _ => true | None => false end.

(** ** The frontier interface and its four classes *)

Class IFrontier (F : Type) : Type := {
  create : F;                                   (* [new frontierClass()] *)
  add : Node -> F -> F;
  containers_state : State -> F -> bool;
  empty : F -> bool;
  (** [remove] may throw, or hand back [undefined] ([None]) *)
  remove : F -> result (option Node * F);
  getLabel : F -> Node -> string
}.

Module StackFrontier.
Record t : Type := mk { _frontier : list Node }.

Definition add (node : Node) (this : t) : t := mk (_frontier this ++ [node]).

Definition containers_state (s : State) (this : t) : bool :=
  found (List.find (fun x => State_equals (state x) s) (_frontier this)).

Definition empty (this : t) : bool := Nat.eqb (length (_frontier this)) 0.

Definition remove (this : t) : result (option Node * t) :=
  if empty this then Throw (Error "empty frontier")
  else Ok (last (_frontier this), mk (removelast (_frontier this))).

Definition getLabel (this : t) (n : Node) : string := "".
End StackFrontier.

Module QueueFrontier.
Record t : Type := mk { _frontier : list Node }.

Definition add (node : Node) (this : t) : t := mk (_frontier this ++ [node]).

Definition containers_state (s : State) (this : t) : bool :=
  found (List.find (fun x => State_equals (state x) s) (_frontier this)).

Definition empty (this : t) : bool := Nat.eqb (length (_frontier this)) 0.

Definition remove (this : t) : result (option Node * t) :=
  if empty this then Throw (Error "empty frontier")
  else Ok (head (_frontier this), mk (tail (_frontier this))).

Definition getLabel (this : t) (n : Node) : string := "".
End QueueFrontier.

Module GreedBestFrontier.
Record t : Type := mk { _frontier : list Node }.

Definition _h (n : Node) : Z := manhattanDistance n.
Definition _comparator (a b : Node) : bool := _h a <? _h b.

Definition add (node : Node) (this : t) : t :=
  mk (PriorityQueue.push _comparator (_frontier this) [node]).2.

Definition containers_state (s : State) (this : t) : bool :=
  found (PriorityQueue.find (fun x => State_equals (state x) s) (_frontier this)).

Definition empty (this : t) : bool := PriorityQueue.isEmpty (_frontier this).

Definition remove (this : t) : result (option Node * t) :=
  let '(v, h) := PriorityQueue.pop _comparator (_frontier this) in Ok (v, mk h).

Definition getLabel (this : t) (n : Node) : string := toString (manhattanDistance n).
End GreedBestFrontier.

Module AStarFrontier.
Record t : Type := mk { _frontier : list Node }.

Definition _g (n : Node) : Z := pathCost n.
Definition _h (n : Node) : Z := manhattanDistance n.
Definition _f (n : Node) : Z := _g n + _h n.
Definition _comparator (a b : Node) : bool := _f a <? _f b.

Definition add (node : Node) (this : t) : t :=
  mk (PriorityQueue.push _comparator (_frontier this) [node]).2.

Definition containers_state (s : State) (this : t) : bool :=
  found (PriorityQueue.find (fun x => State_equals (state x) s) (_frontier this)).

Definition empty (this : t) : bool := PriorityQueue.isEmpty (_frontier this).

Definition remove (this : t) : result (option Node * t) :=
  let '(v, h) := PriorityQueue.pop _comparator (_frontier this) in Ok (v, mk h).

Definition getLabel (this : t) (n : Node) : string :=
  (toString (pathCost n) ++ "+" ++ toString (manhattanDistance n))%string.
End AStarFrontier.

#[export] Instance StackFrontier_IFrontier : IFrontier StackFrontier.t := {
  create := StackFrontier.mk [];
  add := StackFrontier.add;
  containers_state := StackFrontier.containers_state;
  empty := StackFrontier.empty;
  remove := StackFrontier.remove;
  getLabel := StackFrontier.getLabel
}.

#[export] Instance QueueFrontier_IFrontier : IFrontier QueueFrontier.t := {
  create := QueueFrontier.mk [];
  add := QueueFrontier.add;
  containers_state := QueueFrontier.containers_state;
  empty := QueueFrontier.empty;
  remove := QueueFrontier.remove;
  getLabel := QueueFrontier.getLabel
}.

#[export] Instance GreedBestFrontier_IFrontier : IFrontier GreedBestFrontier.t := {
  create := GreedBestFrontier.mk [];
  add := GreedBestFrontier.add;
  containers_state := GreedBestFrontier.containers_state;
  empty := GreedBestFrontier.empty;
  remove := GreedBestFrontier.remove;
  getLabel := GreedBestFrontier.getLabel
}.

#[export] Instance AStarFrontier_IFrontier : IFrontier AStarFrontier.t := {
  create := AStarFrontier.mk [];
  add := AStarFrontier.add;
  containers_state := AStarFrontier.containers_state;
  empty := AStarFrontier.empty;
  remove := AStarFrontier.remove;
  getLabel := AStarFrontier.getLabel
}.

(** ** The grid *)

Inductive MazeCellType : Type := Space | Wall | Start | Goal.

Inductive MazeCellState : Type :=
  Unexplored | Explored | Frontier | SolutionPath | Unreachable.

Module MazeCell.
Record t : Type := mk {
  type : MazeCellType;
  state : MazeCellState;
  label : option string      (* [label?: string] *)
}.
End MazeCell.

(** [type MazeData = MazeCell[][]] *)
Abbreviation MazeData := (list (list MazeCell.t)).

#[export] Instance MazeCellType_eq_dec : EqDecision MazeCellType.
Proof. solve_decision. Defined.
#[export] Instance MazeCellState_eq_dec : EqDecision MazeCellState.
Proof. solve_decision. Defined.

(** [a[i]] for a number [i]: [undefined] when [i] is outside the array. *)
Definition at_index {A} (l : list A) (i : Z) : option A :=
  if i <? 0 then None else l !! Z.to_nat i.

(** [maze[row][col]], a [TypeError] as soon as a property of it is read
    while the row or the cell is [undefined]. *)
Definition cellAt (maze : MazeData) (s : State) : result MazeCell.t :=
  match at_index maze s.1 with
  | None => Throw TypeError
  | Some row =>
      match at_index row s.2 with
      | None => Throw TypeError
      | Some cell => Ok cell
      end
  end.

(** In-place update of the cell at [s]. *)
Definition updateCell (f : MazeCell.t -> MazeCell.t) (maze : MazeData) (s : State)
  : result MazeData :=
  let* _ := cellAt maze s in
  Ok (alter (alter f (Z.to_nat s.2)) (Z.to_nat s.1) maze).

Definition setCellState (maze : MazeData) (s : State) (cellState : MazeCellState)
  : result MazeData :=
  updateCell (fun c => MazeCell.mk (MazeCell.type c) cellState (MazeCell.label c)) maze s.

Definition setCellLabel (maze : MazeData) (s : State) (label : string)
  : result MazeData :=
  updateCell (fun c => MazeCell.mk (MazeCell.type c) (MazeCell.state c) (Some label)) maze s.

Definition getCellState (maze : MazeData) (s : State) : result MazeCellState :=
  let* c := cellAt maze s in Ok (MazeCell.state c).

Definition calcManhattanDistance (a b : State) : Z :=
  Z.abs (a.1 - b.1) + Z.abs (a.2 - b.2).

Inductive SolutionType : Type := Pending | NoSolution | Continue | FoundSolution.

#[export] Instance SolutionType_eq_dec : EqDecision SolutionType.
Proof. solve_decision. Defined.

(** ** The shared store and the [Maze] class *)

(** The reactive references [mazeData], [numExplored], [solutionType].  A
    [Maze] object holds all three by reference. *)
Record Store : Type := mkStore {
  mazeData : MazeData;
  numExplored : Z;
  solutionType : SolutionType
}.

(** The private fields of a [Maze] object. *)
Record Maze : Type := mkMaze {
  _start : State;
  _goal : State;
  _width : Z;
  _height : Z
}.

(** A loop whose body may throw. *)
Fixpoint foldM {A S : Type} (body : S -> A -> result S) (l : list A) (s : S)
  : result S :=
  match l with
  | [] => Ok s
  | a :: l' => let* s' := body s a in foldM body l' s'
  end.

(** [Array.prototype.filter] with a predicate that may throw. *)
Fixpoint filterM {A : Type} (p : A -> result bool) (l : list A) : result (list A) :=
  match l with
  | [] => Ok []
  | a :: l' =>
      let* b := p a in
      let* r := filterM p l' in
      Ok (if b then a :: r else r)
  end.

(** [for (let i = 0; i < n; i++)] *)
Definition upto (n : Z) : list Z := map Z.of_nat (seq 0 (Z.to_nat n)).

(** The body of the constructor's inner loop, at cell [(i, j)]. *)
Definition scanCell (maze : MazeData) (i : Z) (acc : option State * option State) (j : Z)
  : result (option State * option State) :=
  let '(start, goal) := acc in
  let* cell := cellAt maze (i, j) in
  match MazeCell.type cell with
  | Start =>
      match start with
      | Some _ => Throw (Error "只能有一个起点")
      | None => Ok (Some (i, j), goal)
      end
  | Goal =>
      match goal with
      | Some _ => Throw (Error "只能有一个终点")
      | None => Ok (start, Some (i, j))
      end
  | _ => Ok (start, goal)
  end.

Definition constructor (st : Store) : result (Maze * Store) :=
  let maze := mazeData st in
  let height := Z.of_nat (length maze) in
  match maze !! 0%nat with
  | None => Throw TypeError                      (* [this.maze[0].length] *)
  | Some row0 =>
      let width := Z.of_nat (length row0) in
      let st' := mkStore maze 0 Pending in
      let* (start, goal) :=
        foldM (fun acc i => foldM (scanCell maze i) (upto width) acc)
              (upto height) (None, None) in
      match start with
      | None => Throw (Error "没有起点")
      | Some start =>
          match goal with
          | None => Throw (Error "没有终点")
          | Some goal => Ok (mkMaze start goal width height, st')
          end
      end
  end.

Definition candidates (s : State) : list (Action * State) :=
  let '(row, col) := s in
  [ (Up, (row - 1, col));
    (Down, (row + 1, col));
    (Left, (row, col - 1));
    (Right, (row, col + 1)) ].

Definition neighbors (this : Maze) (maze : MazeData) (s : State)
  : result (list (Action * State)) :=
  filterM (fun candidate : Action * State =>
             let '(_, (row, col)) := candidate in
             if (row <? 0) || (row >=? _height this) then Ok false
             else if (col <? 0) || (col >=? _width this) then Ok false
             else let* cell := cellAt maze (row, col) in
                  Ok (negb (bool_decide (MazeCell.type cell = Wall))))
          (candidates s).

(** What the closure returned by [solve] captures: the [Maze] object and
    the frontier it mutates. *)
Record Closure (F : Type) : Type := mkClosure {
  this : Maze;
  frontier : F
}.
Arguments mkClosure {F} this frontier.
Arguments this {F} c.
Arguments frontier {F} c.

(** The walk from the goal node up the parent links. *)
Fixpoint markPath (node : Node) (maze : MazeData) : result MazeData :=
  match node with
  | mkNode s p _ _ _ =>
      let* maze' := setCellState maze s SolutionPath in
      match p with
      | None => Ok maze'
      | Some _node => markPath _node maze'
      end
  end.

Section Solve.
Context {F : Type} `{IFrontier F}.

(** The body of the loop over the neighbours of [node]. *)
Definition expand (goal : State) (node : Node) (acc : F * MazeData)
           (n : Action * State) : result (F * MazeData) :=
  let '(fr, maze) := acc in
  let '(action, s) := n in
  if containers_state s fr then Ok (fr, maze)
  else
    let* cs := getCellState maze s in
    if bool_decide (cs = Explored) then Ok (fr, maze)
    else
      let child :=
        mkNode s (Some node) (Some action) (calcManhattanDistance s goal)
               (pathCost node + 1) in
      let fr' := add child fr in
      let* maze1 := setCellLabel maze (state child) (getLabel fr' child) in
      let* maze2 := setCellState maze1 s Frontier in
      Ok (fr', maze2).

Definition next (c : Closure F) (st : Store) : result (Closure F * Store) :=
  if empty (frontier c) then
    Ok (c, mkStore (mazeData st) (numExplored st) NoSolution)
  else
    let* (removed, fr) := remove (frontier c) in
    let explored := numExplored st + 1 in
    match removed with
    | None => Throw TypeError                  (* [node.state] of [undefined] *)
    | Some node =>
        if State_equals (state node) (_goal (this c)) then
          let* maze' := markPath node (mazeData st) in
          Ok (mkClosure (this c) fr, mkStore maze' explored FoundSolution)
        else
          let* maze1 := setCellState (mazeData st) (state node) Explored in
          let* ns := neighbors (this c) maze1 (state node) in
          let* (fr', maze2) := foldM (expand (_goal (this c)) node) ns (fr, maze1) in
          Ok (mkClosure (this c) fr', mkStore maze2 explored (solutionType st))
    end.

Definition solve (this : Maze) (st : Store) : result (Closure F * Store) :=
  let start :=
    mkNode (_start this) None None
           (calcManhattanDistance (_start this) (_goal this)) 0 in
  let fr := add start create in
  let* maze' := setCellState (mazeData st) (_start this) Frontier in
  Ok (mkClosure this fr, mkStore maze' 0 Continue).
End Solve.

(** ** Templates *)

Definition LF : ascii := "010"%char.
Definition CR : ascii := "013"%char.

(** [template.split(/\r?\n/)]: the pieces between line ends, a line end
    being [CR LF] or a lone [LF]. *)
Fixpoint splitLines (template : string) : list string :=
  match template with
  | EmptyString => [EmptyString]
  | String c rest =>
      if Ascii.eqb c LF then EmptyString :: splitLines rest
      else
        let keep :=
          match splitLines rest with
          | line :: lines => String c line :: lines
          | [] => [String c EmptyString]
          end in
        if Ascii.eqb c CR then
          match rest with
          | String c' rest' =>
              if Ascii.eqb c' LF then EmptyString :: splitLines rest' else keep
          | EmptyString => keep
          end
        else keep
  end.

Fixpoint mapM {A B : Type} (f : A -> result B) (l : list A) : result (list B) :=
  match l with
  | [] => Ok []
  | a :: l' => let* b := f a in let* r := mapM f l' in Ok (b :: r)
  end.

Definition parseChar (char : ascii) : result MazeCell.t :=
  if Ascii.eqb char "#" then Ok (MazeCell.mk Wall Unreachable None)
  else if Ascii.eqb char "A" then Ok (MazeCell.mk Start Unexplored None)
  else if Ascii.eqb char "B" then Ok (MazeCell.mk Goal Unexplored None)
  else if Ascii.eqb char " " then Ok (MazeCell.mk Space Unexplored None)
  else Throw (Error "invalid template").

Definition buildMaze (template : string) : result MazeData :=
  mapM (fun strTemplate => mapM parseChar (list_ascii_of_string strTemplate))
       (splitLines template).

Definition cellChar (cell : MazeCell.t) : string :=
  match MazeCell.type cell with
  | Wall => "#"
  | Start => "A"
  | Goal => "B"
  | Space => " "
  end.

Definition mazeToTemplate (maze : MazeData) : string :=
  String.concat (String LF EmptyString)
                (map (fun row => String.concat "" (map cellChar row)) maze).

(** ** The demo driver *)

Inductive DemoState : Type := Ready | Running | Paused | Done.

(** The component's state that the driver touches: the shared store, the
    demo state, whether the timer of [setInterval] is armed, and
    [demoRunner] (the closure it wraps, or [undefined]). *)
Record App (F : Type) : Type := mkApp {
  store : Store;
  demoState : DemoState;
  interval : bool;
  demoRunner : option (Closure F)
}.
Arguments mkApp {F} store demoState interval demoRunner.
Arguments store {F} a.
Arguments demoState {F} a.
Arguments interval {F} a.
Arguments demoRunner {F} a.

Definition resetCell (cell : MazeCell.t) : MazeCell.t :=
  MazeCell.mk (MazeCell.type cell)
              (if bool_decide (MazeCell.type cell = Wall) then Unreachable else Unexplored)
              (Some ""%string).

Definition reset {F} (app : App F) : App F :=
  mkApp (mkStore (map (map resetCell) (mazeData (store app))) 0 Pending)
        Ready false None.

Section Driver.
Context {F : Type} `{IFrontier F}.

Definition doStart (app : App F) : result (App F) :=
  let* (maze, st) := constructor (store app) in
  let* (next, st') := solve maze st in
  Ok (mkApp st' Running true (Some next)).

(** One call of the function stored in [demoRunner]; [c] is the
    environment of the [next] it captured. *)
Definition demoRunner_call (app : App F) : result (App F) :=
  match demoRunner app with
  | None => Ok app
  | Some c =>
      let* (c', st) :=
        if bool_decide (solutionType (store app) = Continue)
        then next c (store app) else Ok (c, store app) in
      if bool_decide (solutionType st <> Continue)
      then Ok (mkApp st Done false (Some c'))
      else Ok (mkApp st (demoState app) (interval app) (Some c'))
  end.

(** The timer of [setInterval] firing [n] times: it calls [demoRunner]
    for as long as it is armed. *)
Fixpoint ticks (n : nat) (app : App F) : result (App F) :=
  match n with
  | O => Ok app
  | S n' =>
      if interval app
      then let* app' := demoRunner_call app in ticks n' app'
      else Ok app
  end.
End Driver.

(** ** priorityQueue.ts: positions as the 32-bit operators compute them

    [>>>] takes its left operand modulo [2^32] and shifts it as an unsigned
    number; [<<] shifts it as a 32-bit pattern and reads the result as a
    signed number. *)

Module Int32.
Definition toUint32 (z : Z) : Z := z mod 2 ^ 32.

Definition toInt32 (z : Z) : Z :=
  let u := toUint32 z in if u <? 2 ^ 31 then u else u - 2 ^ 32.

(** [a << k] *)
Definition shl (a k : Z) : Z := toInt32 (Z.shiftl (toUint32 a) (toUint32 k mod 32)).

(** [a >>> k] *)
Definition ushr (a k : Z) : Z := Z.shiftr (toUint32 a) (toUint32 k mod 32).

Definition parent (i : Z) : Z := ushr (i + 1) 1 - 1.
Definition left (i : Z) : Z := shl i 1 + 1.
Definition right (i : Z) : Z := shl (i + 1) 1.
End Int32.

(** ** The buttons of the demo

    A handler that catches what it calls, or whose caller goes on after it
    threw, returns the component as the call leaves it, together with the
    exception reported or thrown, if any. *)

Module Controls.
Section Handlers.
Context {F : Type} `{IFrontier F}.

(** What [doStart] has done to the component by the time it throws: the
    constructor of [Maze] has set the counter and the outcome, unless the
    grid has no row and reading [this.maze[0].length] threw before that.
    Nothing else is written before the last statement that can throw. *)
Definition doStart_thrown (app : App F) : App F :=
  match mazeData (store app) with
  | [] => app
  | _ :: _ =>
      mkApp (mkStore (mazeData (store app)) 0 Pending)
            (demoState app) (interval app) (demoRunner app)
  end.

(** [start()]: the exception, if any, is the one passed to [console.error]
    and whose message [alert] shows. *)
Definition start (app : App F) : App F * option exn :=
  match doStart app with
  | Ok app' => (app', None)
  | Throw e => (doStart_thrown app, Some e)
  end.

Definition pause (app : App F) : App F :=
  mkApp (store app) Paused false (demoRunner app).

Definition next (app : App F) : result (App F * option exn) :=
  match demoRunner app with
  | Some _ => let* app' := demoRunner_call app in Ok (app', None)
  | None => let '(app', alerted) := start app in Ok (pause app', alerted)
  end.

Definition resume (app : App F) : App F :=
  match demoRunner app with
  | Some _ => mkApp (store app) Running true (demoRunner app)
  | None => app
  end.
End Handlers.
End Controls.

(** ** The editor

    The references that the editing handlers touch besides those of [App]:
    the brush ([null] is [None]), whether a drag over the grid is going on,
    and the two size fields of the new-maze form. *)
Record Editor (F : Type) : Type := mkEditor {
  demo : App F;
  brush : option MazeCellType;
  consecutiveDrawing : bool;
  mazeWidth : nat;
  mazeHeight : nat
}.
Arguments mkEditor {F} demo brush consecutiveDrawing mazeWidth mazeHeight.
Arguments demo {F} e.
Arguments brush {F} e.
Arguments consecutiveDrawing {F} e.
Arguments mazeWidth {F} e.
Arguments mazeHeight {F} e.

Section Editing.
Context {F : Type} `{IFrontier F}.

Definition withGrid (e : Editor F) (maze : MazeData) : Editor F :=
  mkEditor (mkApp (mkStore maze (numExplored (store (demo e))) (solutionType (store (demo e))))
                  (demoState (demo e)) (interval (demo e)) (demoRunner (demo e)))
           (brush e) (consecutiveDrawing e) (mazeWidth e) (mazeHeight e).

(** What [drawCell] writes into a cell. *)
Definition paint (b : MazeCellType) (cell : MazeCell.t) : MazeCell.t :=
  MazeCell.mk b (if bool_decide (b = Wall) then Unreachable else Unexplored)
              (MazeCell.label cell).

(** [drawCell(cell)], for the cell of the grid at [s].  The template hands
    the handlers cells of the grid only; a position without a cell stands
    for no cell, and nothing is drawn. *)
Definition drawCell (e : Editor F) (s : State) : Editor F :=
  match demoState (demo e), brush e with
  | Ready, Some b =>
      match updateCell (paint b) (mazeData (store (demo e))) s with
      | Ok maze' => withGrid e maze'
      | Throw _ => e
      end
  | _, _ => e
  end.

Definition onCellMouseDown (e : Editor F) (s : State) : Editor F :=
  let e' := drawCell e s in
  mkEditor (demo e') (brush e') true (mazeWidth e') (mazeHeight e').

Definition onCellMouseEnter (e : Editor F) (s : State) : Editor F :=
  if consecutiveDrawing e then drawCell e s else e.

(** [updateMazeFromTemplate(template)]: [reset()] has run when [buildMaze]
    throws. *)
Definition updateMazeFromTemplate (e : Editor F) (template : string)
  : Editor F * option exn :=
  let e1 := mkEditor (reset (demo e)) (brush e) (consecutiveDrawing e)
                     (mazeWidth e) (mazeHeight e) in
  match buildMaze template with
  | Throw ex => (e1, Some ex)
  | Ok maze =>
      let e2 := withGrid e1 maze in
      match maze with
      | [] => (e2, Some TypeError)              (* [mazeData.value[0].length] *)
      | row0 :: _ =>
          (mkEditor (demo e2) (brush e2) (consecutiveDrawing e2) (length row0) (length maze),
           None)
      end
  end.

(** [s.repeat(count)] for a count that is a natural number; a negative
    count, for which it throws, is outside the model. *)
Fixpoint repeat (s : string) (count : nat) : string :=
  match count with
  | O => EmptyString
  | S n => (s ++ repeat s n)%string
  end.

(** [s.slice(0, -1)]: all but the last character. *)
Definition slice_0_m1 (s : string) : string :=
  substring 0 (String.length s - 1) s.

Definition loadEmptyMaze (e : Editor F) (width height : nat) : Editor F * option exn :=
  let rowTemplate := (repeat " " width ++ String LF EmptyString)%string in
  let mazeTemplate := slice_0_m1 (repeat rowTemplate height) in
  updateMazeFromTemplate e mazeTemplate.
End Editing.

(** ** Random mazes

    [Math.random()] is answered by an oracle.  The code uses a random number
    only as [Math.floor(Math.random() * n)] for a natural number [n]: a
    natural number below [n], any of them, and [0] when [n] is [0].  The
    oracle gives a natural number for each call in turn, and the remainder
    modulo [n] is taken; [calls] counts the calls made so far. *)
Definition Oracle : Type := nat -> nat.

Definition randomBelow (random : Oracle) (calls n : nat) : nat :=
  match n with
  | O => O
  | S _ => random calls mod n
  end.

Section Shuffle.
Context {A : Type} (random : Oracle).

(** The loop of [shuffle].  Both indices of the exchange are indices of the
    array, [randomIndex <= currentIndex - 1 < array.length]; the last branch
    does not occur. *)
Fixpoint shuffle_loop (currentIndex : nat) (array : list A) (calls : nat)
  : list A * nat :=
  match currentIndex with
  | O => (array, calls)
  | S currentIndex' =>
      let randomIndex := randomBelow random calls currentIndex in
      let array' :=
        match array !! randomIndex, array !! currentIndex' with
        | Some x, Some y => <[randomIndex := y]> (<[currentIndex' := x]> array)
        | _, _ => array
        end in
      shuffle_loop currentIndex' array' (S calls)
  end.

(** [shuffle(array)]: the array after, and the number of calls of
    [Math.random] made by then. *)
Definition shuffle (array : list A) (calls : nat) : list A * nat :=
  shuffle_loop (length array) array calls.
End Shuffle.

(** [genDFSMaze].  The array [spaceCells] holds references to cells of the
    grid under construction, and a cell can be in it twice: a reference is
    the position of the cell, and a write through a reference is a write
    into the grid.  The call stack is taken to be deep enough. *)
Module RandomMaze.

Record t : Type := mk {
  maze : MazeData;
  spaceCells : list State;
  calls : nat
}.

Definition wallCell : MazeCell.t := MazeCell.mk Wall Unreachable None.

(** [cell.type = MazeCellType.Space; cell.state = MazeCellState.Unexplored]. *)
Definition carve (cell : MazeCell.t) : MazeCell.t :=
  MazeCell.mk Space Unexplored (MazeCell.label cell).

Definition setType (ty : MazeCellType) (cell : MazeCell.t) : MazeCell.t :=
  MazeCell.mk ty (MazeCell.state cell) (MazeCell.label cell).

Section Generate.
Context (random : Oracle) (width height : nat).

(** The body of the loop of [carve_path] up to the recursive call: [None]
    when the condition of the [if] is false. *)
Definition carve_step (row col : Z) (d : State) (c : t) : result (option t) :=
  let '(drow, dcol) := d in
  if (0 <=? drow) && (drow <? Z.of_nat height)
     && (0 <=? dcol) && (dcol <? Z.of_nat width)
  then
    let* nextCell := cellAt (maze c) (drow, dcol) in
    if bool_decide (MazeCell.type nextCell = Wall) then
      let* maze1 := updateCell carve (maze c) (drow, dcol) in
      let spaceCells1 := spaceCells c ++ [(drow, dcol)] in
      let middle := ((drow + row) / 2, (dcol + col) / 2) in
      let* maze2 := updateCell carve maze1 middle in
      Ok (Some (mk maze2 (spaceCells1 ++ [middle]) (calls c)))
    else Ok None
  else Ok None.

(** [carve_path(row, col, spaceCells)], with fuel for the depth of the
    recursion: [None] when it runs out. *)
Fixpoint carve_path (fuel : nat) (row col : Z) (c : t) : option (result t) :=
  match fuel with
  | O => None
  | S fuel' =>
      let directions := [(row - 2, col); (row + 2, col); (row, col - 2); (row, col + 2)] in
      let '(directions, calls') := shuffle random directions (calls c) in
      fold_left
        (fun acc d =>
           match acc with
           | Some (Ok c) =>
               match carve_step row col d c with
               | Throw e => Some (Throw e)
               | Ok None => Some (Ok c)
               | Ok (Some c') => carve_path fuel' d.1 d.2 c'
               end
           | _ => acc
           end)
        directions (Some (Ok (mk (maze c) (spaceCells c) calls')))
  end.

(** The grid that [genDFSMaze] builds, before it touches the component. *)
Definition generate (fuel : nat) : option (result MazeData) :=
  let maze0 := replicate height (replicate width wallCell) in
  let startRow := Z.of_nat (randomBelow random 0 height) in
  let startCol := Z.of_nat (randomBelow random 1 width) in
  match at_index maze0 startRow with
  | None => Some (Throw TypeError)            (* [maze[startRow][startCol]] *)
  | Some _ =>
      match carve_path fuel startRow startCol (mk maze0 [] 2) with
      | None => None
      | Some (Throw e) => Some (Throw e)
      | Some (Ok c) =>
          Some (let* maze1 := updateCell carve (maze c) (startRow, startCol) in
                let '(spaceCells, _) := shuffle random (spaceCells c) (calls c) in
                let* maze2 :=
                  match spaceCells !! 0%nat with
                  | Some s => updateCell (setType Start) maze1 s
                  | None => Throw TypeError
                  end in
                match spaceCells !! 1%nat with
                | Some s => updateCell (setType Goal) maze2 s
                | None => Throw TypeError
                end)
      end
  end.
End Generate.

(** One unit of fuel for each cell, and one more: every call of
    [carve_path] but the first is made for a cell that was a wall and is
    not any more. *)
Definition fuel (width height : nat) : nat := S (height * width).
End RandomMaze.

(** [genDFSMaze(width, height)], for natural numbers: [reset()] and the
    assignment to [mazeData] are its last statements, so that the component
    is untouched when it throws.  [None] when the fuel runs out. *)
Definition genDFSMaze {F : Type} (random : Oracle) (e : Editor F) (width height : nat)
  : option (Editor F * option exn) :=
  match RandomMaze.generate random width height (RandomMaze.fuel width height) with
  | None => None
  | Some (Throw ex) => Some (e, Some ex)
  | Some (Ok maze) =>
      Some (withGrid (mkEditor (reset (demo e)) (brush e) (consecutiveDrawing e)
                               (mazeWidth e) (mazeHeight e)) maze,
            None)
  end.

(** ** The template: which event calls which handler

    The events that the template of [App.vue] binds, each with the
    condition under which its control is shown and enabled ([v-if],
    [:disabled]); an event whose control is not, does not occur, and the
    component stays as it is.  The timer fires while it is armed.  A click
    on the button for a random maze comes with the random numbers that this
    call of [genDFSMaze] draws.  Not among the events: the choice of another
    algorithm, which changes the frontier class, here a parameter; and the
    export of the template, which writes none of these references. *)
Inductive Event : Type :=
| ClickStart                         (* [v-if="demoState === DemoState.Ready"] *)
| ClickPause                         (* [v-if="demoState === DemoState.Running"] *)
| ClickNext                          (* [:disabled] when [Running] or [Done] *)
| ClickResume                        (* [v-if="demoState === DemoState.Paused"] *)
| ClickReset
| TimerFires
| SelectBrush (b : option MazeCellType)   (* [:disabled="demoState !== DemoState.Ready"] *)
| CancelDraw                         (* [@click="brush = null"] *)
| CellMouseDown (s : State)
| CellMouseEnter (s : State)
| MouseUp                            (* [@mouseup], [@mouseleave] of the grid *)
| TemplateLoaded (template : string) (* the text of an imported or preset file *)
| ClickNewEmptyMaze
| ClickRandomMaze (random : Oracle)
| SetMazeWidth (w : nat)
| SetMazeHeight (h : nat).

Section Events.
Context {F : Type} `{IFrontier F}.

Definition withApp (e : Editor F) (a : App F) : Editor F :=
  mkEditor a (brush e) (consecutiveDrawing e) (mazeWidth e) (mazeHeight e).

Definition withBrush (e : Editor F) (b : option MazeCellType) : Editor F :=
  mkEditor (demo e) b (consecutiveDrawing e) (mazeWidth e) (mazeHeight e).

(** [doStart] ends with [brush.value = null]; a call that throws does not
    get there. *)
Definition started_brush (e : Editor F) (alerted : option exn) : option MazeCellType :=
  match alerted with
  | None => None
  | Some _ => brush e
  end.

(** The component when the page is loaded: [template = 'AB'], no search,
    no brush. *)
Definition initial : result (Editor F) :=
  let* maze := buildMaze "AB" in
  Ok (mkEditor (mkApp (mkStore maze 0 Pending) Ready false None) None false 0 0).

(** The component after the handler of an event returned, or what the
    handler threw; [None] when [genDFSMaze] runs out of fuel. *)
Definition handle (ev : Event) (e : Editor F) : option (result (Editor F)) :=
  match ev with
  | ClickStart =>
      match demoState (demo e) with
      | Ready =>
          let '(a, alerted) := Controls.start (demo e) in
          Some (Ok (withBrush (withApp e a) (started_brush e alerted)))
      | _ => Some (Ok e)
      end
  | ClickPause =>
      match demoState (demo e) with
      | Running => Some (Ok (withApp e (Controls.pause (demo e))))
      | _ => Some (Ok e)
      end
  | ClickNext =>
      match demoState (demo e) with
      | Running | Done => Some (Ok e)
      | _ =>
          Some (let* (a, alerted) := Controls.next (demo e) in
                Ok (withBrush (withApp e a)
                      (match demoRunner (demo e) with
                       | Some _ => brush e
                       | None => started_brush e alerted
                       end)))
      end
  | ClickResume =>
      match demoState (demo e) with
      | Paused => Some (Ok (withApp e (Controls.resume (demo e))))
      | _ => Some (Ok e)
      end
  | ClickReset => Some (Ok (withApp e (reset (demo e))))
  | TimerFires =>
      if interval (demo e)
      then Some (let* a := demoRunner_call (demo e) in Ok (withApp e a))
      else Some (Ok e)
  | SelectBrush b =>
      match demoState (demo e) with
      | Ready => Some (Ok (withBrush e b))
      | _ => Some (Ok e)
      end
  | CancelDraw => Some (Ok (withBrush e None))
  | CellMouseDown s => Some (Ok (onCellMouseDown e s))
  | CellMouseEnter s => Some (Ok (onCellMouseEnter e s))
  | MouseUp =>
      Some (Ok (mkEditor (demo e) (brush e) false (mazeWidth e) (mazeHeight e)))
  | TemplateLoaded template => Some (Ok (updateMazeFromTemplate e template).1)
  | ClickNewEmptyMaze => Some (Ok (loadEmptyMaze e (mazeWidth e) (mazeHeight e)).1)
  | ClickRandomMaze random =>
      match genDFSMaze random e (mazeWidth e) (mazeHeight e) with
      | Some (e', _) => Some (Ok e')
      | None => None
      end
  | SetMazeWidth w =>
      Some (Ok (mkEditor (demo e) (brush e) (consecutiveDrawing e) w (mazeHeight e)))
  | SetMazeHeight h =>
      Some (Ok (mkEditor (demo e) (brush e) (consecutiveDrawing e) (mazeWidth e) h))
  end.

(** The component after a sequence of events, up to the first handler that
    throws. *)
Fixpoint run (evs : list Event) (e : Editor F) : option (result (Editor F)) :=
  match evs with
  | [] => Some (Ok e)
  | ev :: evs' =>
      match handle ev e with
      | Some (Ok e') => run evs' e'
      | stopped => stopped
      end
  end.

(** The sequence of events after the page is loaded. *)
Definition session (evs : list Event) : option (result (Editor F)) :=
  match initial with
  | Ok e0 => run evs e0
  | Throw ex => Some (Throw ex)
  end.
End Events.

(** * Properties of the embedded program *)

(** ** The binary heap of [priorityQueue.ts] *)

Section ArrayFacts.
Context {T : Type}.

#[local] Abbreviation parent := PriorityQueue.parent.
#[local] Abbreviation left := PriorityQueue.left.
#[local] Abbreviation right := PriorityQueue.right.
#[local] Abbreviation _swap := PriorityQueue._swap.

Ltac halves e :=
  pose proof (Nat.div_mod_eq e 2); pose proof (Nat.mod_upper_bound e 2).

Lemma parent_spec i : parent i = ((i + 1) / 2 - 1)%nat.
Proof. unfold PriorityQueue.parent. now rewrite Nat.shiftr_div_pow2. Qed.

Lemma left_spec i : left i = (2 * i + 1)%nat.
Proof. unfold PriorityQueue.left. rewrite Nat.shiftl_mul_pow2. simpl. lia. Qed.

Lemma right_spec i : right i = (2 * i + 2)%nat.
Proof. unfold PriorityQueue.right. rewrite Nat.shiftl_mul_pow2. simpl. lia. Qed.

Lemma parent_lt i : (0 < i)%nat -> (parent i < i)%nat.
Proof. intros Hi. rewrite parent_spec. halves (i + 1)%nat. lia. Qed.

Lemma parent_children i k :
  (0 < i)%nat -> parent i = k <-> i = left k \/ i = right k.
Proof.
  intros Hi. rewrite parent_spec, left_spec, right_spec.
  halves (i + 1)%nat. lia.
Qed.

Lemma swap_length (h : list T) i j : length (_swap h i j) = length h.
Proof.
  unfold PriorityQueue._swap.
  destruct (h !! i), (h !! j); try reflexivity. now rewrite !length_insert.
Qed.

Lemma swap_perm (h : list T) i j : _swap h i j ≡ₚ h.
Proof.
  unfold PriorityQueue._swap.
  destruct (h !! i) eqn:Hi, (h !! j) eqn:Hj; try reflexivity.
  now apply Permutation_insert_swap.
Qed.

(** Reading the array after an exchange of two positions inside it. *)
Lemma swap_lookup (h : list T) i j k x :
  (i < length h)%nat -> (j < length h)%nat ->
  _swap h i j !! k = Some x ->
  (k = j /\ h !! i = Some x) \/ (k = i /\ h !! j = Some x)
  \/ (k <> i /\ k <> j /\ h !! k = Some x).
Proof.
  intros Hi Hj. unfold PriorityQueue._swap.
  destruct (lookup_lt_is_Some_2 h i Hi) as [a Ha].
  destruct (lookup_lt_is_Some_2 h j Hj) as [b Hb].
  rewrite Ha, Hb. intros Hk.
  destruct (decide (k = j)) as [->|Hkj].
  - rewrite list_lookup_insert_eq in Hk by (rewrite length_insert; lia).
    left. split; congruence.
  - rewrite list_lookup_insert_ne in Hk by congruence.
    destruct (decide (k = i)) as [->|Hki].
    + rewrite list_lookup_insert_eq in Hk by lia. right; left. split; congruence.
    + rewrite list_lookup_insert_ne in Hk by congruence. tauto.
Qed.

End ArrayFacts.

Section HeapFacts.
Context {T : Type}.
Variable cmp : T -> T -> bool.

#[local] Abbreviation parent := PriorityQueue.parent.
#[local] Abbreviation left := PriorityQueue.left.
#[local] Abbreviation right := PriorityQueue.right.
#[local] Abbreviation _swap := PriorityQueue._swap.
#[local] Abbreviation _greater := (PriorityQueue._greater cmp).
#[local] Abbreviation siftUp_loop := (PriorityQueue.siftUp_loop cmp).
#[local] Abbreviation siftDown_loop := (PriorityQueue.siftDown_loop cmp).

Lemma siftUp_loop_perm (h : list T) node : siftUp_loop h node ≡ₚ h.
Proof.
  funelim (PriorityQueue.siftUp_loop cmp h node); [|reflexivity].
  etransitivity; [eassumption|apply swap_perm].
Qed.

Lemma siftDown_loop_perm (h : list T) node : siftDown_loop h node ≡ₚ h.
Proof.
  funelim (PriorityQueue.siftDown_loop cmp h node); [|reflexivity].
  etransitivity; [eassumption|apply swap_perm].
Qed.

Lemma push1_perm (h : list T) x : PriorityQueue.push1 cmp h x ≡ₚ x :: h.
Proof.
  unfold PriorityQueue.push1, PriorityQueue._siftUp.
  rewrite siftUp_loop_perm. now rewrite Permutation_app_comm.
Qed.

(** [pop] on a heap that holds something hands out its first element and
    keeps the others. *)
Lemma pop_perm (h : list T) x h0 :
  h = x :: h0 ->
  exists h', PriorityQueue.pop cmp h = (Some x, h') /\ x :: h' ≡ₚ h.
Proof.
  intros ->. unfold PriorityQueue.pop, PriorityQueue.peek, PriorityQueue.top.
  eexists; split; [reflexivity|].
  unfold PriorityQueue._siftDown. rewrite siftDown_loop_perm.
  set (h := x :: h0). unfold PriorityQueue.size.
  destruct (Z.ltb_spec (Z.of_nat 0) (Z.of_nat (length h) - 1)) as [Hlt|Hge].
  - assert (Hb : (Z.to_nat (Z.of_nat (length h) - 1) = length h - 1)%nat) by lia.
    rewrite Hb, swap_length.
    assert (Hlast : _swap h 0 (length h - 1) !! (length h - 1)%nat = Some x).
    { unfold PriorityQueue._swap.
      destruct (lookup_lt_is_Some_2 h (length h - 1)%nat ltac:(lia)) as [b Hbl].
      change (h !! 0%nat) with (Some x). rewrite Hbl.
      apply list_lookup_insert_eq. rewrite length_insert. lia. }
    pose proof (take_drop_middle _ _ _ Hlast) as Hmid.
    rewrite drop_ge in Hmid by (rewrite swap_length; lia).
    etransitivity; [|apply (swap_perm h 0 (length h - 1))].
    rewrite <- Hmid at 2. apply Permutation_cons_append.
  - assert (h0 = []) as -> by (destruct h0; [reflexivity|simpl in *; lia]).
    reflexivity.
Qed.

End HeapFacts.

(** *** Heap order

    The comparator is a strict "comes before" test.  The heap operations
    keep the array ordered when it is a strict weak ordering: irreflexive,
    transitive, and with a transitive "neither comes before the other". *)

Class StrictWeakOrder {T : Type} (cmp : T -> T -> bool) : Prop := {
  swo_irrefl : forall a, cmp a a = false;
  swo_trans : forall a b c, cmp a b = true -> cmp b c = true -> cmp a c = true;
  swo_incomp : forall a b c,
    cmp a b = false -> cmp b a = false -> cmp b c = false -> cmp c b = false ->
    cmp a c = false
}.

Section HeapOrder.
Context {T : Type} (cmp : T -> T -> bool) `{!StrictWeakOrder cmp}.

#[local] Abbreviation parent := PriorityQueue.parent.
#[local] Abbreviation left := PriorityQueue.left.
#[local] Abbreviation right := PriorityQueue.right.
#[local] Abbreviation _swap := PriorityQueue._swap.

Lemma cmp_asym a b : cmp a b = true -> cmp b a = false.
Proof.
  intros Hab. destruct (cmp b a) eqn:Hba; [|reflexivity].
  pose proof (swo_trans _ _ _ Hab Hba) as Haa. now rewrite swo_irrefl in Haa.
Qed.

Lemma cmp_negtrans a b c : cmp a b = false -> cmp b c = false -> cmp a c = false.
Proof.
  intros Hab Hbc. destruct (cmp a c) eqn:Hac; [|reflexivity].
  destruct (cmp b a) eqn:Hba.
  { pose proof (swo_trans _ _ _ Hba Hac). congruence. }
  destruct (cmp c b) eqn:Hcb.
  { pose proof (swo_trans _ _ _ Hac Hcb). congruence. }
  pose proof (swo_incomp _ _ _ Hab Hba Hbc Hcb). congruence.
Qed.

Definition ordered_at (h : list T) (i : nat) : Prop :=
  forall a b, h !! i = Some a -> h !! parent i = Some b -> cmp a b = false.

Definition heap_ordered (h : list T) : Prop :=
  forall i, (0 < i)%nat -> ordered_at h i.

Definition up_inv (h : list T) (k : nat) : Prop :=
  (forall i, (0 < i)%nat -> i <> k -> ordered_at h i)
  /\ (forall c a b, (0 < k)%nat -> (0 < c)%nat -> parent c = k ->
        h !! c = Some a -> h !! parent k = Some b -> cmp a b = false).


Ltac forget_eqns :=
  try match goal with He : _ = PriorityQueue.siftUp_loop _ _ _ |- _ => clear He end;
  try match goal with He : _ = PriorityQueue.siftDown_loop _ _ _ |- _ => clear He end;
  repeat match goal with He : sigmaI _ _ _ = _ |- _ => clear He end.

Lemma greater_true (h : list T) i j :
  PriorityQueue._greater cmp h i j = true ->
  exists a b, h !! i = Some a /\ h !! j = Some b /\ cmp a b = true.
Proof.
  unfold PriorityQueue._greater.
  destruct (h !! i) as [a|], (h !! j) as [b|]; try discriminate. eauto.
Qed.

Lemma greater_false (h : list T) i j a b :
  PriorityQueue._greater cmp h i j = false ->
  h !! i = Some a -> h !! j = Some b -> cmp a b = false.
Proof.
  unfold PriorityQueue._greater. intros Hg Ha Hb.
  rewrite Ha, Hb in Hg. exact Hg.
Qed.

Lemma siftUp_loop_ordered (h : list T) k :
  (k < length h)%nat -> up_inv h k ->
  heap_ordered (PriorityQueue.siftUp_loop cmp h k).
Proof.
  funelim (PriorityQueue.siftUp_loop cmp h k); intros Hk [Hup1 Hup2]; forget_eqns.
  -     apply andb_prop in Hc as [Hpos Hg]. apply Nat.ltb_lt in Hpos.
    unfold PriorityQueue.top in Hpos.
    apply greater_true in Hg as (xk & xp & Hxk & Hxp & Hlt).
    pose proof (parent_lt node Hpos) as Hpl.
    apply H; [rewrite swap_length; lia|]. split.
    + intros i Hi Hne a b Ha Hb.
      pose proof (parent_lt i Hi) as Hpi.
      apply swap_lookup in Ha as [[-> Ha]|[[-> Ha]|(Hi1 & Hi2 & Ha)]]; try lia;
        apply swap_lookup in Hb as [[Hb1 Hb]|[[Hb1 Hb]|(Hb1 & Hb2 & Hb)]]; try lia.
      * assert (a = xp) by congruence. assert (b = xk) by congruence. subst.
        now apply cmp_asym.
      * assert (b = xk) by congruence. subst b.
        pose proof (Hup1 i Hi Hi1 a xp Ha) as Hord. rewrite Hb1 in Hord.
        specialize (Hord Hxp).
        destruct (cmp a xk) eqn:Hax; [|reflexivity].
        pose proof (swo_trans _ _ _ Hax Hlt). congruence.
      * assert (b = xp) by congruence. subst b.
        eapply (Hup2 i a xp); eauto.
      * eapply (Hup1 i); eauto.
    + intros c a b Hp Hc Hpc Ha Hb.
      pose proof (parent_lt _ Hp) as Hpp. pose proof (parent_lt _ Hc) as Hpcc.
      apply swap_lookup in Hb as [[Hb1 Hb]|[[Hb1 Hb]|(Hb1 & Hb2 & Hb)]]; try lia.
      pose proof (Hup1 (parent node) Hp ltac:(lia) xp b Hxp Hb) as Hpq.
      apply swap_lookup in Ha as [[-> Ha]|[[-> Ha]|(Hi1 & Hi2 & Ha)]]; try lia.
      * assert (a = xp) by congruence. now subst a.
      * pose proof (Hup1 c Hc Hi1 a xp Ha) as Hord. rewrite Hpc in Hord.
        specialize (Hord Hxp). eapply cmp_negtrans; eauto.
  - intros i Hi a b Ha Hb.
    destruct (decide (i = node)) as [->|Hne]; [|eapply Hup1; eauto].
    match goal with Hf : _ && _ = false |- _ => rename Hf into Hcf end.
    apply Nat.ltb_lt in Hi as Hi'. unfold PriorityQueue.top in Hcf.
    rewrite Hi' in Hcf. simpl in Hcf. eapply greater_false; eauto.
Qed.

Definition down_inv (h : list T) (k : nat) : Prop :=
  (forall i, (0 < i)%nat -> parent i <> k -> ordered_at h i)
  /\ (forall c a b, (0 < k)%nat -> (0 < c)%nat -> parent c = k ->
        h !! c = Some a -> h !! parent k = Some b -> cmp a b = false).

(** What the loop guard and the choice of [maxChild] give: the chosen child
    [m] of [k] is inside the array, the element at [k] does not come before
    it, and neither does its sibling. *)
Lemma maxChild_facts (h : list T) k :
  PriorityQueue.siftDown_cond cmp h k = true ->
  let m := PriorityQueue.maxChild cmp h k in
  (k < m < length h)%nat /\ parent m = k
  /\ exists xk xm, h !! k = Some xk /\ h !! m = Some xm /\ cmp xk xm = false
     /\ forall c xc, (0 < c)%nat -> parent c = k -> c <> m -> h !! c = Some xc ->
          cmp xc xm = false.
Proof.
  unfold PriorityQueue.siftDown_cond, PriorityQueue.maxChild, PriorityQueue.size.
  intros Hc.
  pose proof (left_spec k) as Hl. pose proof (right_spec k) as Hr.
  pose proof (proj2 (parent_children (left k) k ltac:(lia)) (or_introl eq_refl)) as Hpl.
  pose proof (proj2 (parent_children (right k) k ltac:(lia)) (or_intror eq_refl)) as Hpr.
  assert (Hkids : forall c, (0 < c)%nat -> parent c = k -> c = left k \/ c = right k).
  { intros c Hc0 Hpc. now apply parent_children. }
  destruct (Nat.ltb_spec (right k) (length h)) as [Hrs|Hrs]; cbn [andb orb] in *.
  - assert (Hls : (left k < length h)%nat) by lia.
    apply Nat.ltb_lt in Hls as Hls'. rewrite Hls' in Hc. cbn [andb] in Hc.
    destruct (lookup_lt_is_Some_2 h k ltac:(lia)) as [xk Hxk].
    destruct (lookup_lt_is_Some_2 h (left k) Hls) as [xl Hxl].
    destruct (lookup_lt_is_Some_2 h (right k) Hrs) as [xr Hxr].
    unfold PriorityQueue._greater in *. rewrite Hxk, Hxl, Hxr in *.
    destruct (cmp xr xl) eqn:Hrl; cbn zeta.
    + split; [lia|]. split; [exact Hpr|]. exists xk, xr. repeat split; auto.
      * destruct (cmp xr xk) eqn:Hrk; [now apply cmp_asym|].
        rewrite orb_false_r in Hc.
        pose proof (swo_trans _ _ _ Hrl Hc). congruence.
      * intros c xc Hc0 Hpc Hne Hxc.
        destruct (Hkids c Hc0 Hpc) as [->| ->]; [|congruence].
        assert (xc = xl) by congruence. subst. now apply cmp_asym.
    + split; [lia|]. split; [exact Hpl|]. exists xk, xl. repeat split; auto.
      * destruct (cmp xl xk) eqn:Hlk; [now apply cmp_asym|].
        cbn [orb] in Hc. destruct (cmp xk xl) eqn:Hkl; [|reflexivity].
        pose proof (cmp_negtrans _ _ _ Hrl Hlk). congruence.
      * intros c xc Hc0 Hpc Hne Hxc.
        destruct (Hkids c Hc0 Hpc) as [->| ->]; [congruence|].
        assert (xc = xr) by congruence. now subst.
  - rewrite orb_false_r in Hc. apply andb_prop in Hc as [Hls Hg].
    apply Nat.ltb_lt in Hls. cbn zeta.
    apply greater_true in Hg as (xl & xk & Hxl & Hxk & Hlk).
    split; [lia|]. split; [exact Hpl|]. exists xk, xl. repeat split; auto.
    + now apply cmp_asym.
    + intros c xc Hc0 Hpc Hne Hxc.
      destruct (Hkids c Hc0 Hpc) as [->| ->]; [congruence|].
      apply lookup_lt_Some in Hxc. lia.
Qed.

Lemma siftDown_loop_ordered (h : list T) k :
  down_inv h k -> heap_ordered (PriorityQueue.siftDown_loop cmp h k).
Proof.
  funelim (PriorityQueue.siftDown_loop cmp h k); intros [Hd1 Hd2]; forget_eqns.
  - pose proof (maxChild_facts h node Hc) as Hm. cbn zeta in Hm.
    revert H Hm. generalize (PriorityQueue.maxChild cmp h node) as m.
    intros m H (Hmb & Hpm & xk & xm & Hxk & Hxm & Hkm & Hsib).
    apply H. split.
    + intros i Hi Hne a b Ha Hb.
      pose proof (parent_lt i Hi) as Hpi.
      apply swap_lookup in Ha as [[-> Ha]|[[-> Ha]|(Hi1 & Hi2 & Ha)]]; try lia;
        apply swap_lookup in Hb as [[Hb1 Hb]|[[Hb1 Hb]|(Hb1 & Hb2 & Hb)]]; try lia.
      * assert (a = xk) by congruence. assert (b = xm) by congruence. now subst.
      * assert (a = xm) by congruence. subst a.
        eapply (Hd2 m xm b); eauto; lia.
      * assert (b = xm) by congruence. subst b.
        eapply Hsib; eauto.
      * eapply (Hd1 i); eauto.
    + intros c a b Hm0 Hc0 Hpc Ha Hb.
      pose proof (parent_lt c Hc0) as Hpcc.
      apply swap_lookup in Hb as [[Hb1 Hb]|[[Hb1 Hb]|(Hb1 & Hb2 & Hb)]]; try lia.
      assert (b = xm) by congruence. subst b.
      apply swap_lookup in Ha as [[-> Ha]|[[-> Ha]|(Hi1 & Hi2 & Ha)]]; try lia.
      eapply (Hd1 c Hc0 ltac:(lia) a xm Ha). now rewrite Hpc.
  - intros i Hi a b Ha Hb.
    destruct (decide (parent i = node)) as [Hp|Hne]; [|eapply Hd1; eauto].
    match goal with Hf : PriorityQueue.siftDown_cond _ _ _ = false |- _ => rename Hf into Hcf end.
    unfold PriorityQueue.siftDown_cond, PriorityQueue.size in Hcf.
    apply orb_false_elim in Hcf as [Hcl Hcr].
    pose proof (lookup_lt_Some _ _ _ Ha) as Hlen.
    rewrite Hp in Hb.
    apply (parent_children i node Hi) in Hp. destruct Hp as [->| ->].
    + apply Nat.ltb_lt in Hlen. rewrite Hlen in Hcl. eapply greater_false; eauto.
    + apply Nat.ltb_lt in Hlen. rewrite Hlen in Hcr. eapply greater_false; eauto.
Qed.

Lemma push1_ordered (h : list T) x :
  heap_ordered h -> heap_ordered (PriorityQueue.push1 cmp h x).
Proof.
  intros Hh. unfold PriorityQueue.push1, PriorityQueue._siftUp, PriorityQueue.size.
  rewrite length_app. cbn [length].
  replace (length h + 1 - 1)%nat with (length h) by lia.
  apply siftUp_loop_ordered; [rewrite length_app; cbn [length]; lia|]. split.
  - intros i Hi Hne a b Ha Hb. pose proof (parent_lt i Hi) as Hpi.
    pose proof (lookup_lt_Some _ _ _ Ha) as Hlen.
    rewrite length_app in Hlen. cbn [length] in Hlen.
    rewrite lookup_app_l in Ha, Hb by lia. eapply Hh; eauto.
  - intros c a b Hk Hc Hpc Ha Hb. pose proof (parent_lt c Hc) as Hpcc.
    apply lookup_lt_Some in Ha. rewrite length_app in Ha. cbn [length] in Ha. lia.
Qed.

Lemma push_ordered (h : list T) values :
  heap_ordered h -> heap_ordered (PriorityQueue.push cmp h values).2.
Proof.
  unfold PriorityQueue.push. cbn [snd]. revert h.
  induction values as [|v values IH]; intros h Hh; [exact Hh|].
  cbn [fold_left]. apply IH. now apply push1_ordered.
Qed.

Lemma pop_ordered (h : list T) :
  heap_ordered h -> heap_ordered (PriorityQueue.pop cmp h).2.
Proof.
  intros Hh. unfold PriorityQueue.pop. cbn [snd].
  apply siftDown_loop_ordered. unfold PriorityQueue.top, PriorityQueue.size.
  split; [|intros; lia].
  intros i Hi Hne a b Ha Hb. pose proof (parent_lt i Hi) as Hpi.
  destruct (Z.ltb_spec (Z.of_nat 0) (Z.of_nat (length h) - 1)) as [Hlt|Hge].
  - replace (Z.to_nat (Z.of_nat (length h) - 1)) with (length h - 1)%nat in * by lia.
    rewrite swap_length in Ha, Hb.
    apply lookup_take_Some in Ha as [Ha Hia]. apply lookup_take_Some in Hb as [Hb Hib].
    apply swap_lookup in Ha as [[-> Ha]|[[-> Ha]|(Hi1 & Hi2 & Ha)]]; try lia.
    apply swap_lookup in Hb as [[Hb1 Hb]|[[Hb1 Hb]|(Hb1 & Hb2 & Hb)]]; try lia.
    eapply Hh; eauto.
  - apply lookup_take_Some in Ha as [Ha Hia]. lia.
Qed.

Lemma root_minimal (h : list T) r :
  heap_ordered h -> h !! 0%nat = Some r ->
  forall i x, h !! i = Some x -> cmp x r = false.
Proof.
  intros Hh Hr i. induction i as [i IH] using lt_wf_ind. intros x Hx.
  destruct (decide (i = 0%nat)) as [->|Hne].
  - assert (x = r) by congruence. subst. apply swo_irrefl.
  - assert (Hi : (0 < i)%nat) by lia. pose proof (parent_lt i Hi) as Hpi.
    destruct (lookup_lt_is_Some_2 h (parent i)) as [y Hy].
    { apply lookup_lt_Some in Hx. lia. }
    eapply cmp_negtrans; [eapply (Hh i Hi); eauto|eapply IH; eauto].
Qed.

(** A use of the queue: any interleaving of [push(...values)] and [pop()],
    starting from [new PriorityQueue(comparator)]. *)
Inductive heap_op : Type :=
| Push (values : list T)
| Pop.

Definition apply_op (h : list T) (o : heap_op) : list T :=
  match o with
  | Push values => (PriorityQueue.push cmp h values).2
  | Pop => (PriorityQueue.pop cmp h).2
  end.

Definition run_ops (ops : list heap_op) : list T := fold_left apply_op ops [].

Lemma run_ops_ordered ops : heap_ordered (run_ops ops).
Proof.
  unfold run_ops. assert (Hnil : heap_ordered []).
  { intros i _ a b Ha. now rewrite lookup_nil in Ha. }
  revert Hnil. generalize (@nil T) as h.
  induction ops as [|o ops IH]; intros h Hh; [exact Hh|].
  cbn [fold_left]. apply IH. destruct o; cbn [apply_op].
  - now apply push_ordered.
  - now apply pop_ordered.
Qed.

End HeapOrder.

#[export] Instance key_lt_StrictWeakOrder {T : Type} (key : T -> Z) :
  StrictWeakOrder (fun a b => key a <? key b).
Proof.
  split.
  - intros a. apply Z.ltb_irrefl.
  - intros a b c Hab Hbc. apply Z.ltb_lt in Hab, Hbc. apply Z.ltb_lt. lia.
  - intros a b c Hab Hba Hbc Hcb. apply Z.ltb_ge in Hab, Hba, Hbc, Hcb.
    apply Z.ltb_ge. lia.
Qed.


(** ** The grid *)

Definition height (maze : MazeData) : nat := length maze.

(** The width of a grid is the length of its first row. *)
Definition width (maze : MazeData) : nat :=
  match maze with
  | row0 :: _ => length row0
  | [] => 0
  end.

(** A grid: at least one row, all rows as long as the first. *)
Definition rectangular (maze : MazeData) : Prop :=
  maze <> [] /\ Forall (fun row => length row = width maze) maze.

Definition inBounds (maze : MazeData) (s : State) : Prop :=
  0 <= s.1 < Z.of_nat (height maze) /\ 0 <= s.2 < Z.of_nat (width maze).

Definition typeAt (maze : MazeData) (s : State) : option MazeCellType :=
  match cellAt maze s with
  | Ok cell => Some (MazeCell.type cell)
  | Throw _ => None
  end.

Definition stateAt (maze : MazeData) (s : State) : option MazeCellState :=
  match cellAt maze s with
  | Ok cell => Some (MazeCell.state cell)
  | Throw _ => None
  end.

(** Every position of the grid, row by row. *)
Definition allStates (maze : MazeData) : list State :=
  i ← upto (Z.of_nat (height maze)); (fun j => (i, j)) <$> upto (Z.of_nat (width maze)).

(** Two grids with the same cell types at the same places. *)
Definition types (maze : MazeData) : list (list MazeCellType) :=
  fmap (M:=list) MazeCell.type <$> maze.

Definition sameTypes (maze maze' : MazeData) : Prop := types maze' = types maze.

Lemma at_index_Some {A} (l : list A) i x :
  at_index l i = Some x <-> 0 <= i /\ l !! Z.to_nat i = Some x.
Proof.
  unfold at_index. destruct (Z.ltb_spec i 0); split; intros; try easy; lia.
Qed.

Lemma cellAt_Ok maze s c :
  cellAt maze s = Ok c <->
  0 <= s.1 /\ 0 <= s.2 /\
  exists row, maze !! Z.to_nat s.1 = Some row /\ row !! Z.to_nat s.2 = Some c.
Proof.
  unfold cellAt. split.
  - destruct (at_index maze s.1) as [row|] eqn:Hr; [|discriminate].
    destruct (at_index row s.2) as [c'|] eqn:Hc; [|discriminate].
    intros [= ->]. apply at_index_Some in Hr as [? ?], Hc as [? ?]. eauto.
  - intros (H1 & H2 & row & Hr & Hc).
    rewrite (proj2 (at_index_Some maze s.1 row)) by auto.
    now rewrite (proj2 (at_index_Some row s.2 c)) by auto.
Qed.

Lemma rectangular_row maze i row :
  rectangular maze -> maze !! i = Some row -> length row = width maze.
Proof.
  intros [_ Hall] Hi. rewrite Forall_lookup in Hall. eauto.
Qed.

Lemma cellAt_inBounds maze s :
  rectangular maze -> inBounds maze s -> exists c, cellAt maze s = Ok c.
Proof.
  intros Hrect [[H1 H2] [H3 H4]]. unfold height in *.
  destruct (lookup_lt_is_Some_2 maze (Z.to_nat s.1)) as [row Hrow]; [lia|].
  pose proof (rectangular_row _ _ _ Hrect Hrow) as Hlen.
  destruct (lookup_lt_is_Some_2 row (Z.to_nat s.2)) as [c Hc]; [lia|].
  exists c. apply cellAt_Ok. eauto.
Qed.

Lemma cellAt_Ok_inBounds maze s c :
  rectangular maze -> cellAt maze s = Ok c -> inBounds maze s.
Proof.
  intros Hrect (H1 & H2 & row & Hrow & Hc)%cellAt_Ok.
  pose proof (rectangular_row _ _ _ Hrect Hrow) as Hlen.
  apply lookup_lt_Some in Hrow, Hc. unfold inBounds, height. lia.
Qed.

Lemma sameTypes_refl maze : sameTypes maze maze.
Proof. reflexivity. Qed.

Lemma sameTypes_trans m1 m2 m3 : sameTypes m1 m2 -> sameTypes m2 m3 -> sameTypes m1 m3.
Proof. unfold sameTypes. congruence. Qed.

Lemma sameTypes_sym m m' : sameTypes m m' -> sameTypes m' m.
Proof. unfold sameTypes. congruence. Qed.

Lemma sameTypes_row m m' i row :
  sameTypes m m' -> m !! i = Some row ->
  exists row', m' !! i = Some row' /\ MazeCell.type <$> row' = MazeCell.type <$> row.
Proof.
  unfold sameTypes, types. intros H Hrow.
  assert (Hl : (fmap (M:=list) MazeCell.type <$> m') !! i = Some (MazeCell.type <$> row)).
  { rewrite H, list_lookup_fmap, Hrow. reflexivity. }
  rewrite list_lookup_fmap in Hl.
  destruct (m' !! i) as [row'|]; [|discriminate]. simpl in Hl.
  injection Hl as Hl. eauto.
Qed.

Lemma sameTypes_height m m' : sameTypes m m' -> height m' = height m.
Proof.
  unfold sameTypes, types, height. intros H.
  apply (f_equal length) in H. now rewrite !length_fmap in H.
Qed.

Lemma sameTypes_width m m' : sameTypes m m' -> width m' = width m.
Proof.
  unfold sameTypes, types. intros H.
  destruct m as [|r m], m' as [|r' m']; try discriminate; [reflexivity|].
  simpl in *. injection H as H _.
  apply (f_equal length) in H. now rewrite !length_fmap in H.
Qed.

Lemma sameTypes_rectangular m m' : sameTypes m m' -> rectangular m -> rectangular m'.
Proof.
  intros H [Hne Hall]. pose proof (sameTypes_width _ _ H) as Hw. split.
  - destruct m, m'; try discriminate; congruence.
  - rewrite Hw. apply Forall_lookup. intros i row' Hrow'.
    destruct (sameTypes_row _ _ _ _ (sameTypes_sym _ _ H) Hrow') as (row & Hrow & Hty).
    apply (f_equal length) in Hty. rewrite !length_fmap in Hty.
    rewrite Forall_lookup in Hall. rewrite <- Hty. eauto.
Qed.

Lemma sameTypes_cellAt m m' s c :
  sameTypes m m' -> cellAt m s = Ok c ->
  exists c', cellAt m' s = Ok c' /\ MazeCell.type c' = MazeCell.type c.
Proof.
  intros H (H1 & H2 & row & Hrow & Hc)%cellAt_Ok.
  destruct (sameTypes_row _ _ _ _ H Hrow) as (row' & Hrow' & Hty).
  assert (Hl : (MazeCell.type <$> row') !! Z.to_nat s.2 = Some (MazeCell.type c)).
  { rewrite Hty, list_lookup_fmap, Hc. reflexivity. }
  rewrite list_lookup_fmap in Hl.
  destruct (row' !! Z.to_nat s.2) as [c'|] eqn:Hc'; [|discriminate].
  simpl in Hl. injection Hl as Hl.
  exists c'. split; [|exact Hl]. apply cellAt_Ok. eauto.
Qed.

Lemma sameTypes_typeAt m m' s : sameTypes m m' -> typeAt m' s = typeAt m s.
Proof.
  intros H. unfold typeAt.
  destruct (cellAt m s) as [c|e] eqn:Hc.
  - destruct (sameTypes_cellAt _ _ _ _ H Hc) as (c' & -> & Ht). now rewrite Ht.
  - destruct (cellAt m' s) as [c'|e'] eqn:Hc'; [|reflexivity].
    destruct (sameTypes_cellAt _ _ _ _ (sameTypes_sym _ _ H) Hc') as (c & Hcc & _).
    congruence.
Qed.

(** Reading a grid after the in-place update of one cell. *)
Lemma updateCell_Ok f maze s :
  (exists c, cellAt maze s = Ok c) <-> exists maze', updateCell f maze s = Ok maze'.
Proof.
  unfold updateCell. destruct (cellAt maze s); simpl; split; intros [? ?]; eauto; discriminate.
Qed.

Lemma cellAt_updateCell f maze s maze' c t :
  updateCell f maze s = Ok maze' -> cellAt maze s = Ok c ->
  cellAt maze' t = if decide (t = s) then Ok (f c) else cellAt maze t.
Proof.
  unfold updateCell. intros Hu Hc. rewrite Hc in Hu. simpl in Hu.
  injection Hu as <-.
  apply cellAt_Ok in Hc as (H1 & H2 & row & Hrow & Hc).
  destruct (decide (t = s)) as [->|Hne].
  - apply cellAt_Ok. split; [lia|]. split; [lia|].
    exists (alter f (Z.to_nat s.2) row). split.
    + now rewrite list_lookup_alter_eq, Hrow.
    + now rewrite list_lookup_alter_eq, Hc.
  - unfold cellAt, at_index.
    destruct (Z.ltb_spec t.1 0); [reflexivity|].
    destruct (decide (Z.to_nat t.1 = Z.to_nat s.1)) as [He|Hd].
    + rewrite He, list_lookup_alter_eq, Hrow. simpl.
      destruct (Z.ltb_spec t.2 0); [reflexivity|].
      rewrite list_lookup_alter_ne; [reflexivity|].
      intros He2. apply Hne. destruct t, s; simpl in *. f_equal; lia.
    + now rewrite list_lookup_alter_ne by congruence.
Qed.

Lemma updateCell_sameTypes f maze s maze' :
  (forall c, MazeCell.type (f c) = MazeCell.type c) ->
  updateCell f maze s = Ok maze' -> sameTypes maze maze'.
Proof.
  unfold updateCell. intros Hf Hu. destruct (cellAt maze s); [|discriminate].
  simpl in Hu. injection Hu as <-.
  unfold sameTypes, types. apply list_eq. intros i.
  rewrite !list_lookup_fmap.
  destruct (decide (i = Z.to_nat s.1)) as [->|Hne].
  - rewrite list_lookup_alter_eq. destruct (maze !! Z.to_nat s.1) as [row|]; [|reflexivity].
    simpl. f_equal. apply list_eq. intros j. rewrite !list_lookup_fmap.
    destruct (decide (j = Z.to_nat s.2)) as [->|Hnj].
    + rewrite list_lookup_alter_eq. destruct (row !! Z.to_nat s.2); [|reflexivity].
      simpl. now rewrite Hf.
    + now rewrite list_lookup_alter_ne by congruence.
  - now rewrite list_lookup_alter_ne by congruence.
Qed.

(** ** Removal from an empty frontier *)

(** C4 (the code departs from it).  [remove()] on a frontier that was just
    created throws ["empty frontier"] for the stack and the queue; for the
    two heap-backed frontiers it throws nothing and returns [undefined]. *)
Theorem remove_on_empty_frontier :
  remove (create : StackFrontier.t) = Throw (Error "empty frontier")
  /\ remove (create : QueueFrontier.t) = Throw (Error "empty frontier")
  /\ remove (create : GreedBestFrontier.t) = Ok (None, create)
  /\ remove (create : AStarFrontier.t) = Ok (None, create).
Proof. repeat split. Qed.

(** ** [reset] *)

(** What [reset] leaves in a cell, by the cell's type. *)
Definition cleared (cell cell' : MazeCell.t) : Prop :=
  MazeCell.type cell' = MazeCell.type cell
  /\ MazeCell.state cell' =
       match MazeCell.type cell with Wall => Unreachable | _ => Unexplored end
  /\ MazeCell.label cell' = Some ""%string.

Lemma resetCell_cleared cell : cleared cell (resetCell cell).
Proof. unfold cleared, resetCell. destruct cell as [[] ? ?]; simpl; auto. Qed.

(** C6.  In whatever state the component is (so also after any number of
    steps of any search), [reset] keeps the shape of the grid and every
    cell's type, sets every cell's state to [Unexplored], or [Unreachable]
    for a wall, and every label to the empty string.  It also zeroes the
    explored count, returns the outcome to [Pending], and doing it twice is
    doing it once. *)
Theorem reset_clears_grid {F : Type} (app : App F) :
  Forall2 (Forall2 cleared) (mazeData (store app)) (mazeData (store (reset app)))
  /\ numExplored (store (reset app)) = 0
  /\ solutionType (store (reset app)) = Pending
  /\ demoRunner (reset app) = None
  /\ reset (reset app) = reset app.
Proof.
  split; [|repeat split].
  - unfold reset. cbn [store mazeData].
    induction (mazeData (store app)) as [|row maze IH]; constructor; [|exact IH].
    induction row as [|cell row IHr]; constructor; [|exact IHr].
    apply resetCell_cleared.
  - unfold reset. cbn [store mazeData]. do 2 f_equal.
    rewrite map_map. apply map_ext. intros row.
    rewrite map_map. apply map_ext. intros [[] ? ?]; reflexivity.
Qed.

(** ** Templates: serialise, then parse *)

Definition cellAscii (cell : MazeCell.t) : ascii :=
  match MazeCell.type cell with
  | Wall => "#"
  | Start => "A"
  | Goal => "B"
  | Space => " "
  end%char.

(** The cell that [buildMaze] makes for a cell type. *)
Definition parsedCell (ty : MazeCellType) : MazeCell.t :=
  MazeCell.mk ty (match ty with Wall => Unreachable | _ => Unexplored end) None.

Definition noLineEnd (line : string) : Prop :=
  Forall (fun c => c <> LF /\ c <> CR) (list_ascii_of_string line).

Lemma rowString_ascii (row : list MazeCell.t) :
  list_ascii_of_string (String.concat "" (map cellChar row)) = map cellAscii row.
Proof.
  induction row as [|cell row IH]; [reflexivity|].
  cbn [map String.concat]. destruct row as [|cell' row].
  - destruct cell as [[] ? ?]; reflexivity.
  - cbn [map] in *. rewrite <- IH.
    destruct cell as [[] ? ?]; reflexivity.
Qed.

Lemma rowString_noLineEnd (row : list MazeCell.t) :
  noLineEnd (String.concat "" (map cellChar row)).
Proof.
  unfold noLineEnd. rewrite rowString_ascii. apply List.Forall_forall.
  intros c (cell & <- & _)%in_map_iff.
  destruct cell as [[] ? ?]; split; discriminate.
Qed.

Lemma splitLines_line line rest :
  noLineEnd line ->
  splitLines (line ++ String LF rest) = line :: splitLines rest.
Proof.
  unfold noLineEnd. induction line as [|c line IH]; intros Hno.
  - reflexivity.
  - cbn [list_ascii_of_string] in Hno. apply Forall_cons in Hno as [[Hlf Hcr] Hno].
    cbn [append splitLines]. rewrite (IH Hno).
    apply Ascii.eqb_neq in Hlf, Hcr. now rewrite Hlf, Hcr.
Qed.

Lemma splitLines_last line : noLineEnd line -> splitLines line = [line].
Proof.
  unfold noLineEnd. induction line as [|c line IH]; intros Hno.
  - reflexivity.
  - cbn [list_ascii_of_string] in Hno. apply Forall_cons in Hno as [[Hlf Hcr] Hno].
    cbn [splitLines]. rewrite (IH Hno).
    apply Ascii.eqb_neq in Hlf, Hcr. now rewrite Hlf, Hcr.
Qed.

Lemma splitLines_concat (lines : list string) :
  lines <> [] -> Forall noLineEnd lines ->
  splitLines (String.concat (String LF EmptyString) lines) = lines.
Proof.
  induction lines as [|line lines IH]; [congruence|]. intros _ Hall.
  apply Forall_cons in Hall as [Hline Hall].
  destruct lines as [|line' lines].
  - now apply splitLines_last.
  - cbn [String.concat]. change (String LF "" ++ ?s)%string with (String LF s).
    rewrite splitLines_line by assumption. f_equal. now apply IH.
Qed.

Lemma parse_row (row : list MazeCell.t) :
  mapM parseChar (map cellAscii row) = Ok (map (fun c => parsedCell (MazeCell.type c)) row).
Proof.
  induction row as [|cell row IH]; [reflexivity|].
  cbn [map mapM]. rewrite IH. destruct cell as [[] ? ?]; reflexivity.
Qed.

Lemma buildMaze_mazeToTemplate (maze : MazeData) :
  maze <> [] ->
  buildMaze (mazeToTemplate maze)
  = Ok (map (map (fun c => parsedCell (MazeCell.type c))) maze).
Proof.
  intros Hne. unfold buildMaze, mazeToTemplate.
  rewrite splitLines_concat.
  - clear Hne. induction maze as [|row maze IH]; [reflexivity|].
    cbn [map mapM]. rewrite rowString_ascii, parse_row. cbn [bind].
    now rewrite IH.
  - now destruct maze.
  - apply List.Forall_forall. intros line (row & <- & _)%in_map_iff.
    apply rowString_noLineEnd.
Qed.

(** C7.  For a grid with at least one row, parsing its template gives a
    grid with the same number of rows, the same row lengths and the same
    cell type at every place.  The state and label of the parsed cells are
    those of a fresh cell of that type, whatever the original carried. *)
Theorem template_round_trip (maze : MazeData) :
  maze <> [] ->
  exists maze',
    buildMaze (mazeToTemplate maze) = Ok maze'
    /\ length maze' = length maze
    /\ Forall2 (Forall2 (fun c c' =>
         MazeCell.type c' = MazeCell.type c
         /\ MazeCell.state c' =
              match MazeCell.type c with Wall => Unreachable | _ => Unexplored end
         /\ MazeCell.label c' = None)) maze maze'.
Proof.
  intros Hne. eexists. split; [now apply buildMaze_mazeToTemplate|].
  split; [now rewrite length_map|].
  clear Hne. induction maze as [|row maze IH]; constructor; [|exact IH].
  induction row as [|cell row IHr]; constructor; [|exact IHr].
  repeat split.
Qed.

Definition sample_grid : MazeData :=
  [ [MazeCell.mk Start SolutionPath (Some "0"%string); MazeCell.mk Wall Unreachable None];
    [MazeCell.mk Space Explored (Some "1"%string); MazeCell.mk Goal Frontier None] ].

Lemma template_round_trip_witness :
  sample_grid <> [] /\
  exists maze',
    buildMaze (mazeToTemplate sample_grid) = Ok maze'
    /\ length maze' = length sample_grid
    /\ Forall2 (Forall2 (fun c c' =>
         MazeCell.type c' = MazeCell.type c
         /\ MazeCell.state c' =
              match MazeCell.type c with Wall => Unreachable | _ => Unexplored end
         /\ MazeCell.label c' = None)) sample_grid maze'.
Proof.
  assert (Hne : sample_grid <> []) by discriminate.
  split; [exact Hne|]. exact (template_round_trip sample_grid Hne).
Defined.

(** ** [neighbors] *)

(** The neighbours as the specification words them: of the four candidates
    in the order up, down, left, right, those inside the grid whose cell is
    not a wall. *)
Definition neighbors_spec (maze : MazeData) (s : State) : list (Action * State) :=
  filter (fun c : Action * State => inBounds maze c.2 /\ typeAt maze c.2 <> Some Wall)
         [ (Up, (s.1 - 1, s.2)); (Down, (s.1 + 1, s.2));
           (Left, (s.1, s.2 - 1)); (Right, (s.1, s.2 + 1)) ].

(** A [Maze] object built over a grid of this shape. *)
Definition dimsOf (this : Maze) (maze : MazeData) : Prop :=
  _height this = Z.of_nat (height maze) /\ _width this = Z.of_nat (width maze).

Lemma neighbors_filter (this : Maze) (maze : MazeData) (l : list (Action * State)) :
  rectangular maze -> dimsOf this maze ->
  filterM (fun candidate : Action * State =>
             let '(_, (row, col)) := candidate in
             if (row <? 0) || (row >=? _height this) then Ok false
             else if (col <? 0) || (col >=? _width this) then Ok false
             else let* cell := cellAt maze (row, col) in
                  Ok (negb (bool_decide (MazeCell.type cell = Wall)))) l
  = Ok (filter (fun c : Action * State =>
                  inBounds maze c.2 /\ typeAt maze c.2 <> Some Wall) l).
Proof.
  intros Hrect [Hh Hw]. induction l as [|[a [row col]] l IH]; [reflexivity|].
  cbn [filterM]. rewrite IH. clear IH. rewrite filter_cons. cbn [snd].
  destruct (decide (inBounds maze (row, col))) as [Hin|Hout].
  - destruct (cellAt_inBounds _ _ Hrect Hin) as [c Hc].
    destruct Hin as [[H1 H2] [H3 H4]]. cbn [fst snd] in *.
    rewrite Hh, Hw.
    destruct (Z.ltb_spec row 0); [lia|]. destruct (Z.geb_spec row (Z.of_nat (height maze))); [lia|].
    destruct (Z.ltb_spec col 0); [lia|]. destruct (Z.geb_spec col (Z.of_nat (width maze))); [lia|].
    cbn [orb bind]. rewrite Hc. cbn [bind]. unfold typeAt. rewrite Hc.
    destruct (decide (MazeCell.type c = Wall)) as [Hwall|Hwall].
    + rewrite bool_decide_eq_true_2 by assumption. cbn [negb].
      rewrite decide_False; [reflexivity|]. intros [_ Hn]. apply Hn. now rewrite Hwall.
    + rewrite bool_decide_eq_false_2 by assumption. cbn [negb].
      rewrite decide_True; [reflexivity|].
      split; [unfold inBounds; cbn [fst snd]; lia|congruence].
  - rewrite decide_False by tauto.
    unfold inBounds in Hout. cbn [fst snd] in Hout. rewrite Hh, Hw.
    destruct (Z.ltb_spec row 0); [reflexivity|].
    destruct (Z.geb_spec row (Z.of_nat (height maze))); [reflexivity|].
    destruct (Z.ltb_spec col 0); [reflexivity|].
    destruct (Z.geb_spec col (Z.of_nat (width maze))); [reflexivity|]. lia.
Qed.

Lemma neighbors_eq_spec (this : Maze) (maze : MazeData) (s : State) :
  rectangular maze -> dimsOf this maze ->
  neighbors this maze s = Ok (neighbors_spec maze s).
Proof.
  intros Hrect Hdims. unfold neighbors, neighbors_spec, candidates.
  destruct s as [row col]. now apply neighbors_filter.
Qed.

(** C5.  On a rectangular grid, for the [Maze] object built over it and
    every state inside it, [neighbors] returns the candidates up, down,
    left, right, in this order, keeping exactly those inside the grid whose
    cell is not a wall. *)
Theorem neighbors_correct (this : Maze) (maze : MazeData) (s : State) :
  rectangular maze -> dimsOf this maze -> inBounds maze s ->
  neighbors this maze s = Ok (neighbors_spec maze s)
  /\ (forall a t, (a, t) ∈ neighbors_spec maze s <->
        (a, t) ∈ [ (Up, (s.1 - 1, s.2)); (Down, (s.1 + 1, s.2));
                   (Left, (s.1, s.2 - 1)); (Right, (s.1, s.2 + 1)) ]
        /\ inBounds maze t /\ typeAt maze t <> Some Wall)
  /\ neighbors_spec maze s `sublist_of`
       [ (Up, (s.1 - 1, s.2)); (Down, (s.1 + 1, s.2));
         (Left, (s.1, s.2 - 1)); (Right, (s.1, s.2 + 1)) ].
Proof.
  intros Hrect Hdims _. split; [now apply neighbors_eq_spec|]. split.
  - intros a t. unfold neighbors_spec. rewrite list_elem_of_filter. cbn [snd]. tauto.
  - apply sublist_filter.
Qed.

Lemma sample_grid_rectangular : rectangular sample_grid.
Proof. split; [discriminate|]. repeat constructor. Qed.

Lemma neighbors_correct_witness :
  neighbors (mkMaze (0, 0) (1, 1) 2 2) sample_grid (0, 0)
  = Ok (neighbors_spec sample_grid (0, 0)).
Proof.
  refine (proj1 (neighbors_correct (mkMaze (0, 0) (1, 1) 2 2) sample_grid (0, 0) _ _ _)).
  - split; [discriminate|]. repeat constructor.
  - split; reflexivity.
  - unfold inBounds. simpl. lia.
Defined.

(** ** The step closure after a terminal outcome *)

(** The grid of the template with rows ["AB"] and ["  "], searched breadth
    first for three steps: the goal has been found and one node is left in
    the frontier. *)
Definition found_2x2 : result (App QueueFrontier.t) :=
  let* maze := buildMaze ("AB" ++ String LF "  ") in
  let* app := doStart (mkApp (mkStore maze 0 Pending) Ready false None) in
  ticks 3 app.

Lemma demoRunner_call_terminal {F : Type} `{IFrontier F} (app : App F) :
  solutionType (store app) <> Continue ->
  exists app',
    demoRunner_call app = Ok app'
    /\ store app' = store app /\ demoRunner app' = demoRunner app.
Proof.
  intros Hterm. unfold demoRunner_call.
  destruct (demoRunner app) as [c|] eqn:Hc; [|now exists app].
  rewrite bool_decide_eq_false_2 by assumption. cbn [bind].
  rewrite bool_decide_eq_true_2 by assumption.
  eexists. repeat split.
Qed.

Lemma ticks_terminal {F : Type} `{IFrontier F} (n : nat) (app : App F) :
  solutionType (store app) <> Continue ->
  exists app',
    ticks n app = Ok app'
    /\ store app' = store app /\ demoRunner app' = demoRunner app.
Proof.
  revert app. induction n as [|n IH]; intros app Hterm; [now exists app|].
  cbn [ticks]. destruct (interval app); [|now exists app].
  destruct (demoRunner_call_terminal app Hterm) as (app1 & -> & Hst & Hdr).
  cbn [bind]. destruct (IH app1) as (app' & Hticks & Hst' & Hdr').
  { now rewrite Hst. }
  exists app'. repeat split; congruence.
Qed.

(** C10.  [next] itself does not look at the outcome.  In the example, after
    the outcome has become [FoundSolution] with a non-empty frontier, one
    more call of [next] removes a node, counts it as explored and turns the
    goal cell from [SolutionPath] back into [Frontier], leaving the outcome
    at [FoundSolution].  [demoRunner], for every frontier class and state
    of the component, calls [next] only under outcome [Continue]: under any
    other outcome it leaves the store and the closure as they are, however
    often the timer fires. *)
Theorem next_has_no_terminal_guard :
  (exists (app : App QueueFrontier.t) c c' st',
      found_2x2 = Ok app
      /\ solutionType (store app) = FoundSolution
      /\ demoRunner app = Some c
      /\ empty (frontier c) = false
      /\ next c (store app) = Ok (c', st')
      /\ numExplored st' = numExplored (store app) + 1
      /\ stateAt (mazeData (store app)) (0, 1) = Some SolutionPath
      /\ stateAt (mazeData st') (0, 1) = Some Frontier
      /\ solutionType st' = FoundSolution)
  /\ (forall (F : Type) (I : IFrontier F) (app : App F) (n : nat),
        solutionType (store app) <> Continue ->
        exists app',
          ticks n app = Ok app'
          /\ store app' = store app /\ demoRunner app' = demoRunner app).
Proof.
  split.
  - vm_compute. do 4 eexists. repeat split.
  - intros F I app n Hterm. now apply ticks_terminal.
Qed.

Lemma next_has_no_terminal_guard_witness :
  exists app',
    ticks 5 (mkApp (mkStore sample_grid 7 NoSolution) Done true
                   (Some (mkClosure (mkMaze (0, 0) (1, 1) 2 2) (create : StackFrontier.t))))
    = Ok app'
    /\ store app' = mkStore sample_grid 7 NoSolution
    /\ demoRunner app' =
       Some (mkClosure (mkMaze (0, 0) (1, 1) 2 2) (create : StackFrontier.t)).
Proof.
  refine (proj2 next_has_no_terminal_guard StackFrontier.t _
            (mkApp (mkStore sample_grid 7 NoSolution) Done true
                   (Some (mkClosure (mkMaze (0, 0) (1, 1) 2 2) create))) 5%nat _).
  simpl. discriminate.
Defined.

(** ** What the four frontiers have in common *)

Lemma State_equals_eq (a b : State) : State_equals a b = true <-> a = b.
Proof.
  unfold State_equals. destruct a as [a1 a2], b as [b1 b2]. cbn [fst snd].
  rewrite andb_true_iff, !Z.eqb_eq. split; [intros [-> ->]|intros [= -> ->]]; auto.
Qed.

Lemma found_find (s : State) (l : list Node) :
  found (List.find (fun x => State_equals (state x) s) l) = true
  <-> s ∈ state <$> l.
Proof.
  induction l as [|n l IH]; cbn [List.find fmap list_fmap].
  - split; [discriminate|]. intros H. inversion H.
  - destruct (State_equals (state n) s) eqn:He.
    + apply State_equals_eq in He as <-. split; [intros _; constructor|reflexivity].
    + rewrite IH. split; [now constructor|].
      intros H. inversion H as [|? ? ? H']; subst; [|exact H'].
      assert (State_equals (state n) (state n) = true) by now apply State_equals_eq.
      congruence.
Qed.

(** The laws a frontier obeys, in terms of the nodes it holds. *)
Class FrontierLaws (F : Type) `{IFrontier F} : Type := {
  nodes : F -> list Node;
  nodes_create : nodes create = [];
  nodes_add : forall n f, nodes (add n f) ≡ₚ n :: nodes f;
  empty_nodes : forall f, empty f = true <-> nodes f = [];
  containers_state_nodes : forall s f,
    containers_state s f = true <-> s ∈ state <$> nodes f;
  remove_nodes : forall f, nodes f <> [] ->
    exists n f', remove f = Ok (Some n, f') /\ nodes f ≡ₚ n :: nodes f'
}.

Lemma length_zero_nil {A} (l : list A) : Nat.eqb (length l) 0 = true <-> l = [].
Proof. destruct l; simpl; split; congruence. Qed.

Lemma last_removelast {A} (l : list A) :
  l <> [] -> exists x, last l = Some x /\ l = removelast l ++ [x].
Proof.
  induction l as [|a l IH]; [congruence|]. intros _.
  destruct l as [|b l]; [now exists a|].
  destruct IH as (x & Hl & Heq); [discriminate|].
  exists x. split; [exact Hl|].
  change (removelast (a :: b :: l)) with (a :: removelast (b :: l)).
  cbn [app]. now rewrite <- Heq.
Qed.

#[export, refine] Instance StackFrontier_laws : FrontierLaws StackFrontier.t :=
  {| nodes := StackFrontier._frontier |}.
Proof.
  - reflexivity.
  - intros n f. cbn. now rewrite Permutation_app_comm.
  - intros f. apply length_zero_nil.
  - intros s f. apply found_find.
  - intros [l] Hne. cbn in *. unfold StackFrontier.remove, StackFrontier.empty. cbn.
    destruct (last_removelast l Hne) as (x & Hlast & Heq).
    destruct (Nat.eqb (length l) 0) eqn:He; [apply length_zero_nil in He; congruence|].
    exists x, (StackFrontier.mk (removelast l)). rewrite Hlast. split; [reflexivity|].
    cbn. rewrite Heq at 1. now rewrite Permutation_app_comm.
Defined.

#[export, refine] Instance QueueFrontier_laws : FrontierLaws QueueFrontier.t :=
  {| nodes := QueueFrontier._frontier |}.
Proof.
  - reflexivity.
  - intros n f. cbn. now rewrite Permutation_app_comm.
  - intros f. apply length_zero_nil.
  - intros s f. apply found_find.
  - intros [[|x l]] Hne; [cbn in Hne; congruence|].
    exists x, (QueueFrontier.mk l). split; reflexivity.
Defined.

#[export, refine] Instance GreedBestFrontier_laws : FrontierLaws GreedBestFrontier.t :=
  {| nodes := GreedBestFrontier._frontier |}.
Proof.
  - reflexivity.
  - intros n f. cbn. apply push1_perm.
  - intros f. apply length_zero_nil.
  - intros s f. apply found_find.
  - intros [[|x l]] Hne; [cbn in Hne; congruence|]. cbn in *.
    destruct (pop_perm GreedBestFrontier._comparator (x :: l) x l eq_refl)
      as (h' & Hpop & Hperm).
    exists x, (GreedBestFrontier.mk h'). split; [|now symmetry].
    change (GreedBestFrontier.remove (GreedBestFrontier.mk (x :: l)) = Ok (Some x, GreedBestFrontier.mk h')).
    unfold GreedBestFrontier.remove. cbn [GreedBestFrontier._frontier]. now rewrite Hpop.
Defined.

#[export, refine] Instance AStarFrontier_laws : FrontierLaws AStarFrontier.t :=
  {| nodes := AStarFrontier._frontier |}.
Proof.
  - reflexivity.
  - intros n f. cbn. apply push1_perm.
  - intros f. apply length_zero_nil.
  - intros s f. apply found_find.
  - intros [[|x l]] Hne; [cbn in Hne; congruence|]. cbn in *.
    destruct (pop_perm AStarFrontier._comparator (x :: l) x l eq_refl)
      as (h' & Hpop & Hperm).
    exists x, (AStarFrontier.mk h'). split; [|now symmetry].
    change (AStarFrontier.remove (AStarFrontier.mk (x :: l)) = Ok (Some x, AStarFrontier.mk h')).
    unfold AStarFrontier.remove. cbn [AStarFrontier._frontier]. now rewrite Hpop.
Defined.

(** ** Paths in the grid and parent chains *)

(** A cell one may step on: inside the grid and not a wall. *)
Definition passable (maze : MazeData) (s : State) : Prop :=
  inBounds maze s /\ typeAt maze s <> Some Wall.

(** One move up, down, left or right. *)
Definition adjacent (s t : State) : Prop := calcManhattanDistance s t = 1.

(** A walk over passable cells, each one move from the previous. *)
Fixpoint isPath (maze : MazeData) (p : list State) : Prop :=
  match p with
  | [] => True
  | s :: p' =>
      passable maze s
      /\ match p' with t :: _ => adjacent s t | [] => True end
      /\ isPath maze p'
  end.

Definition connects (maze : MazeData) (a b : State) (p : list State) : Prop :=
  isPath maze p /\ head p = Some a /\ last p = Some b.

(** The number of edges of a walk. *)
Definition edges (p : list State) : Z := Z.of_nat (length p) - 1.

(** The states met walking from a node up its parent links, the node's own
    state first, the root's last. *)
Fixpoint chain (n : Node) : list State :=
  match n with
  | mkNode s p _ _ _ => s :: match p with Some q => chain q | None => [] end
  end.

Definition explored (maze : MazeData) (s : State) : Prop :=
  stateAt maze s = Some Explored.

Lemma adjacent_sym s t : adjacent s t -> adjacent t s.
Proof. unfold adjacent, calcManhattanDistance. lia. Qed.

Lemma isPath_app maze p q :
  isPath maze (p ++ q) <->
  isPath maze p /\ isPath maze q
  /\ match last p, head q with Some s, Some t => adjacent s t | _, _ => True end.
Proof.
  induction p as [|s p IH]; cbn [app isPath last].
  - destruct q; cbn; tauto.
  - destruct p as [|s' p].
    + cbn [app isPath last head]. destruct q as [|t q]; cbn [isPath head]; tauto.
    + cbn [app] in *. rewrite IH. cbn [isPath last]. tauto.
Qed.

Lemma isPath_rev maze p : isPath maze p -> isPath maze (rev p).
Proof.
  induction p as [|s p IH]; [easy|]. cbn [isPath rev]. intros (Hs & Hadj & Hp).
  apply isPath_app. split; [now apply IH|]. split; [cbn; tauto|].
  destruct p as [|t p]; [easy|]. cbn [rev]. rewrite last_snoc. cbn.
  now apply adjacent_sym.
Qed.

Lemma chain_head n : head (chain n) = Some (state n).
Proof. now destruct n. Qed.

Lemma upto_elem (n i : Z) : i ∈ upto n <-> 0 <= i < n.
Proof.
  unfold upto. rewrite list_elem_of_In, in_map_iff. split.
  - intros (k & <- & Hk). apply in_seq in Hk. lia.
  - intros Hi. exists (Z.to_nat i). split; [lia|]. apply in_seq. lia.
Qed.

Lemma upto_NoDup (n : Z) : NoDup (upto n).
Proof.
  unfold upto. apply (NoDup_fmap_2 Z.of_nat). apply NoDup_seq.
Qed.

Lemma allStates_elem maze s : s ∈ allStates maze <-> inBounds maze s.
Proof.
  unfold allStates, inBounds. rewrite list_elem_of_bind. split.
  - intros (i & Hs & Hi). apply list_elem_of_fmap in Hs as (j & -> & Hj).
    apply upto_elem in Hi, Hj. cbn. lia.
  - intros [H1 H2]. exists s.1. split; [|now apply upto_elem].
    apply list_elem_of_fmap. exists s.2. split; [now destruct s|now apply upto_elem].
Qed.

Lemma allStates_NoDup maze : NoDup (allStates maze).
Proof.
  unfold allStates. apply NoDup_bind.
  - intros i j s _ _ Hi Hj.
    apply list_elem_of_fmap in Hi as (a & -> & _), Hj as (b & [= -> _] & _). reflexivity.
  - intros i _. apply (NoDup_fmap_2 _). apply upto_NoDup.
  - apply upto_NoDup.
Qed.

Lemma bind_length_const {A B} (f : A -> list B) (l : list A) (k : nat) :
  (forall x, length (f x) = k) -> length (l ≫= f) = (length l * k)%nat.
Proof.
  intros Hf. induction l as [|x l IH]; [reflexivity|].
  rewrite bind_cons, length_app, IH, Hf. cbn [length]. lia.
Qed.

Lemma upto_length (n : nat) : length (upto (Z.of_nat n)) = n.
Proof. unfold upto. now rewrite length_map, length_seq, Nat2Z.id. Qed.

Lemma allStates_length maze :
  length (allStates maze) = (height maze * width maze)%nat.
Proof.
  unfold allStates. rewrite (bind_length_const _ _ (width maze)).
  - now rewrite upto_length.
  - intros i. now rewrite length_fmap, upto_length.
Qed.

(** *** Reading cell states *)

Lemma getCellState_stateAt maze s :
  getCellState maze s = match stateAt maze s with
                        | Some cs => Ok cs
                        | None => Throw TypeError
                        end.
Proof.
  unfold getCellState, stateAt, cellAt.
  destruct (at_index maze s.1) as [row|]; [|reflexivity].
  now destruct (at_index row s.2).
Qed.

Lemma stateAt_is_Some maze s : is_Some (stateAt maze s) <-> exists c, cellAt maze s = Ok c.
Proof.
  unfold stateAt. destruct (cellAt maze s) as [c|e].
  - split; eauto.
  - split; [intros [? [=]]|intros [? [=]]].
Qed.

Lemma cellAt_Throw maze s e : cellAt maze s = Throw e -> e = TypeError.
Proof.
  unfold cellAt. destruct (at_index maze s.1) as [row|]; [|congruence].
  destruct (at_index row s.2); congruence.
Qed.

Lemma setCellState_stateAt maze s v maze' t :
  setCellState maze s v = Ok maze' ->
  stateAt maze' t = if decide (t = s) then Some v else stateAt maze t.
Proof.
  intros Hu. unfold setCellState in Hu.
  destruct (cellAt maze s) as [c|e] eqn:Hc.
  - unfold stateAt. rewrite (cellAt_updateCell _ _ _ _ _ t Hu Hc).
    now destruct (decide (t = s)).
  - unfold updateCell in Hu. now rewrite Hc in Hu.
Qed.

Lemma setCellLabel_stateAt maze s l maze' t :
  setCellLabel maze s l = Ok maze' -> stateAt maze' t = stateAt maze t.
Proof.
  intros Hu. unfold setCellLabel in Hu.
  destruct (cellAt maze s) as [c|e] eqn:Hc.
  - unfold stateAt. rewrite (cellAt_updateCell _ _ _ _ _ t Hu Hc).
    destruct (decide (t = s)) as [->|]; [now rewrite Hc|reflexivity].
  - unfold updateCell in Hu. now rewrite Hc in Hu.
Qed.

Lemma setCellState_sameTypes maze s v maze' :
  setCellState maze s v = Ok maze' -> sameTypes maze maze'.
Proof. apply updateCell_sameTypes. reflexivity. Qed.

Lemma setCellLabel_sameTypes maze s l maze' :
  setCellLabel maze s l = Ok maze' -> sameTypes maze maze'.
Proof. apply updateCell_sameTypes. reflexivity. Qed.

Lemma setCellState_Ok maze s v :
  is_Some (stateAt maze s) -> exists maze', setCellState maze s v = Ok maze'.
Proof. intros Hs. apply updateCell_Ok. now apply stateAt_is_Some. Qed.

Lemma setCellLabel_Ok maze s l :
  is_Some (stateAt maze s) -> exists maze', setCellLabel maze s l = Ok maze'.
Proof. intros Hs. apply updateCell_Ok. now apply stateAt_is_Some. Qed.

Lemma stateAt_inBounds maze s :
  rectangular maze -> inBounds maze s <-> is_Some (stateAt maze s).
Proof.
  intros Hrect. rewrite stateAt_is_Some. split.
  - now apply cellAt_inBounds.
  - intros [c Hc]. eapply cellAt_Ok_inBounds; eauto.
Qed.

Lemma sameTypes_inBounds m m' s : sameTypes m m' -> inBounds m' s <-> inBounds m s.
Proof.
  intros H. unfold inBounds.
  now rewrite (sameTypes_height _ _ H), (sameTypes_width _ _ H).
Qed.

(** *** The neighbours of a state *)

Lemma neighbors_spec_elem maze s a t :
  (a, t) ∈ neighbors_spec maze s -> passable maze t /\ adjacent s t.
Proof.
  unfold neighbors_spec. rewrite list_elem_of_filter. cbn [snd].
  intros [Hp Hin]. split; [exact Hp|].
  unfold adjacent, calcManhattanDistance.
  repeat (apply elem_of_cons in Hin as [[= -> ->]|Hin]; [cbn; lia|]).
  inversion Hin.
Qed.

Lemma neighbors_spec_complete maze s t :
  passable maze t -> adjacent s t -> exists a, (a, t) ∈ neighbors_spec maze s.
Proof.
  intros Hp Hadj. unfold adjacent, calcManhattanDistance in Hadj.
  destruct s as [r c], t as [r' c']. cbn [fst snd] in Hadj.
  assert (Hcases : (r' = r - 1 /\ c' = c) \/ (r' = r + 1 /\ c' = c)
                   \/ (r' = r /\ c' = c - 1) \/ (r' = r /\ c' = c + 1)) by lia.
  unfold neighbors_spec. cbn [fst snd].
  destruct Hcases as [[-> ->]|[[-> ->]|[[-> ->]|[-> ->]]]];
    [exists Up|exists Down|exists Left|exists Right];
    (apply list_elem_of_filter; split; [exact Hp|]);
    repeat first [apply list_elem_of_here | apply list_elem_of_further].
Qed.

Lemma neighbors_spec_NoDup maze s : NoDup (snd <$> neighbors_spec maze s).
Proof.
  unfold neighbors_spec.
  eapply sublist_NoDup; [|apply (fmap_sublist snd), sublist_filter].
  destruct s as [r c]. cbn [fmap list_fmap fst snd].
  repeat (apply NoDup_cons; split;
          [rewrite ?elem_of_cons, elem_of_nil; intros H;
           repeat (destruct H as [H|H]; [injection H; lia|]); exact H|]).
  apply NoDup_nil_2.
Qed.

(** ** One call of [next] *)

Lemma filter_ext_in {A} (P Q : A -> Prop) `{!forall x, Decision (P x)}
      `{!forall x, Decision (Q x)} (l : list A) :
  (forall x, x ∈ l -> P x <-> Q x) -> filter P l = filter Q l.
Proof.
  induction l as [|x l IH]; intros Hext; [reflexivity|].
  rewrite !filter_cons.
  rewrite IH by (intros y Hy; apply Hext; now constructor).
  destruct (decide (P x)) as [HP|HP], (decide (Q x)) as [HQ|HQ]; try reflexivity;
    exfalso; apply (Hext x (list_elem_of_here _ _)) in HP || apply (Hext x (list_elem_of_here _ _)) in HQ;
    contradiction.
Qed.

Lemma Node_parent_ind (P : Node -> Prop) :
  (forall s a h g, P (mkNode s None a h g)) ->
  (forall s q a h g, P q -> P (mkNode s (Some q) a h g)) ->
  forall n, P n.
Proof.
  intros Hroot Hchild. fix IH 1. intros [s [q|] a h g].
  - apply Hchild, IH.
  - apply Hroot.
Qed.

Lemma chain_state_elem n : state n ∈ chain n.
Proof. destruct n. cbn. constructor. Qed.

Lemma markPath_spec node maze :
  (forall s, s ∈ chain node -> is_Some (stateAt maze s)) ->
  exists maze',
    markPath node maze = Ok maze'
    /\ sameTypes maze maze'
    /\ forall s, stateAt maze' s =
         if decide (s ∈ chain node) then Some SolutionPath else stateAt maze s.
Proof.
  revert maze. induction node as [s a h g|s q a h g IH] using Node_parent_ind;
    intros maze Hin; cbn [markPath chain] in *.
  - destruct (setCellState_Ok maze s SolutionPath) as [maze' Hm]; [apply Hin; constructor|].
    rewrite Hm. cbn [bind]. exists maze'. split; [reflexivity|].
    split; [eapply setCellState_sameTypes; eauto|].
    intros t. rewrite (setCellState_stateAt _ _ _ _ t Hm).
    destruct (decide (t = s)) as [->|Hne].
    + rewrite decide_True; [reflexivity|constructor].
    + rewrite decide_False; [reflexivity|]. rewrite elem_of_cons, elem_of_nil. tauto.
  - destruct (setCellState_Ok maze s SolutionPath) as [maze1 Hm]; [apply Hin; constructor|].
    rewrite Hm. cbn [bind].
    destruct (IH maze1) as (maze' & Hmark & Hty & Hst).
    { intros t Ht. rewrite (setCellState_stateAt _ _ _ _ t Hm).
      destruct (decide (t = s)); [eauto|]. apply Hin. now constructor. }
    exists maze'. split; [exact Hmark|].
    split; [eapply sameTypes_trans; [eapply setCellState_sameTypes; eauto|exact Hty]|].
    intros t. rewrite Hst, (setCellState_stateAt _ _ _ _ t Hm).
    destruct (decide (t ∈ chain q)) as [Hq|Hq].
    + rewrite decide_True; [reflexivity|now constructor].
    + destruct (decide (t = s)) as [->|Hne].
      * rewrite decide_True; [reflexivity|constructor].
      * rewrite decide_False; [reflexivity|]. rewrite elem_of_cons. tauto.
Qed.

Lemma filter_length_remove {A} (P Q : A -> Prop) `{!forall x, Decision (P x)}
      `{!forall x, Decision (Q x)} (l : list A) (x : A) :
  NoDup l -> x ∈ l -> P x -> (forall y, Q y <-> P y /\ y <> x) ->
  (length (filter Q l) + 1 = length (filter P l))%nat.
Proof.
  intros Hnd Hx HP HQ. induction l as [|y l IH]; [inversion Hx|].
  apply NoDup_cons in Hnd as [Hy Hnd]. rewrite !filter_cons.
  apply elem_of_cons in Hx as [<-|Hx].
  - rewrite (decide_True (P:=P x)) by assumption.
    rewrite (decide_False (P:=Q x)) by (rewrite HQ; tauto).
    cbn [length]. rewrite Nat.add_1_r. f_equal. f_equal.
    apply filter_ext_in. intros z Hz. rewrite HQ.
    split; [tauto|]. intros HPz. split; [exact HPz|]. intros ->. contradiction.
  - specialize (IH Hnd Hx).
    assert (Hyx : y <> x) by (intros ->; contradiction).
    destruct (decide (P y)) as [HPy|HPy].
    + rewrite (decide_True (P:=Q y)) by (rewrite HQ; tauto). cbn [length]. lia.
    + rewrite (decide_False (P:=Q y)) by (rewrite HQ; tauto). exact IH.
Qed.

Section Search.
Context {F : Type} `{FrontierLaws F}.

(** The grid the search was started on, and the [Maze] object built on it. *)
Variable maze0 : MazeData.
Variable this0 : Maze.
Hypothesis Hrect : rectangular maze0.
Hypothesis Hdims : dimsOf this0 maze0.
Hypothesis Hstart : passable maze0 (_start this0).

(** The child node that the loop body creates for a neighbour. *)
Definition mkChild (node : Node) (c : Action * State) : Node :=
  mkNode c.2 (Some node) (Some c.1)
         (calcManhattanDistance c.2 (_goal this0)) (pathCost node + 1).

(** A neighbour gets a child node when it is neither pending in the
    frontier nor marked explored. *)
Definition unseen (fr : F) (maze : MazeData) (c : Action * State) : Prop :=
  (c.2 ∉ (state <$> nodes fr)) /\ (stateAt maze c.2 <> Some Explored).

Definition addAll (node : Node) (cs : list (Action * State)) (fr : F) : F :=
  fold_left (fun f c => add (mkChild node c) f) cs fr.

Lemma nodes_addAll node cs fr :
  nodes (addAll node cs fr) ≡ₚ (mkChild node <$> cs) ++ nodes fr.
Proof.
  unfold addAll. revert fr. induction cs as [|c cs IH]; intros fr; [reflexivity|].
  cbn [fold_left fmap list_fmap]. rewrite IH, nodes_add.
  change (list_fmap _ _ (mkChild node) cs) with (mkChild node <$> cs).
  now rewrite <- Permutation_middle.
Qed.

Lemma expand_loop node ns fr maze :
  NoDup (snd <$> ns) ->
  (forall c, c ∈ ns -> is_Some (stateAt maze c.2)) ->
  exists maze',
    foldM (expand (_goal this0) node) ns (fr, maze)
    = Ok (addAll node (filter (unseen fr maze) ns) fr, maze')
    /\ sameTypes maze maze'
    /\ forall s, stateAt maze' s =
         if decide (s ∈ snd <$> filter (unseen fr maze) ns)
         then Some Frontier else stateAt maze s.
Proof.
  revert fr maze. induction ns as [|[a t] ns IH]; intros fr maze Hnd Hin.
  - exists maze. split; [reflexivity|]. split; [apply sameTypes_refl|].
    intros s. cbn. rewrite decide_False; [reflexivity|]. apply not_elem_of_nil.
  - cbn [fmap list_fmap snd] in Hnd. apply NoDup_cons in Hnd as [Hnt Hnd].
    change (list_fmap _ _ snd ns) with (snd <$> ns) in *.
    assert (Hin' : forall c, c ∈ ns -> is_Some (stateAt maze c.2)).
    { intros c Hc. apply Hin. now constructor. }
    destruct (Hin (a, t) (list_elem_of_here _ _)) as [cs Hcs]. cbn [snd] in Hcs.
    cbn [foldM]. unfold expand at 1.
    destruct (containers_state t fr) eqn:Hc.
    { apply containers_state_nodes in Hc. cbn [bind].
      rewrite filter_cons_False by (intros [Hn _]; now apply Hn).
      now apply IH. }
    assert (Hnc : t ∉ state <$> nodes fr).
    { intros Hc'. apply containers_state_nodes in Hc'. congruence. }
    rewrite getCellState_stateAt, Hcs. cbn [bind].
    destruct (decide (cs = Explored)) as [->|Hne].
    { rewrite bool_decide_eq_true_2 by reflexivity. cbn [bind].
      rewrite filter_cons_False by (intros [_ Hn]; now apply Hn).
      now apply IH. }
    rewrite bool_decide_eq_false_2 by assumption.
    cbn [state].
    set (child := mkNode t (Some node) (Some a) _ _).
    destruct (setCellLabel_Ok maze t (getLabel (add child fr) child)) as [maze1 Hm1]; [eauto|].
    rewrite Hm1. cbn [bind].
    destruct (setCellState_Ok maze1 t Frontier) as [maze2 Hm2].
    { rewrite (setCellLabel_stateAt _ _ _ _ t Hm1). eauto. }
    rewrite Hm2. cbn [bind].
    assert (Hst2 : forall s, stateAt maze2 s =
                     if decide (s = t) then Some Frontier else stateAt maze s).
    { intros s. rewrite (setCellState_stateAt _ _ _ _ s Hm2).
      now rewrite (setCellLabel_stateAt _ _ _ _ s Hm1). }
    rewrite filter_cons_True by (split; [exact Hnc|cbn [snd]; congruence]).
    destruct (IH (add child fr) maze2 Hnd) as (maze' & Hfold & Hty & Hst).
    { intros c Hcin. rewrite Hst2. destruct (decide (c.2 = t)); [eauto|now apply Hin']. }
    assert (Hfilter : filter (unseen (add child fr) maze2) ns = filter (unseen fr maze) ns).
    { apply filter_ext_in. intros [a' t'] Hcin. unfold unseen. cbn [snd].
      assert (Hne' : t' <> t).
      { intros ->. apply Hnt. apply list_elem_of_fmap. now exists (a', t). }
      rewrite Hst2, decide_False by assumption.
      rewrite nodes_add. cbn [fmap list_fmap]. rewrite not_elem_of_cons.
      cbn [state child]. tauto. }
    rewrite Hfilter in Hfold, Hst.
    exists maze'. split; [exact Hfold|]. split.
    + eapply sameTypes_trans; [|exact Hty].
      eapply sameTypes_trans; [eapply setCellLabel_sameTypes|eapply setCellState_sameTypes]; eauto.
    + intros s. rewrite Hst, Hst2. cbn [fmap list_fmap snd].
      change (list_fmap _ _ snd ?l) with (snd <$> l).
      destruct (decide (s ∈ snd <$> filter (unseen fr maze) ns)) as [Hs|Hs].
      * rewrite decide_True; [reflexivity|now constructor].
      * destruct (decide (s = t)) as [->|Hst'].
        -- rewrite decide_True; [reflexivity|constructor].
        -- rewrite decide_False; [reflexivity|]. rewrite not_elem_of_cons. tauto.
Qed.

(** A node of the search tree: its parent chain walks over passable cells
    back to the start, and its path cost counts the edges of that walk. *)
Definition goodNode (n : Node) : Prop :=
  isPath maze0 (chain n)
  /\ last (chain n) = Some (_start this0)
  /\ pathCost n = edges (chain n).

(** What holds of the closure and the store between two calls of [next]. *)
Definition Inv (c : Closure F) (st : Store) : Prop :=
  this c = this0
  /\ sameTypes maze0 (mazeData st)
  /\ NoDup (state <$> nodes (frontier c))
  /\ forall n, n ∈ nodes (frontier c) ->
       goodNode n /\ stateAt (mazeData st) (state n) <> Some Explored.

(** The three things a call of [next] can do. *)
Inductive Step (c : Closure F) (st : Store) : Closure F -> Store -> Prop :=
| step_exhausted :
    nodes (frontier c) = [] ->
    Step c st c (mkStore (mazeData st) (numExplored st) NoSolution)
| step_found node fr maze' :
    remove (frontier c) = Ok (Some node, fr) ->
    nodes (frontier c) ≡ₚ node :: nodes fr ->
    state node = _goal this0 ->
    sameTypes (mazeData st) maze' ->
    (forall s, stateAt maze' s =
       if decide (s ∈ chain node) then Some SolutionPath
       else stateAt (mazeData st) s) ->
    Step c st (mkClosure this0 fr)
         (mkStore maze' (numExplored st + 1) FoundSolution)
| step_expand node fr maze1 maze' :
    remove (frontier c) = Ok (Some node, fr) ->
    nodes (frontier c) ≡ₚ node :: nodes fr ->
    state node <> _goal this0 ->
    setCellState (mazeData st) (state node) Explored = Ok maze1 ->
    sameTypes (mazeData st) maze' ->
    (forall s, stateAt maze' s =
       if decide (s ∈ snd <$> filter (unseen fr maze1) (neighbors_spec maze0 (state node)))
       then Some Frontier
       else if decide (s = state node) then Some Explored
       else stateAt (mazeData st) s) ->
    Step c st
         (mkClosure this0
            (addAll node (filter (unseen fr maze1) (neighbors_spec maze0 (state node))) fr))
         (mkStore maze' (numExplored st + 1) (solutionType st)).

Lemma goodNode_inBounds n s : goodNode n -> s ∈ chain n -> passable maze0 s.
Proof.
  intros (Hp & _ & _). induction (chain n) as [|t p IH]; [intros Hs; inversion Hs|].
  cbn [isPath] in Hp. destruct Hp as (Ht & _ & Hp).
  intros [->|Hs]%elem_of_cons; auto.
Qed.

Lemma passable_stateAt maze s :
  sameTypes maze0 maze -> passable maze0 s -> is_Some (stateAt maze s).
Proof.
  intros Hty [Hin _]. apply stateAt_inBounds.
  - eapply sameTypes_rectangular; eauto.
  - now apply (sameTypes_inBounds _ _ _ Hty).
Qed.

Lemma neighbors_spec_sameTypes maze s :
  sameTypes maze0 maze -> neighbors_spec maze s = neighbors_spec maze0 s.
Proof.
  intros Hty. unfold neighbors_spec. apply list_filter_iff. intros c.
  now rewrite (sameTypes_inBounds _ _ _ Hty), (sameTypes_typeAt _ _ _ Hty).
Qed.

Lemma dimsOf_sameTypes maze : sameTypes maze0 maze -> dimsOf this0 maze.
Proof.
  intros Hty. destruct Hdims as [Hh Hw]. unfold dimsOf.
  now rewrite (sameTypes_height _ _ Hty), (sameTypes_width _ _ Hty).
Qed.

(** [next] never throws between two calls, and does one of the three. *)
Lemma next_Step c st :
  Inv c st -> exists c' st', next c st = Ok (c', st') /\ Step c st c' st'.
Proof.
  intros (Hthis & Hty & Hnd & Hnodes). unfold next.
  destruct (empty (frontier c)) eqn:Hempty.
  { apply empty_nodes in Hempty. eexists _, _. split; [reflexivity|].
    now constructor. }
  assert (Hne : nodes (frontier c) <> []).
  { intros Hnil. apply empty_nodes in Hnil. congruence. }
  destruct (remove_nodes _ Hne) as (node & fr & Hrm & Hperm).
  rewrite Hrm. cbn [bind].
  assert (Hnode : node ∈ nodes (frontier c)) by (rewrite Hperm; constructor).
  destruct (Hnodes node Hnode) as [Hgood Hunexp].
  rewrite Hthis.
  destruct (State_equals (state node) (_goal this0)) eqn:Hgoal.
  - apply State_equals_eq in Hgoal.
    destruct (markPath_spec node (mazeData st)) as (maze' & Hmark & Hty' & Hst').
    { intros s Hs. eapply passable_stateAt; eauto. eapply goodNode_inBounds; eauto. }
    rewrite Hmark. cbn [bind]. eexists _, _. split; [reflexivity|].
    econstructor; eauto.
  - assert (Hng : state node <> _goal this0).
    { intros Heq. apply State_equals_eq in Heq. congruence. }
    destruct (setCellState_Ok (mazeData st) (state node) Explored) as [maze1 Hm1].
    { eapply passable_stateAt; eauto. eapply goodNode_inBounds; eauto.
      apply chain_state_elem. }
    rewrite Hm1. cbn [bind].
    assert (Hty1 : sameTypes maze0 maze1).
    { eapply sameTypes_trans; [exact Hty|eapply setCellState_sameTypes; eauto]. }
    rewrite (neighbors_eq_spec this0 maze1 (state node))
      by (eauto using sameTypes_rectangular, dimsOf_sameTypes).
    rewrite (neighbors_spec_sameTypes _ _ Hty1). cbn [bind].
    destruct (expand_loop node (neighbors_spec maze0 (state node)) fr maze1)
      as (maze' & Hfold & Hty' & Hst').
    { apply neighbors_spec_NoDup. }
    { intros [a t] Hc. apply neighbors_spec_elem in Hc as [Hp _].
      now apply passable_stateAt. }
    rewrite Hfold. cbn [bind]. eexists _, _. split; [reflexivity|].
    econstructor; eauto.
    + eapply sameTypes_trans; [eapply setCellState_sameTypes; eauto|exact Hty'].
    + intros s. rewrite Hst'. rewrite (setCellState_stateAt _ _ _ _ s Hm1). reflexivity.
Qed.

Lemma state_mkChild node (cs : list (Action * State)) :
  state <$> (mkChild node <$> cs) = snd <$> cs.
Proof. rewrite <- list_fmap_compose. reflexivity. Qed.

Lemma goodNode_mkChild node a t :
  goodNode node -> (a, t) ∈ neighbors_spec maze0 (state node) ->
  goodNode (mkChild node (a, t)).
Proof.
  intros (Hp & Hlast & Hcost) [Hpass Hadj]%neighbors_spec_elem.
  unfold goodNode, mkChild. cbn [chain pathCost fst snd].
  pose proof (chain_head node) as Hhead.
  destruct (chain node) as [|s p] eqn:Hch; [discriminate|].
  injection Hhead as ->. split; [|split].
  - cbn [isPath]. split; [exact Hpass|]. split; [now apply adjacent_sym|exact Hp].
  - exact Hlast.
  - rewrite Hcost. unfold edges. cbn [length]. lia.
Qed.

Lemma Step_Inv c st c' st' : Inv c st -> Step c st c' st' -> Inv c' st'.
Proof.
  intros (Hthis & Hty & Hnd & Hnodes) Hstep.
  destruct Hstep as [Hnil|node fr maze' Hrm Hperm Hgoal Hty' Hst'
                    |node fr maze1 maze' Hrm Hperm Hgoal Hm1 Hty' Hst'].
  - repeat split; auto; now apply Hnodes.
  - assert (Hnd' : NoDup (state node :: (state <$> nodes fr))).
    { rewrite Hperm in Hnd. exact Hnd. }
    apply NoDup_cons in Hnd' as [_ Hnd'].
    split; [reflexivity|]. split; [eapply sameTypes_trans; eauto|]. split; [exact Hnd'|].
    intros n Hn. cbn [frontier mazeData] in *.
    destruct (Hnodes n) as [Hgood Hunexp]; [rewrite Hperm; now constructor|].
    split; [exact Hgood|]. rewrite Hst'. now destruct (decide (state n ∈ chain node)).
  - assert (Hnd' : NoDup (state node :: (state <$> nodes fr))).
    { rewrite Hperm in Hnd. exact Hnd. }
    apply NoDup_cons in Hnd' as [Hnotin Hnd'].
    destruct (Hnodes node) as [Hgood _]; [rewrite Hperm; constructor|].
    set (added := filter (unseen fr maze1) (neighbors_spec maze0 (state node))) in *.
    split; [reflexivity|]. split; [eapply sameTypes_trans; eauto|].
    cbn [frontier mazeData]. split.
    + rewrite nodes_addAll, fmap_app, state_mkChild. apply NoDup_app. repeat split.
      * eapply sublist_NoDup; [apply neighbors_spec_NoDup|].
        apply (fmap_sublist snd), sublist_filter.
      * intros t (c0 & -> & Hc0)%list_elem_of_fmap.
        apply list_elem_of_filter in Hc0 as [[Hc0 _] _]. exact Hc0.
      * exact Hnd'.
    + intros n Hn. rewrite nodes_addAll in Hn. apply elem_of_app in Hn as [Hn|Hn].
      * apply list_elem_of_fmap in Hn as ([a t] & -> & Hc0).
        apply list_elem_of_filter in Hc0 as Hc1. destruct Hc1 as [_ Hin].
        split; [now apply goodNode_mkChild|].
        rewrite Hst'. cbn [mkChild state snd].
        rewrite decide_True; [discriminate|].
        apply list_elem_of_fmap. now exists (a, t).
      * destruct (Hnodes n) as [Hgood' Hunexp]; [rewrite Hperm; now constructor|].
        split; [exact Hgood'|]. rewrite Hst'.
        destruct (decide (state n ∈ snd <$> added)); [discriminate|].
        rewrite decide_False; [exact Hunexp|].
        intros Heq. apply Hnotin. rewrite <- Heq. apply list_elem_of_fmap. eauto.
Qed.

(** The number of cells of the grid not marked explored. *)
Definition unexplored (maze : MazeData) : nat :=
  length (filter (fun s => stateAt maze s <> Some Explored) (allStates maze0)).

Lemma unexplored_bound maze : (unexplored maze <= height maze0 * width maze0)%nat.
Proof.
  unfold unexplored. rewrite <- allStates_length. apply length_filter.
Qed.

(** A call of [next] that starts and ends under outcome [Continue] marks
    one more cell explored, and unmarks none. *)
Lemma Step_Continue c st c' st' :
  Inv c st -> Step c st c' st' ->
  solutionType st' = Continue ->
  (unexplored (mazeData st') + 1 = unexplored (mazeData st))%nat
  /\ (forall s, explored (mazeData st) s -> explored (mazeData st') s)
  /\ numExplored st' = numExplored st + 1
  /\ solutionType st = Continue.
Proof.
  intros (Hthis & Hty & Hnd & Hnodes) Hstep Hcont.
  destruct Hstep as [Hnil|node fr maze' Hrm Hperm Hgoal Hty' Hst'
                    |node fr maze1 maze' Hrm Hperm Hgoal Hm1 Hty' Hst']; try discriminate.
  cbn [mazeData numExplored solutionType] in *.
  destruct (Hnodes node) as [Hgood Hunexp]; [rewrite Hperm; constructor|].
  set (added := filter (unseen fr maze1) (neighbors_spec maze0 (state node))) in *.
  assert (Hadded : forall s, s ∈ snd <$> added ->
            s <> state node /\ stateAt (mazeData st) s <> Some Explored).
  { intros s (c0 & -> & Hc0)%list_elem_of_fmap.
    apply list_elem_of_filter in Hc0 as [[_ Hun] _].
    rewrite (setCellState_stateAt _ _ _ _ c0.2 Hm1) in Hun.
    destruct (decide (c0.2 = state node)); [congruence|]. auto. }
  assert (Hexp : forall s, stateAt maze' s = Some Explored <->
                   s = state node \/ stateAt (mazeData st) s = Some Explored).
  { intros s. rewrite Hst'.
    destruct (decide (s ∈ snd <$> added)) as [Hs|Hs].
    - destruct (Hadded s Hs). split; [discriminate|tauto].
    - destruct (decide (s = state node)); [tauto|]. tauto. }
  repeat split; auto.
  - unfold unexplored. apply (filter_length_remove _ _ _ (state node)).
    + apply allStates_NoDup.
    + apply allStates_elem. eapply goodNode_inBounds; eauto. apply chain_state_elem.
    + exact Hunexp.
    + intros s. rewrite Hexp. tauto.
  - intros s Hs. apply Hexp. now right.
Qed.

(** *** The driver *)

(** What holds of the component while [demoRunner] is set. *)
Definition AppInv (app : App F) : Prop :=
  exists c, demoRunner app = Some c /\ Inv c (store app)
            /\ (solutionType (store app) = Continue -> interval app = true).

Lemma ticks_stopped n (app : App F) : interval app = false -> ticks n app = Ok app.
Proof. intros Hi. destruct n; [reflexivity|]. cbn [ticks]. now rewrite Hi. Qed.

(** One call of [demoRunner] under outcome [Continue] is one call of
    [next], which follows [Step]. *)
Lemma demoRunner_call_Step (app : App F) c :
  demoRunner app = Some c -> Inv c (store app) ->
  solutionType (store app) = Continue -> interval app = true ->
  exists c' st' app',
    Step c (store app) c' st'
    /\ demoRunner_call app = Ok app'
    /\ store app' = st' /\ demoRunner app' = Some c'
    /\ interval app' = bool_decide (solutionType st' = Continue).
Proof.
  intros Hc Hinv Hcont Hint.
  destruct (next_Step c (store app) Hinv) as (c' & st' & Hnext & Hstep).
  unfold demoRunner_call. rewrite Hc.
  rewrite bool_decide_eq_true_2 by assumption. rewrite Hnext. cbn [bind].
  destruct (decide (solutionType st' = Continue)) as [Hc'|Hc'].
  - rewrite bool_decide_eq_false_2 by tauto.
    eexists c', st', _. split; [exact Hstep|]. split; [reflexivity|].
    cbn. rewrite bool_decide_eq_true_2 by assumption. auto.
  - rewrite bool_decide_eq_true_2 by assumption.
    eexists c', st', _. split; [exact Hstep|]. split; [reflexivity|].
    cbn. rewrite bool_decide_eq_false_2 by assumption. auto.
Qed.

Lemma demoRunner_call_AppInv (app : App F) :
  AppInv app -> exists app', demoRunner_call app = Ok app' /\ AppInv app'.
Proof.
  intros (c & Hc & Hinv & Hint).
  destruct (decide (solutionType (store app) = Continue)) as [Hcont|Hterm].
  - destruct (demoRunner_call_Step app c Hc Hinv Hcont (Hint Hcont))
      as (c' & st' & app' & Hstep & Hcall & Hst & Hdr & Hint').
    exists app'. split; [exact Hcall|]. exists c'. split; [exact Hdr|].
    rewrite Hst. split; [eapply Step_Inv; eauto|].
    intros Hc'. rewrite Hint'. now apply bool_decide_eq_true_2.
  - destruct (demoRunner_call_terminal app Hterm) as (app' & Hcall & Hst & Hdr).
    exists app'. split; [exact Hcall|]. exists c. rewrite Hdr, Hst.
    split; [exact Hc|]. split; [exact Hinv|]. intros; contradiction.
Qed.

(** However often the timer fires, no call throws. *)
Lemma ticks_AppInv n (app : App F) :
  AppInv app -> exists app', ticks n app = Ok app' /\ AppInv app'.
Proof.
  revert app. induction n as [|n IH]; intros app Hinv; [now exists app|].
  cbn [ticks]. destruct (interval app); [|now exists app].
  destruct (demoRunner_call_AppInv app Hinv) as (app1 & -> & Hinv1).
  cbn [bind]. now apply IH.
Qed.

(** The run from a state under [Continue] to the call of [next] that ends
    it, for an invariant [J] of the calls made in between. *)
Lemma run_to_end (J : Closure F -> Store -> Prop) :
  (forall c st, J c st -> Inv c st) ->
  (forall c st c' st', J c st -> solutionType st = Continue ->
     Step c st c' st' -> solutionType st' = Continue -> J c' st') ->
  forall n (app : App F) c,
    demoRunner app = Some c -> J c (store app) ->
    solutionType (store app) = Continue -> interval app = true ->
    (unexplored (mazeData (store app)) < n)%nat ->
    exists k appk ck c' appf,
      (k < n)%nat
      /\ ticks k app = Ok appk
      /\ demoRunner appk = Some ck /\ J ck (store appk)
      /\ solutionType (store appk) = Continue
      /\ Step ck (store appk) c' (store appf)
      /\ solutionType (store appf) <> Continue
      /\ demoRunner_call appk = Ok appf
      /\ demoRunner appf = Some c'
      /\ ticks n app = Ok appf.
Proof.
  intros HJ Hpres. induction n as [|n IH]; intros app c Hc HJc Hcont Hint Hlt; [lia|].
  destruct (demoRunner_call_Step app c Hc (HJ _ _ HJc) Hcont Hint)
    as (c' & st' & app' & Hstep & Hcall & Hst & Hdr & Hint').
  destruct (decide (solutionType st' = Continue)) as [Hc'|Hc'].
  - rewrite bool_decide_eq_true_2 in Hint' by assumption.
    destruct (Step_Continue c (store app) c' st' (HJ _ _ HJc) Hstep Hc')
      as (Hmeasure & _).
    destruct (IH app' c') as (k & appk & ck & c'' & appf & Hk & Hticks & Hrest).
    { exact Hdr. } { rewrite Hst. eapply Hpres; eauto. }
    { now rewrite Hst. } { exact Hint'. } { rewrite Hst. lia. }
    exists (S k), appk, ck, c'', appf. split; [lia|].
    cbn [ticks]. rewrite Hint, Hcall. cbn [bind].
    split; [exact Hticks|]. tauto.
  - rewrite bool_decide_eq_false_2 in Hint' by assumption.
    exists 0%nat, app, c, c', app'. subst st'.
    repeat split; auto; try lia.
    cbn [ticks]. rewrite Hint, Hcall. cbn [bind]. now apply ticks_stopped.
Qed.

(** A cell marked explored stays out of the frontier from then on. *)
Lemma Step_explored c st c' st' s :
  Inv c st -> solutionType st = Continue ->
  Step c st c' st' -> explored (mazeData st) s ->
  (solutionType st' = Continue /\ explored (mazeData st') s)
  \/ (solutionType st' <> Continue
      /\ forall n, n ∈ nodes (frontier c') -> n ∈ nodes (frontier c)).
Proof.
  intros Hinv Hcont Hstep Hs.
  destruct (decide (solutionType st' = Continue)) as [Hc|Hc].
  - left. split; [exact Hc|].
    now apply (Step_Continue c st c' st' Hinv Hstep Hc).
  - right. split; [exact Hc|].
    destruct Hstep as [Hnil|node fr maze' Hrm Hperm Hgoal Hty' Hst'
                      |node fr maze1 maze' Hrm Hperm Hgoal Hm1 Hty' Hst'].
    + auto.
    + intros n Hn. cbn [frontier] in Hn. rewrite Hperm. now constructor.
    + cbn [solutionType] in Hc. contradiction.
Qed.

Lemma ticks_explored_excluded n (app app' : App F) c' s :
  AppInv app -> ticks n app = Ok app' -> demoRunner app' = Some c' ->
  explored (mazeData (store app)) s -> s ∉ state <$> nodes (frontier c').
Proof.
  assert (Hbase : forall (app : App F) c, demoRunner app = Some c ->
            Inv c (store app) -> explored (mazeData (store app)) s ->
            s ∉ state <$> nodes (frontier c)).
  { intros app0 c0 _ (_ & _ & _ & Hnodes) Hs (n0 & -> & Hn0)%list_elem_of_fmap.
    now apply (Hnodes n0 Hn0). }
  revert app. induction n as [|n IH]; intros app (c & Hc & Hinv & Hint) Hticks Hdr Hs.
  { injection Hticks as <-. assert (c' = c) as -> by congruence. eauto. }
  destruct (decide (solutionType (store app) = Continue)) as [Hcont|Hterm].
  - cbn [ticks] in Hticks. rewrite (Hint Hcont) in Hticks.
    destruct (demoRunner_call_Step app c Hc Hinv Hcont (Hint Hcont))
      as (c1 & st1 & app1 & Hstep & Hcall & Hst & Hdr1 & Hint1).
    rewrite Hcall in Hticks. cbn [bind] in Hticks.
    destruct (Step_explored c (store app) c1 st1 s Hinv Hcont Hstep Hs)
      as [[Hc1 Hs1]|[Hc1 Hsub]].
    + apply (IH app1); auto.
      * exists c1. rewrite Hst. split; [exact Hdr1|].
        split; [eapply Step_Inv; eauto|]. intros _. rewrite Hint1.
        now apply bool_decide_eq_true_2.
      * now rewrite Hst.
    + destruct (ticks_terminal n app1) as (app2 & Hticks2 & Hst2 & Hdr2).
      { now rewrite Hst. }
      assert (app2 = app') as -> by congruence.
      assert (c' = c1) as -> by congruence.
      intros (n0 & -> & Hn0)%list_elem_of_fmap.
      destruct Hinv as (_ & _ & _ & Hnodes). now apply (Hnodes n0 (Hsub n0 Hn0)).
  - destruct (ticks_terminal (S n) app Hterm) as (app2 & Hticks2 & Hst2 & Hdr2).
    assert (app2 = app') as -> by congruence.
    assert (c' = c) as -> by congruence. eauto.
Qed.

(** *** The first state of a search *)

(** The root node that [solve] puts into the fresh frontier. *)
Definition rootNode : Node :=
  mkNode (_start this0) None None
         (calcManhattanDistance (_start this0) (_goal this0)) 0.

Lemma solve_Inv st :
  sameTypes maze0 (mazeData st) ->
  exists c1 st1,
    solve this0 st = Ok (c1, st1)
    /\ Inv c1 st1
    /\ solutionType st1 = Continue /\ numExplored st1 = 0
    /\ (forall s, stateAt (mazeData st1) s =
          if decide (s = _start this0) then Some Frontier else stateAt (mazeData st) s)
    /\ c1 = mkClosure this0 (add rootNode create).
Proof.
  intros Hty. unfold solve.
  destruct (setCellState_Ok (mazeData st) (_start this0) Frontier) as [maze' Hm].
  { now apply passable_stateAt. }
  rewrite Hm. cbn [bind]. eexists _, _. split; [reflexivity|].
  fold rootNode. set (root := rootNode).
  assert (Hroot : nodes (add root create) ≡ₚ [root]).
  { now rewrite nodes_add, nodes_create. }
  split; [|split; [reflexivity|split; [reflexivity|split; [|reflexivity]]]].
  - split; [reflexivity|]. cbn [frontier mazeData].
    split; [eapply sameTypes_trans; [exact Hty|eapply setCellState_sameTypes; eauto]|].
    split; [rewrite Hroot; cbn; apply NoDup_singleton|].
    intros n Hn. rewrite Hroot in Hn. apply list_elem_of_singleton in Hn as ->.
    split.
    + unfold goodNode, root, rootNode. cbn [chain isPath last pathCost].
      repeat split; auto; apply Hstart.
    + rewrite (setCellState_stateAt _ _ _ _ _ Hm). unfold root, rootNode. cbn [state].
      rewrite decide_True by reflexivity. discriminate.
  - intros s. apply (setCellState_stateAt _ _ _ _ _ Hm).
Qed.
End Search.

(** ** Counting cells *)

(** The number of cells of a type, and of cells that are not walls, over
    all rows of the grid. *)
Definition countType (ty : MazeCellType) (maze : MazeData) : nat :=
  length (filter (fun c => MazeCell.type c = ty) (concat maze)).

Definition nonWallCells (maze : MazeData) : nat :=
  length (filter (fun c => MazeCell.type c <> Wall) (concat maze)).

Lemma upto_fmap (n : nat) : upto (Z.of_nat n) = Z.of_nat <$> seq 0 n.
Proof.
  unfold upto. rewrite Nat2Z.id. reflexivity.
Qed.

Lemma row_cells (maze : MazeData) (k : nat) row :
  maze !! k = Some row ->
  (fun j => cellAt maze (Z.of_nat k, j)) <$> upto (Z.of_nat (length row)) = Ok <$> row.
Proof.
  intros Hrow. rewrite upto_fmap, <- list_fmap_compose.
  apply list_eq. intros j. rewrite !list_lookup_fmap.
  destruct (decide (j < length row)%nat) as [Hj|Hj].
  - rewrite lookup_seq_lt by assumption. cbn [fmap option_fmap option_map compose].
    destruct (lookup_lt_is_Some_2 row j Hj) as [c Hc]. rewrite Hc. cbn.
    f_equal. apply cellAt_Ok. cbn [fst snd]. rewrite !Nat2Z.id.
    split; [lia|]. split; [lia|]. eauto.
  - rewrite lookup_seq_ge by lia. now rewrite lookup_ge_None_2 by lia.
Qed.

Lemma cells_allStates (maze : MazeData) :
  rectangular maze -> cellAt maze <$> allStates maze = Ok <$> concat maze.
Proof.
  intros [_ Hall]. unfold allStates, height.
  rewrite (upto_fmap (length maze)), list_fmap_bind.
  assert (Hgen : forall pre rest, maze = pre ++ rest ->
            cellAt maze <$>
              (seq (length pre) (length rest)
                 ≫= (fun i => (fun j => (i, j)) <$> upto (Z.of_nat (width maze))) ∘ Z.of_nat)
            = Ok <$> concat rest).
  { intros pre rest. revert pre. induction rest as [|row rest IH]; intros pre Heq.
    - reflexivity.
    - cbn [length seq]. rewrite bind_cons, fmap_app, concat_cons, fmap_app.
      assert (Hrow : maze !! length pre = Some row).
      { rewrite Heq. apply list_lookup_middle. reflexivity. }
      f_equal.
      + cbn [compose]. rewrite <- list_fmap_compose.
        rewrite Forall_lookup in Hall. rewrite <- (Hall _ _ Hrow).
        now apply row_cells.
      + specialize (IH (pre ++ [row])). rewrite length_app in IH. cbn [length] in IH.
        rewrite Nat.add_1_r in IH. apply IH. now rewrite <- app_assoc. }
  apply (Hgen [] maze eq_refl).
Qed.

Lemma filter_length_fmap {A B} (f : A -> B) (Q : B -> Prop)
      `{!forall y, Decision (Q y)} (l : list A) :
  length (filter (fun x => Q (f x)) l) = length (filter Q (f <$> l)).
Proof.
  induction l as [|x l IH]; [reflexivity|].
  cbn [fmap list_fmap]. rewrite !filter_cons.
  destruct (decide (Q (f x))); cbn [length]; now rewrite IH.
Qed.

Lemma types_allStates (maze : MazeData) :
  rectangular maze ->
  typeAt maze <$> allStates maze = (fun c => Some (MazeCell.type c)) <$> concat maze.
Proof.
  intros Hrect.
  change (typeAt maze) with
    ((fun r => match r with Ok c => Some (MazeCell.type c) | Throw _ => None end)
       ∘ cellAt maze).
  rewrite list_fmap_compose, (cells_allStates maze Hrect), <- list_fmap_compose.
  reflexivity.
Qed.

Lemma count_positions (maze : MazeData) (Q : option MazeCellType -> Prop)
      `{!forall o, Decision (Q o)} :
  rectangular maze ->
  length (filter (fun s => Q (typeAt maze s)) (allStates maze))
  = length (filter (fun c => Q (Some (MazeCell.type c))) (concat maze)).
Proof.
  intros Hrect.
  rewrite (filter_length_fmap (typeAt maze) Q).
  rewrite (filter_length_fmap (fun c => Some (MazeCell.type c)) Q).
  now rewrite types_allStates.
Qed.

(** The places of the cells of a type. *)
Definition placesOf (ty : MazeCellType) (maze : MazeData) : list State :=
  filter (fun s => typeAt maze s = Some ty) (allStates maze).

Lemma placesOf_length ty (maze : MazeData) :
  rectangular maze -> length (placesOf ty maze) = countType ty maze.
Proof.
  intros Hrect. unfold placesOf, countType.
  etransitivity; [exact (count_positions maze (fun o => o = Some ty) Hrect)|].
  f_equal. apply list_filter_iff. intros c. split; congruence.
Qed.

Lemma passable_length (maze : MazeData) :
  rectangular maze ->
  length (filter (passable maze) (allStates maze)) = nonWallCells maze.
Proof.
  intros Hrect. unfold nonWallCells.
  etransitivity; [|etransitivity;
    [exact (count_positions maze (fun o => o <> Some Wall) Hrect)|]].
  - f_equal. apply filter_ext_in. intros s Hs. apply allStates_elem in Hs.
    unfold passable. tauto.
  - f_equal. apply list_filter_iff. intros c. split; congruence.
Qed.

(** ** The constructor of [Maze] *)

(** The constructor's two loops visit the positions of the grid row by
    row; this is the body of the inner loop at a position. *)
Definition scanAt (maze : MazeData) (acc : option State * option State) (s : State)
  : result (option State * option State) :=
  scanCell maze s.1 acc s.2.

Lemma foldM_app {A S} (body : S -> A -> result S) l1 l2 s :
  foldM body (l1 ++ l2) s = let* s' := foldM body l1 s in foldM body l2 s'.
Proof.
  revert s. induction l1 as [|a l1 IH]; intros s; [reflexivity|].
  cbn [app foldM]. destruct (body s a); cbn [bind]; [apply IH|reflexivity].
Qed.

Lemma foldM_fmap {A B S} (f : A -> B) (body : S -> B -> result S) (l : list A) s :
  foldM body (f <$> l) s = foldM (fun s a => body s (f a)) l s.
Proof.
  revert s. induction l as [|a l IH]; intros s; [reflexivity|].
  cbn [fmap list_fmap foldM]. destruct (body s (f a)); cbn [bind]; [apply IH|reflexivity].
Qed.

Lemma foldM_bind {A B S} (g : A -> list B) (body : S -> B -> result S) (l : list A) s :
  foldM body (l ≫= g) s = foldM (fun s a => foldM body (g a) s) l s.
Proof.
  revert s. induction l as [|a l IH]; intros s; [reflexivity|].
  rewrite bind_cons, foldM_app. cbn [foldM].
  destruct (foldM body (g a) s); cbn [bind]; [apply IH|reflexivity].
Qed.

Lemma foldM_ext {A S} (body body' : S -> A -> result S) (l : list A) s :
  (forall s a, body s a = body' s a) -> foldM body l s = foldM body' l s.
Proof.
  intros Hext. revert s. induction l as [|a l IH]; intros s; [reflexivity|].
  cbn [foldM]. rewrite Hext. destruct (body' s a); cbn [bind]; [apply IH|reflexivity].
Qed.

Lemma constructor_loops (maze : MazeData) acc :
  foldM (fun acc i => foldM (scanCell maze i) (upto (Z.of_nat (width maze))) acc)
        (upto (Z.of_nat (height maze))) acc
  = foldM (scanAt maze) (allStates maze) acc.
Proof.
  unfold allStates. rewrite foldM_bind. apply foldM_ext.
  intros s i. now rewrite foldM_fmap.
Qed.

Definition found1 (o : option State) : nat :=
  match o with Some _ => 1 | None => 0 end.

(** What the loops over a list of positions inside the grid come to: they
    end without throwing exactly when they meet at most one start and one
    goal beyond those already found, and then hand back the first of each. *)
Definition scanned (maze : MazeData) (l : list State) (os og : option State)
           (r : result (option State * option State)) : Prop :=
  match r with
  | Ok (os', og') =>
      (found1 os + length (filter (fun s => typeAt maze s = Some Start) l) <= 1)%nat
      /\ (found1 og + length (filter (fun s => typeAt maze s = Some Goal) l) <= 1)%nat
      /\ os' = match os with
               | Some p => Some p
               | None => head (filter (fun s => typeAt maze s = Some Start) l)
               end
      /\ og' = match og with
               | Some p => Some p
               | None => head (filter (fun s => typeAt maze s = Some Goal) l)
               end
  | Throw e =>
      (e = Error "只能有一个起点" \/ e = Error "只能有一个终点")
      /\ ((found1 os + length (filter (fun s => typeAt maze s = Some Start) l) >= 2)%nat
          \/ (found1 og + length (filter (fun s => typeAt maze s = Some Goal) l) >= 2)%nat)
  end.

Lemma scan_spec (maze : MazeData) (l : list State) :
  (forall s, s ∈ l -> is_Some (typeAt maze s)) ->
  forall os og r, foldM (scanAt maze) l (os, og) = r -> scanned maze l os og r.
Proof.
  induction l as [|s l IH]; intros Hin os og r Hr.
  - cbn in Hr. subst r. cbn. destruct os, og; cbn; repeat split; lia.
  - assert (Hin' : forall t, t ∈ l -> is_Some (typeAt maze t)).
    { intros t Ht. apply Hin. now constructor. }
    specialize (IH Hin').
    destruct (Hin s (list_elem_of_here _ _)) as [ty Hty].
    destruct s as [i j].
    cbn [foldM] in Hr. unfold scanAt at 1, scanCell in Hr. cbn [fst snd] in Hr.
    unfold typeAt in Hty. destruct (cellAt maze (i, j)) as [c|e] eqn:Hc; [|discriminate].
    injection Hty as Hty. cbn [bind] in Hr.
    assert (HtyAt : typeAt maze (i, j) = Some ty) by (unfold typeAt; now rewrite Hc, Hty).
    unfold scanned. rewrite !filter_cons, HtyAt.
    destruct (MazeCell.type c) eqn:Htc; subst ty.
    + rewrite !decide_False by discriminate. now apply IH.
    + rewrite !decide_False by discriminate. now apply IH.
    + rewrite decide_True by reflexivity. rewrite decide_False by discriminate.
      destruct os as [p|].
      * cbn [bind] in Hr. subst r. cbn [found1 length]. split; [now left|]. left. lia.
      * cbn [bind] in Hr. apply IH in Hr. unfold scanned in Hr.
        destruct r as [[os' og']|e].
        -- destruct Hr as (H1 & H2 & -> & ->). cbn [found1 length head] in *.
           repeat split; try reflexivity; lia.
        -- destruct Hr as [He Hn]. split; [exact He|]. cbn [found1 length] in *. lia.
    + rewrite decide_False by discriminate. rewrite decide_True by reflexivity.
      destruct og as [p|].
      * cbn [bind] in Hr. subst r. cbn [found1 length]. split; [now right|]. right. lia.
      * cbn [bind] in Hr. apply IH in Hr. unfold scanned in Hr.
        destruct r as [[os' og']|e].
        -- destruct Hr as (H1 & H2 & -> & ->). cbn [found1 length head] in *.
           repeat split; try reflexivity; lia.
        -- destruct Hr as [He Hn]. split; [exact He|]. cbn [found1 length] in *. lia.
Qed.

(** The errors of the constructor that speak of the grid's topology. *)
Definition topologyErrors : list exn :=
  [ Error "只能有一个起点"; Error "只能有一个终点"; Error "没有起点"; Error "没有终点" ].

Ltac in_list :=
  repeat first [apply list_elem_of_here | apply list_elem_of_further].

Lemma constructor_spec (st : Store) :
  rectangular (mazeData st) ->
  match constructor st with
  | Ok (this, st') =>
      placesOf Start (mazeData st) = [_start this]
      /\ placesOf Goal (mazeData st) = [_goal this]
      /\ dimsOf this (mazeData st)
      /\ st' = mkStore (mazeData st) 0 Pending
  | Throw e =>
      e ∈ topologyErrors
      /\ ~ (length (placesOf Start (mazeData st)) = 1%nat
            /\ length (placesOf Goal (mazeData st)) = 1%nat)
  end.
Proof.
  intros Hrect. unfold constructor.
  destruct (mazeData st) as [|row0 rows] eqn:Hmaze; [now destruct Hrect|].
  rewrite <- Hmaze in *.
  assert (H0 : mazeData st !! 0%nat = Some row0) by now rewrite Hmaze.
  rewrite H0.
  assert (Hw : length row0 = width (mazeData st)) by now rewrite Hmaze.
  rewrite Hw. change (length (mazeData st)) with (height (mazeData st)).
  rewrite constructor_loops.
  destruct (foldM (scanAt (mazeData st)) (allStates (mazeData st)) (None, None))
    as [[os og]|e] eqn:Hscan; cbn [bind]; apply scan_spec in Hscan;
    try (intros s Hs; apply allStates_elem in Hs;
         destruct (cellAt_inBounds _ _ Hrect Hs) as [c Hc];
         unfold typeAt; rewrite Hc; eauto);
    unfold scanned in Hscan; cbn [found1] in Hscan;
    fold (placesOf Start (mazeData st)) in Hscan;
    fold (placesOf Goal (mazeData st)) in Hscan.
  - destruct Hscan as (H1 & H2 & -> & ->).
    destruct (placesOf Start (mazeData st)) as [|s ss] eqn:Hs; cbn [head].
    { split; [unfold topologyErrors; in_list|]. cbn. lia. }
    destruct (placesOf Goal (mazeData st)) as [|g gs] eqn:Hg; cbn [head].
    { split; [unfold topologyErrors; in_list|]. cbn. lia. }
    cbn [length] in H1, H2.
    assert (ss = []) as -> by (destruct ss; [reflexivity|cbn in H1; lia]).
    assert (gs = []) as -> by (destruct gs; [reflexivity|cbn in H2; lia]).
    cbn [_start _goal]. repeat split; auto.
  - destruct Hscan as [He Hn]. split.
    + unfold topologyErrors. destruct He as [-> | ->]; in_list.
    + lia.
Qed.

(** ** Starting a search *)

Lemma placesOf_elem ty (maze : MazeData) s :
  s ∈ placesOf ty maze <-> inBounds maze s /\ typeAt maze s = Some ty.
Proof.
  unfold placesOf. rewrite list_elem_of_filter, allStates_elem. tauto.
Qed.

Lemma constructor_succeeds (st : Store) :
  rectangular (mazeData st) ->
  countType Start (mazeData st) = 1%nat -> countType Goal (mazeData st) = 1%nat ->
  exists this, constructor st = Ok (this, mkStore (mazeData st) 0 Pending).
Proof.
  intros Hrect Hs Hg. pose proof (constructor_spec st Hrect) as Hspec.
  rewrite <- (placesOf_length Start _ Hrect) in Hs.
  rewrite <- (placesOf_length Goal _ Hrect) in Hg.
  destruct (constructor st) as [[this st']|e].
  - destruct Hspec as (_ & _ & _ & ->). eauto.
  - destruct Hspec as [_ Hn]. tauto.
Qed.

(** [doStart] on a rectangular grid: either the constructor throws one of
    its topology errors, or the search starts in a state that satisfies the
    invariant, with the root node pending and the start cell marked. *)
Lemma doStart_spec {F : Type} `{FrontierLaws F} (app0 : App F) :
  rectangular (mazeData (store app0)) ->
  match doStart app0 with
  | Ok app1 =>
      exists this0 c1,
        placesOf Start (mazeData (store app0)) = [_start this0]
        /\ placesOf Goal (mazeData (store app0)) = [_goal this0]
        /\ dimsOf this0 (mazeData (store app0))
        /\ passable (mazeData (store app0)) (_start this0)
        /\ demoRunner app1 = Some c1
        /\ Inv (mazeData (store app0)) this0 c1 (store app1)
        /\ solutionType (store app1) = Continue
        /\ interval app1 = true
        /\ numExplored (store app1) = 0
        /\ (forall s, stateAt (mazeData (store app1)) s =
              if decide (s = _start this0) then Some Frontier
              else stateAt (mazeData (store app0)) s)
        /\ c1 = mkClosure this0 (add (rootNode this0) create)
  | Throw e =>
      e ∈ topologyErrors
      /\ ~ (countType Start (mazeData (store app0)) = 1%nat
            /\ countType Goal (mazeData (store app0)) = 1%nat)
  end.
Proof.
  intros Hrect. unfold doStart.
  pose proof (constructor_spec (store app0) Hrect) as Hspec.
  destruct (constructor (store app0)) as [[this0 st']|e]; cbn [bind].
  - destruct Hspec as (Hs & Hg & Hdims & ->).
    assert (Hpass : passable (mazeData (store app0)) (_start this0)).
    { assert (Hin : _start this0 ∈ placesOf Start (mazeData (store app0)))
        by (rewrite Hs; constructor).
      apply placesOf_elem in Hin as [Hin Hty]. split; [exact Hin|]. congruence. }
    destruct (solve_Inv (mazeData (store app0)) this0 Hrect Hpass
                (mkStore (mazeData (store app0)) 0 Pending))
      as (c1 & st1 & Hsolve & Hinv & Hcont & Hnum & Hst & Hc1).
    { apply sameTypes_refl. }
    rewrite Hsolve. cbn [bind]. exists this0, c1. cbn [store demoRunner interval].
    split; [exact Hs|]. split; [exact Hg|]. split; [exact Hdims|].
    split; [exact Hpass|]. split; [reflexivity|]. split; [exact Hinv|].
    split; [exact Hcont|]. split; [reflexivity|]. split; [exact Hnum|].
    split; [exact Hst|exact Hc1].
  - rewrite <- (placesOf_length Start _ Hrect), <- (placesOf_length Goal _ Hrect).
    exact Hspec.
Qed.

(** C8.  Over a rectangular grid the constructor throws exactly when the
    number of start cells or the number of goal cells is not one, and what
    it throws is then one of its four topology errors.  Once it has
    returned, the search it starts never throws, whatever the frontier
    class and however many steps are taken. *)
Theorem constructor_topology (st : Store) :
  rectangular (mazeData st) ->
  ((exists this st', constructor st = Ok (this, st'))
     <-> countType Start (mazeData st) = 1%nat /\ countType Goal (mazeData st) = 1%nat)
  /\ (forall e, constructor st = Throw e -> e ∈ topologyErrors)
  /\ (forall (F : Type) (I : IFrontier F) (L : FrontierLaws F)
        (demo : DemoState) (timer : bool) (runner : option (Closure F)) (n : nat),
        countType Start (mazeData st) = 1%nat ->
        countType Goal (mazeData st) = 1%nat ->
        exists app1 appn,
          doStart (mkApp st demo timer runner) = Ok app1
          /\ ticks n app1 = Ok appn).
Proof.
  intros Hrect. pose proof (constructor_spec st Hrect) as Hspec.
  split; [|split].
  - split.
    + intros (this & st' & Hc). rewrite Hc in Hspec.
      destruct Hspec as (Hs & Hg & _).
      rewrite <- (placesOf_length Start _ Hrect), <- (placesOf_length Goal _ Hrect), Hs, Hg.
      auto.
    + intros [Hs Hg]. destruct (constructor_succeeds st Hrect Hs Hg) as [this Hc]. eauto.
  - intros e He. rewrite He in Hspec. apply Hspec.
  - intros F I L demo timer runner n Hs Hg.
    pose proof (doStart_spec (mkApp st demo timer runner) Hrect) as Hstart.
    cbn [store] in Hstart.
    destruct (doStart (mkApp st demo timer runner)) as [app1|e]; [|tauto].
    destruct Hstart as (this0 & c1 & _ & _ & Hdims & Hpass & Hdr & Hinv & Hcont & Hint & _).
    destruct (ticks_AppInv (mazeData st) this0 Hrect Hdims n app1) as (appn & Hticks & _).
    { exists c1. auto. }
    eauto.
Qed.

Lemma constructor_topology_witness :
  (exists this st', constructor (mkStore sample_grid 0 Pending) = Ok (this, st'))
  <-> countType Start sample_grid = 1%nat /\ countType Goal sample_grid = 1%nat.
Proof.
  refine (proj1 (constructor_topology (mkStore sample_grid 0 Pending) _)).
  split; [discriminate|]. repeat constructor.
Defined.

(** ** Termination *)

Lemma frontier_bound {F : Type} `{FrontierLaws F} (maze0 : MazeData) this0
      (c : Closure F) st :
  rectangular maze0 -> Inv maze0 this0 c st ->
  (length (nodes (frontier c)) <= nonWallCells maze0)%nat.
Proof.
  intros Hrect (_ & _ & Hnd & Hnodes).
  rewrite <- (passable_length maze0 Hrect), <- (length_fmap state).
  apply submseteq_length, NoDup_submseteq; [exact Hnd|].
  intros s (n & -> & Hn)%list_elem_of_fmap.
  destruct (Hnodes n Hn) as [Hgood _].
  pose proof (goodNode_inBounds maze0 this0 n (state n) Hgood (chain_state_elem n)) as Hp.
  apply list_elem_of_filter. split; [exact Hp|]. apply allStates_elem, Hp.
Qed.

(** C3.  On a rectangular grid with one start and one goal, for every
    frontier class that obeys the frontier laws (the four of the program
    do), the search starts, no step throws, and after at most one step per
    cell plus one the outcome is [FoundSolution] or [NoSolution].  In every
    state on the way the frontier holds no two nodes with the same state and
    no more nodes than there are non-wall cells, and a state whose cell is
    marked explored is in no later frontier. *)
Theorem search_terminates {F : Type} `{FrontierLaws F} (app0 : App F) :
  rectangular (mazeData (store app0)) ->
  countType Start (mazeData (store app0)) = 1%nat ->
  countType Goal (mazeData (store app0)) = 1%nat ->
  exists app1,
    doStart app0 = Ok app1
    /\ (exists appf,
          ticks (height (mazeData (store app0)) * width (mazeData (store app0)) + 1) app1
          = Ok appf
          /\ (solutionType (store appf) = FoundSolution
              \/ solutionType (store appf) = NoSolution))
    /\ (forall n, exists appn c,
          ticks n app1 = Ok appn
          /\ demoRunner appn = Some c
          /\ NoDup (state <$> nodes (frontier c))
          /\ (length (nodes (frontier c)) <= nonWallCells (mazeData (store app0)))%nat
          /\ (forall s m appm cm,
                explored (mazeData (store appn)) s ->
                ticks m appn = Ok appm -> demoRunner appm = Some cm ->
                s ∉ state <$> nodes (frontier cm))).
Proof.
  intros Hrect Hs Hg. pose proof (doStart_spec app0 Hrect) as Hstart.
  destruct (doStart app0) as [app1|e]; [|tauto].
  destruct Hstart as (this0 & c1 & _ & _ & Hdims & Hpass & Hdr & Hinv & Hcont & Hint & _).
  set (maze0 := mazeData (store app0)) in *.
  exists app1. split; [reflexivity|]. split.
  - assert (Hpres : forall (c : Closure F) st c' st',
              Inv maze0 this0 c st -> solutionType st = Continue ->
              Step maze0 this0 c st c' st' -> solutionType st' = Continue ->
              Inv maze0 this0 c' st').
    { intros c st c' st' Hi _ Hstep _. eapply Step_Inv; eauto. }
    assert (Hbound : (unexplored maze0 (mazeData (store app1))
                      < height maze0 * width maze0 + 1)%nat).
    { pose proof (unexplored_bound maze0 (mazeData (store app1))). lia. }
    destruct (run_to_end maze0 this0 Hrect Hdims (Inv maze0 this0)
                (fun _ _ Hi => Hi) Hpres _ app1 c1 Hdr Hinv Hcont Hint Hbound)
      as (k & appk & ck & c' & appf & _ & _ & _ & Hinvk & Hck & Hstep & Hterm & _ & _ & Hticks).
    exists appf. split; [exact Hticks|].
    inversion Hstep as [Hnil Hc Heq|node fr maze' Hrm Hperm Hgoal Hty Hst Hc Heq
                       |node fr maze1 maze' Hrm Hperm Hgoal Hm1 Hty Hst Hc Heq];
      rewrite <- Heq in *; cbn [solutionType] in *; auto. congruence.
  - intros n.
    destruct (ticks_AppInv maze0 this0 Hrect Hdims n app1) as (appn & Hticks & Hinvn).
    { exists c1. auto. }
    pose proof Hinvn as (c & Hc & Hinvc & Hintc).
    exists appn, c. split; [exact Hticks|]. split; [exact Hc|].
    split; [apply Hinvc|]. split; [eapply frontier_bound; eauto|].
    intros s m appm cm Hexp Hm Hcm.
    eapply (ticks_explored_excluded maze0 this0 Hrect Hdims m appn appm cm s); eauto.
Qed.

Lemma search_terminates_witness :
  exists app1 : App StackFrontier.t,
    doStart (mkApp (mkStore sample_grid 0 Pending) Ready false None) = Ok app1
    /\ exists appf,
         ticks (height sample_grid * width sample_grid + 1) app1 = Ok appf
         /\ (solutionType (store appf) = FoundSolution
             \/ solutionType (store appf) = NoSolution).
Proof.
  destruct (search_terminates (F := StackFrontier.t)
              (mkApp (mkStore sample_grid 0 Pending) Ready false None))
    as (app1 & Hstart & Hend & _).
  - split; [discriminate|]. repeat constructor.
  - reflexivity.
  - reflexivity.
  - exists app1. split; [exact Hstart|exact Hend].
Defined.

(** ** Breadth-first search: the queue frontier *)

Lemma queue_remove (f fr : QueueFrontier.t) node :
  remove f = Ok (Some node, fr) ->
  QueueFrontier._frontier f = node :: QueueFrontier._frontier fr.
Proof.
  destruct f as [[|x l]]; cbn; [discriminate|]. now intros [= -> <-].
Qed.

Lemma queue_addAll this0 node cs (fr : QueueFrontier.t) :
  QueueFrontier._frontier (addAll this0 node cs fr)
  = QueueFrontier._frontier fr ++ (mkChild this0 node <$> cs).
Proof.
  unfold addAll. revert fr. induction cs as [|c cs IH]; intros fr.
  - cbn. now rewrite app_nil_r.
  - cbn [fold_left fmap list_fmap]. rewrite IH. cbn. now rewrite <- app_assoc.
Qed.

Lemma isPath_lookup maze p i s : isPath maze p -> p !! i = Some s -> passable maze s.
Proof.
  revert i. induction p as [|t p IH]; intros i Hp Hi; [now rewrite lookup_nil in Hi|].
  cbn [isPath] in Hp. destruct Hp as (Ht & _ & Hp).
  destruct i as [|i]; [cbn in Hi; congruence|]. eapply IH; eauto.
Qed.

Lemma isPath_adjacent maze p i s t :
  isPath maze p -> p !! i = Some s -> p !! S i = Some t -> adjacent s t.
Proof.
  revert i. induction p as [|u p IH]; intros i Hp Hi Hsi; [now rewrite lookup_nil in Hi|].
  cbn [isPath] in Hp. destruct Hp as (_ & Hadj & Hp).
  destruct i as [|i].
  - cbn in Hi, Hsi. destruct p as [|v p]; [discriminate|]. cbn in Hsi. congruence.
  - eapply IH; eauto.
Qed.

Section BreadthFirst.
Variable maze0 : MazeData.
Variable this0 : Maze.
Hypothesis Hrect : rectangular maze0.
Hypothesis Hdims : dimsOf this0 maze0.
Hypothesis Hstart : passable maze0 (_start this0).

(** The nodes pending in the queue of a closure, oldest first. *)
Definition queue (c : Closure QueueFrontier.t) : list Node :=
  QueueFrontier._frontier (frontier c).

Definition cheaper (a b : Node) : Prop := pathCost a <= pathCost b.

(** The invariant of breadth-first search.  [L] remembers, for every state
    seen so far, the path cost of the one node made for it. *)
Definition BInv (c : Closure QueueFrontier.t) (st : Store) : Prop :=
  Inv maze0 this0 c st
  /\ exists L : State -> Z,
       (forall n, n ∈ queue c -> L (state n) = pathCost n)
       /\ StronglySorted cheaper (queue c)
       /\ (forall h n, head (queue c) = Some h -> n ∈ queue c ->
             pathCost n <= pathCost h + 1)
       /\ (forall h s, head (queue c) = Some h -> explored (mazeData st) s ->
             L s <= pathCost h)
       /\ (forall s t, explored (mazeData st) s -> passable maze0 t -> adjacent s t ->
             (explored (mazeData st) t \/ t ∈ state <$> queue c) /\ L t <= L s + 1)
       /\ ((explored (mazeData st) (_start this0) \/ _start this0 ∈ state <$> queue c)
           /\ L (_start this0) = 0)
       /\ ~ explored (mazeData st) (_goal this0).

Lemma BInv_Step c st c' st' :
  BInv c st -> solutionType st = Continue ->
  Step maze0 this0 c st c' st' -> solutionType st' = Continue -> BInv c' st'.
Proof.
  intros [Hinv (L & HL & Hsort & Hbd & Hexp & Hclo & Hst0 & Hgoal)] Hcont Hstep Hcont'.
  split; [eapply Step_Inv; eauto|].
  destruct Hstep as [Hnil|node fr maze' Hrm Hperm Hng Hty' Hst'
                    |node fr maze1 maze' Hrm Hperm Hng Hm1 Hty' Hst']; try discriminate.
  clear Hcont'. cbn [mazeData frontier] in *.
  set (l := QueueFrontier._frontier fr).
  set (added := filter (unseen fr maze1) (neighbors_spec maze0 (state node))) in *.
  set (d := pathCost node).
  assert (Hq : queue c = node :: l) by (now apply queue_remove).
  unfold queue in *. cbn [frontier]. rewrite queue_addAll. fold l.
  rewrite Hq in *. clear Hperm.
  apply StronglySorted_cons in Hsort as [Hmin Hsort].
  specialize (Hbd node). specialize (Hexp node). cbn [head] in Hbd, Hexp.
  assert (Hbd' : forall n, n ∈ l -> d <= pathCost n <= d + 1).
  { intros n Hn. split; [|apply Hbd; [reflexivity|now constructor]].
    rewrite Forall_forall in Hmin. now apply Hmin. }
  destruct Hinv as (_ & Hty & Hnd & Hnodes).
  change (nodes (frontier c)) with (QueueFrontier._frontier (frontier c)) in Hnd, Hnodes.
  rewrite Hq in Hnd, Hnodes. cbn [fmap list_fmap] in Hnd.
  change (list_fmap _ _ state l) with (state <$> l) in Hnd.
  apply NoDup_cons in Hnd as [Hnl Hnd].
  destruct (Hnodes node (list_elem_of_here _ _)) as [Hgood Hunexp].
  assert (Hm1st : forall s, stateAt maze1 s =
            if decide (s = state node) then Some Explored else stateAt (mazeData st) s).
  { intros s. apply (setCellState_stateAt _ _ _ _ s Hm1). }
  assert (Hadd : forall t, t ∈ snd <$> added <->
            passable maze0 t /\ adjacent (state node) t /\ (t ∉ state <$> l)
            /\ t <> state node /\ ~ explored (mazeData st) t).
  { intros t. unfold added. split.
    - intros ([a t'] & -> & Hin)%list_elem_of_fmap. cbn [snd].
      apply list_elem_of_filter in Hin as [[Hnotin Hun] Hin]. cbn [snd] in *.
      apply neighbors_spec_elem in Hin as [Hp Hadj].
      rewrite Hm1st in Hun.
      destruct (decide (t' = state node)); [congruence|].
      split; [exact Hp|]. split; [exact Hadj|]. split; [exact Hnotin|].
      split; [assumption|exact Hun].
    - intros (Hp & Hadj & Hnotin & Hne & Hun).
      destruct (neighbors_spec_complete maze0 (state node) t Hp Hadj) as [a Ha].
      apply list_elem_of_fmap. exists (a, t). split; [reflexivity|].
      apply list_elem_of_filter. split; [|exact Ha]. split; [exact Hnotin|].
      cbn [snd]. rewrite Hm1st. now rewrite decide_False by assumption. }
  assert (Hexp' : forall s, explored maze' s <-> s = state node \/ explored (mazeData st) s).
  { intros s. unfold explored. rewrite Hst'.
    destruct (decide (s ∈ snd <$> added)) as [Hs|Hs].
    - apply Hadd in Hs as (_ & _ & _ & Hne & Hun). unfold explored in Hun.
      split; [discriminate|tauto].
    - destruct (decide (s = state node)); tauto. }
  set (L' := fun t => if decide (t ∈ snd <$> added) then d + 1 else L t).
  assert (HL'old : forall t, t ∉ snd <$> added -> L' t = L t).
  { intros t Ht. unfold L'. now rewrite decide_False. }
  assert (HL'new : forall t, t ∈ snd <$> added -> L' t = d + 1).
  { intros t Ht. unfold L'. now rewrite decide_True. }
  assert (Hkids : forall n, n ∈ mkChild this0 node <$> added ->
            state n ∈ snd <$> added /\ pathCost n = d + 1).
  { intros n (c0 & -> & Hc0)%list_elem_of_fmap. cbn [mkChild state pathCost].
    split; [|reflexivity]. apply list_elem_of_fmap. eauto. }
  assert (Hlnot : forall n, n ∈ l -> state n ∉ snd <$> added).
  { intros n Hn Hin. apply Hadd in Hin as (_ & _ & Hnotin & _).
    apply Hnotin. apply list_elem_of_fmap. eauto. }
  assert (Hnodenot : state node ∉ snd <$> added).
  { intros Hin. apply Hadd in Hin. tauto. }
  assert (Hexpnot : forall s, explored (mazeData st) s -> s ∉ snd <$> added).
  { intros s Hs Hin. apply Hadd in Hin. tauto. }
  assert (Hall : forall n, n ∈ l ++ (mkChild this0 node <$> added) ->
            d <= pathCost n <= d + 1).
  { intros n [Hn|Hn]%elem_of_app; [now apply Hbd'|].
    apply Hkids in Hn as [_ ->]. lia. }
  exists L'. repeat apply conj.
  - intros n [Hn|Hn]%elem_of_app.
    + rewrite HL'old by now apply Hlnot. apply HL. now constructor.
    + apply Hkids in Hn as [Hin ->]. now apply HL'new.
  - apply StronglySorted_app_2; [|exact Hsort|].
    + intros a b Ha Hb. unfold cheaper. apply Hkids in Hb as [_ ->].
      now apply Hbd'.
    + clear. induction added as [|c0 cs IH]; cbn; constructor; [exact IH|].
      apply Forall_forall. intros n (c1 & -> & _)%list_elem_of_fmap.
      unfold cheaper. cbn. lia.
  - intros h n Hh Hn. apply head_Some_elem_of in Hh.
    pose proof (Hall h Hh). pose proof (Hall n Hn). lia.
  - intros h s Hh Hs. apply head_Some_elem_of in Hh. pose proof (Hall h Hh) as Hh'.
    apply Hexp' in Hs as [->|Hs].
    + rewrite HL'old by assumption. rewrite (HL node) by constructor. fold d. lia.
    + rewrite HL'old by now apply Hexpnot.
      specialize (Hexp s eq_refl Hs). fold d in Hexp. lia.
  - intros s t Hs Hp Hadj.
    assert (HLs : L' s = L s).
    { apply HL'old. apply Hexp' in Hs as [->|Hs]; [assumption|now apply Hexpnot]. }
    rewrite HLs, fmap_app.
    apply Hexp' in Hs as [->|Hs].
    + rewrite (HL node) by constructor. fold d.
      destruct (decide (t ∈ state <$> l)) as [Htl|Htl].
      { split; [right; apply elem_of_app; now left|].
        apply list_elem_of_fmap in Htl as (n & -> & Hn).
        rewrite HL'old by now apply Hlnot.
        rewrite (HL n) by now constructor. now apply Hbd'. }
      destruct (decide (stateAt (mazeData st) t = Some Explored)) as [Het|Het].
      { split; [left; apply Hexp'; now right|].
        rewrite HL'old by now apply Hexpnot.
        specialize (Hexp t eq_refl Het). fold d in Hexp. lia. }
      assert (Hne : t <> state node).
      { intros ->. unfold adjacent, calcManhattanDistance in Hadj. lia. }
      assert (Hin : t ∈ snd <$> added) by (apply Hadd; tauto).
      split; [|rewrite HL'new by assumption; lia].
      right. apply elem_of_app. right. now rewrite state_mkChild.
    + destruct (Hclo s t Hs Hp Hadj) as [Hor Hle].
      cbn [fmap list_fmap] in Hor.
      change (list_fmap _ _ state l) with (state <$> l) in Hor.
      destruct Hor as [Het|[->|Htl]%elem_of_cons].
      * split; [left; apply Hexp'; now right|].
        now rewrite HL'old by now apply Hexpnot.
      * split; [left; apply Hexp'; now left|]. now rewrite HL'old.
      * split; [right; apply elem_of_app; now left|].
        apply list_elem_of_fmap in Htl as (n & -> & Hn).
        now rewrite HL'old by now apply Hlnot.
  - destruct Hst0 as [Hor _]. cbn [fmap list_fmap] in Hor.
    change (list_fmap _ _ state l) with (state <$> l) in Hor.
    rewrite fmap_app.
    destruct Hor as [Het|[Heq|Htl]%elem_of_cons].
    + left. apply Hexp'. now right.
    + left. apply Hexp'. now left.
    + right. apply elem_of_app. now left.
  - destruct Hst0 as [Hor H0]. rewrite <- H0. apply HL'old.
    cbn [fmap list_fmap] in Hor.
    change (list_fmap _ _ state l) with (state <$> l) in Hor.
    destruct Hor as [Het|[Heq|Htl]%elem_of_cons].
    + now apply Hexpnot.
    + now rewrite Heq.
    + apply list_elem_of_fmap in Htl as (n & -> & Hn). now apply Hlnot.
  - intros [Heq|He]%Hexp'; [congruence|contradiction].
Qed.

Lemma BInv_initial c1 st1 (maze : MazeData) :
  (forall s, ~ explored maze s) ->
  Inv maze0 this0 c1 st1 ->
  c1 = mkClosure this0 (add (rootNode this0) create) ->
  (forall s, stateAt (mazeData st1) s =
     if decide (s = _start this0) then Some Frontier else stateAt maze s) ->
  BInv c1 st1.
Proof.
  intros Hun Hinv -> Hst. split; [exact Hinv|].
  assert (Hnone : forall s, ~ explored (mazeData st1) s).
  { intros s. unfold explored. rewrite Hst.
    destruct (decide (s = _start this0)); [discriminate|apply Hun]. }
  exists (fun _ => 0). unfold queue. cbn [frontier].
  change (QueueFrontier._frontier (add (rootNode this0) create)) with [rootNode this0].
  repeat apply conj.
  - intros n ->%list_elem_of_singleton. reflexivity.
  - repeat constructor.
  - intros h n [= <-] ->%list_elem_of_singleton. lia.
  - intros h s _ Hs. now apply Hnone in Hs.
  - intros s t Hs. now apply Hnone in Hs.
  - right. cbn. constructor.
  - reflexivity.
  - apply Hnone.
Qed.

(** Along a walk from the start, as long as every state met is explored its
    label is at most the number of steps taken; the first state that is not
    explored is pending in the queue, with such a label. *)
Lemma walk_labels (maze : MazeData) (q : list Node) (L : State -> Z) (p : list State) :
  (forall s t, explored maze s -> passable maze0 t -> adjacent s t ->
     (explored maze t \/ t ∈ state <$> q) /\ L t <= L s + 1) ->
  (explored maze (_start this0) \/ _start this0 ∈ state <$> q) ->
  L (_start this0) = 0 ->
  isPath maze0 p -> head p = Some (_start this0) ->
  forall i s, p !! i = Some s ->
    (exists j t, (j <= i)%nat /\ p !! j = Some t /\ t ∈ state <$> q /\ L t <= Z.of_nat j)
    \/ (explored maze s /\ L s <= Z.of_nat i).
Proof.
  intros Hclo Hst HL0 Hp Hhead i. induction i as [|i IH]; intros s Hs.
  - rewrite head_lookup in Hhead. assert (s = _start this0) as -> by congruence.
    destruct Hst as [He|Hq]; [right; split; [exact He|lia]|].
    left. exists 0%nat, (_start this0). repeat split; auto. lia.
  - destruct (lookup_lt_is_Some_2 p i) as [r Hr].
    { apply lookup_lt_Some in Hs. lia. }
    destruct (IH r Hr) as [(j & t & Hj & Hpj & Htq & HLt)|[He HLr]].
    + left. exists j, t. repeat split; auto.
    + pose proof (isPath_lookup _ _ _ _ Hp Hs) as Hpass.
      pose proof (isPath_adjacent _ _ _ _ _ Hp Hr Hs) as Hadj.
      destruct (Hclo r s He Hpass Hadj) as [[He'|Hq] Hle].
      * right. split; [exact He'|lia].
      * left. exists (S i), s. repeat split; auto. lia.
Qed.
End BreadthFirst.

(** No cell of the grid carries the mark [Explored]: the state of a grid
    that was built from a template or reset. *)
Definition unmarked (maze : MazeData) : Prop :=
  Forall (Forall (fun c => MazeCell.state c <> Explored)) maze.

Lemma unmarked_stateAt (maze : MazeData) s : unmarked maze -> ~ explored maze s.
Proof.
  unfold unmarked, explored, stateAt. intros Hun.
  destruct (cellAt maze s) as [c|e] eqn:Hc; [|discriminate].
  apply cellAt_Ok in Hc as (_ & _ & row & Hrow & Hc).
  rewrite Forall_lookup in Hun. specialize (Hun _ _ Hrow).
  rewrite Forall_lookup in Hun. specialize (Hun _ _ Hc). congruence.
Qed.

Lemma reset_unmarked {F : Type} (app : App F) : unmarked (mazeData (store (reset app))).
Proof.
  unfold reset, unmarked. cbn [store mazeData].
  apply List.Forall_forall. intros row (row0 & <- & _)%in_map_iff.
  apply List.Forall_forall. intros c (c0 & <- & _)%in_map_iff.
  unfold resetCell. cbn. now destruct (bool_decide _).
Qed.

Lemma mapM_Forall {A B} (f : A -> result B) (P : B -> Prop) (l : list A) r :
  (forall a b, f a = Ok b -> P b) -> mapM f l = Ok r -> Forall P r.
Proof.
  intros Hf. revert r. induction l as [|a l IH]; intros r Hr.
  - injection Hr as <-. constructor.
  - cbn [mapM] in Hr. destruct (f a) as [b|] eqn:Hb; [|discriminate].
    cbn [bind] in Hr. destruct (mapM f l) as [r'|]; [|discriminate].
    injection Hr as <-. constructor; eauto.
Qed.

Lemma buildMaze_unmarked template (maze : MazeData) :
  buildMaze template = Ok maze -> unmarked maze.
Proof.
  unfold buildMaze, unmarked. apply mapM_Forall. intros line row.
  apply mapM_Forall. intros ch c. unfold parseChar.
  repeat (destruct (Ascii.eqb ch _); [intros [= <-]; discriminate|]).
  discriminate.
Qed.

Lemma typeAt_inBounds (maze : MazeData) s ty :
  rectangular maze -> typeAt maze s = Some ty -> inBounds maze s.
Proof.
  intros Hrect. unfold typeAt. destruct (cellAt maze s) as [c|e] eqn:Hc; [|discriminate].
  intros _. eapply cellAt_Ok_inBounds; eauto.
Qed.

Lemma placesOf_unique ty (maze : MazeData) s t :
  rectangular maze -> placesOf ty maze = [t] -> typeAt maze s = Some ty -> s = t.
Proof.
  intros Hrect Hp Hs.
  assert (Hin : s ∈ placesOf ty maze).
  { apply placesOf_elem. split; [eapply typeAt_inBounds; eauto|exact Hs]. }
  rewrite Hp in Hin. now apply list_elem_of_singleton in Hin.
Qed.

Lemma edges_rev p : edges (rev p) = edges p.
Proof. unfold edges. now rewrite length_rev. Qed.

Lemma connects_chain (maze0 : MazeData) this0 node :
  goodNode maze0 this0 node ->
  connects maze0 (_start this0) (state node) (rev (chain node)).
Proof.
  intros (Hp & Hlast & _). split; [now apply isPath_rev|]. split.
  - rewrite rev_alt. change (rev_append ?l []) with (reverse l).
    rewrite head_reverse. exact Hlast.
  - rewrite rev_alt. change (rev_append ?l []) with (reverse l).
    rewrite last_reverse. apply chain_head.
Qed.

(** The call of [next] that ends a search: the frontier was empty, or the
    node removed sits on the goal. *)
Lemma Step_terminal {F : Type} `{FrontierLaws F} (maze0 : MazeData) this0
      (c c' : Closure F) st st' :
  Step maze0 this0 c st c' st' ->
  solutionType st = Continue -> solutionType st' <> Continue ->
  (nodes (frontier c) = [] /\ solutionType st' = NoSolution)
  \/ (exists node fr,
        remove (frontier c) = Ok (Some node, fr)
        /\ nodes (frontier c) ≡ₚ node :: nodes fr
        /\ state node = _goal this0
        /\ solutionType st' = FoundSolution
        /\ forall s, stateAt (mazeData st') s =
             if decide (s ∈ chain node) then Some SolutionPath
             else stateAt (mazeData st) s).
Proof.
  intros Hstep Hcont Hterm.
  destruct Hstep as [Hnil|node fr maze' Hrm Hperm Hgl Hty Hst
                    |node fr maze1 maze' Hrm Hperm Hgl Hm1 Hty Hst].
  - left. auto.
  - right. exists node, fr. cbn [solutionType mazeData]. auto.
  - cbn [solutionType] in Hterm. contradiction.
Qed.

(** C2.  On a rectangular grid with one start cell and one goal cell, no
    cell of which is marked explored when the search starts, and in which
    some walk over non-wall cells leads from the start to the goal,
    breadth-first search (the queue frontier) starts and, stepped by the
    timer, ends with outcome [FoundSolution].  The node removed by the last
    step sits on the goal; its parent chain, read from the root, is a walk
    from the start to the goal over non-wall cells, every cell of which the
    step marks [SolutionPath]; and no walk from the start to the goal has
    fewer edges. *)
Theorem bfs_shortest_path (app0 : App QueueFrontier.t) (maze0 : MazeData)
        (start goal : State) (p : list State) :
  mazeData (store app0) = maze0 ->
  rectangular maze0 ->
  countType Start maze0 = 1%nat -> countType Goal maze0 = 1%nat ->
  typeAt maze0 start = Some Start -> typeAt maze0 goal = Some Goal ->
  unmarked maze0 ->
  connects maze0 start goal p ->
  exists app1 k appk ck node fr appf,
    doStart app0 = Ok app1
    /\ ticks k app1 = Ok appk
    /\ solutionType (store appk) = Continue
    /\ demoRunner appk = Some ck
    /\ remove (frontier ck) = Ok (Some node, fr)
    /\ demoRunner_call appk = Ok appf
    /\ ticks (height maze0 * width maze0 + 1) app1 = Ok appf
    /\ solutionType (store appf) = FoundSolution
    /\ connects maze0 start goal (rev (chain node))
    /\ (forall s, s ∈ chain node ->
          stateAt (mazeData (store appf)) s = Some SolutionPath)
    /\ (forall q, connects maze0 start goal q -> edges (rev (chain node)) <= edges q).
Proof.
  intros <- Hrect Hs Hg Hstart Hgoal Hun Hpath.
  pose proof (doStart_spec app0 Hrect) as Hspec.
  destruct (doStart app0) as [app1|e]; [|tauto].
  destruct Hspec as (this0 & c1 & Hps & Hpg & Hdims & Hpass & Hdr & Hinv & Hcont
                     & Hint & _ & Hst1 & Hc1).
  set (maze0 := mazeData (store app0)) in *.
  assert (start = _start this0) as -> by (eapply placesOf_unique; eauto).
  assert (goal = _goal this0) as -> by (eapply placesOf_unique; eauto).
  assert (HB1 : BInv maze0 this0 c1 (store app1)).
  { eapply (BInv_initial maze0 this0 c1 (store app1) maze0); eauto.
    intros s. now apply unmarked_stateAt. }
  assert (Hbound : (unexplored maze0 (mazeData (store app1))
                    < height maze0 * width maze0 + 1)%nat).
  { pose proof (unexplored_bound maze0 (mazeData (store app1))). lia. }
  destruct (run_to_end maze0 this0 Hrect Hdims (BInv maze0 this0)
              (fun _ _ HB => proj1 HB) (BInv_Step maze0 this0) _ app1 c1
              Hdr HB1 Hcont Hint Hbound)
    as (k & appk & ck & c' & appf & _ & Hticksk & Hdrk & HBk & Hck & Hstep & Hterm
        & Hcall & _ & Hticks).
  destruct HBk as [Hinvk (L & HL & Hsort & Hbd & Hexp & Hclo & [Hst0 HL0] & Hngoal)].
  (* every walk from the start ends on a state met by the search *)
  assert (Hwalk : forall q, connects maze0 (_start this0) (_goal this0) q ->
            exists j t, (Z.of_nat j <= edges q) /\ t ∈ state <$> queue ck
                        /\ L t <= Z.of_nat j).
  { intros q (Hq & Hqh & Hql). rewrite last_lookup in Hql.
    destruct (walk_labels maze0 this0 (mazeData (store appk)) (queue ck) L q
                Hclo Hst0 HL0 Hq Hqh _ _ Hql)
      as [(j & t & Hj & _ & Htq & HLt)|[He _]]; [|contradiction].
    apply lookup_lt_Some in Hql.
    exists j, t. split; [unfold edges; lia|auto]. }
  destruct (Step_terminal maze0 this0 ck c' _ _ Hstep Hck Hterm)
    as [[Hnil _]|(node & fr & Hrm & Hperm & Hgl & Hfound & Hst)].
  - (* the frontier cannot run empty while a walk to the goal exists *)
    exfalso. destruct (Hwalk p Hpath) as (j & t & _ & Htq & _).
    unfold queue in Htq. change (QueueFrontier._frontier (frontier ck))
      with (nodes (frontier ck)) in Htq. rewrite Hnil in Htq. inversion Htq.
  - exists app1, k, appk, ck, node, fr, appf.
    assert (Hnode : node ∈ nodes (frontier ck)) by (rewrite Hperm; constructor).
    destruct Hinvk as (_ & _ & _ & Hnodes).
    destruct (Hnodes node Hnode) as [Hgood _].
    pose proof (queue_remove _ _ _ Hrm) as Hq. fold (queue ck) in Hq.
    split; [reflexivity|]. split; [exact Hticksk|]. split; [exact Hck|].
    split; [exact Hdrk|]. split; [exact Hrm|]. split; [exact Hcall|].
    split; [exact Hticks|]. split; [exact Hfound|].
    split; [rewrite <- Hgl; now apply connects_chain|]. split.
    + intros s Hin. rewrite Hst. now rewrite decide_True.
    + intros q Hq0. destruct (Hwalk q Hq0) as (j & t & Hj & Htq & HLt).
      rewrite edges_rev. destruct Hgood as (_ & _ & <-).
      apply list_elem_of_fmap in Htq as (n & -> & Hn).
      rewrite (HL n Hn) in HLt. rewrite Hq in Hn, Hsort.
      apply StronglySorted_cons in Hsort as [Hmin _].
      apply elem_of_cons in Hn as [->|Hn]; [lia|].
      rewrite Forall_forall in Hmin. specialize (Hmin n Hn). unfold cheaper in Hmin. lia.
Qed.

(** Closes the side conditions of a concrete walk in a concrete grid. *)
Ltac concrete_walk :=
  unfold connects; cbn [isPath head last];
  unfold passable, inBounds, adjacent, calcManhattanDistance; cbn [fst snd];
  repeat match goal with
         | |- _ /\ _ => split
         | |- True => exact I
         | |- _ <> _ => vm_compute; discriminate
         | |- _ = _ => reflexivity
         | |- _ <= _ => vm_compute; discriminate
         | |- _ < _ => vm_compute; reflexivity
         end.

(** A fresh 2 by 2 grid: start top left, goal bottom right, no wall. *)
Definition open_grid : MazeData :=
  [ [MazeCell.mk Start Unexplored None; MazeCell.mk Space Unexplored None];
    [MazeCell.mk Space Unexplored None; MazeCell.mk Goal Unexplored None] ].

Lemma bfs_shortest_path_witness :
  exists (app1 : App QueueFrontier.t) k appk ck node fr appf,
    doStart (mkApp (mkStore open_grid 0 Pending) Ready false None) = Ok app1
    /\ ticks k app1 = Ok appk
    /\ solutionType (store appk) = Continue
    /\ demoRunner appk = Some ck
    /\ remove (frontier ck) = Ok (Some node, fr)
    /\ demoRunner_call appk = Ok appf
    /\ ticks (height open_grid * width open_grid + 1) app1 = Ok appf
    /\ solutionType (store appf) = FoundSolution
    /\ connects open_grid (0, 0) (1, 1) (rev (chain node))
    /\ (forall s, s ∈ chain node ->
          stateAt (mazeData (store appf)) s = Some SolutionPath)
    /\ (forall q, connects open_grid (0, 0) (1, 1) q -> edges (rev (chain node)) <= edges q).
Proof.
  apply (bfs_shortest_path (mkApp (mkStore open_grid 0 Pending) Ready false None)
           open_grid (0, 0) (1, 1) [(0, 0); (0, 1); (1, 1)]).
  - reflexivity.
  - split; [discriminate|]. repeat constructor.
  - reflexivity.
  - reflexivity.
  - reflexivity.
  - reflexivity.
  - repeat constructor; discriminate.
  - concrete_walk.
Defined.

(** A grid of one row, start, space, goal, whose middle cell still carries
    the mark [Explored] of an earlier search. *)
Definition stale_grid : MazeData :=
  [ [MazeCell.mk Start Unexplored None; MazeCell.mk Space Explored None;
     MazeCell.mk Goal Unexplored None] ].

(** C2 without the condition on marks fails.  [stale_grid] is rectangular
    with one start and one goal, and the walk along its row connects them;
    yet breadth-first search ends with [NoSolution] at its second step, and
    the timer, disarmed, takes no further step. *)
Lemma bfs_stale_marks_no_solution :
  rectangular stale_grid
  /\ countType Start stale_grid = 1%nat /\ countType Goal stale_grid = 1%nat
  /\ connects stale_grid (0, 0) (0, 2) [(0, 0); (0, 1); (0, 2)]
  /\ exists (app1 appf : App QueueFrontier.t),
       doStart (mkApp (mkStore stale_grid 0 Pending) Ready false None) = Ok app1
       /\ ticks 2 app1 = Ok appf
       /\ solutionType (store appf) = NoSolution
       /\ forall n, ticks n appf = Ok appf.
Proof.
  split; [split; [discriminate|repeat constructor]|].
  split; [reflexivity|]. split; [reflexivity|].
  split; [concrete_walk|].
  eexists _, _. split; [reflexivity|]. split; [reflexivity|].
  split; [reflexivity|]. intros n. now apply ticks_stopped.
Qed.

(** ** A-star: the path returned can be longer than the shortest *)

(** The template of a grid with five rows of three cells: the start in the
    middle of the first row, the goal at the left end of the last. *)
Definition detour_template : string :=
  (" A " ++ String LF " # " ++ String LF "   " ++ String LF "## " ++ String LF "B  ")%string.

(** The search of that grid with the A-star frontier, after [n] steps. *)
Definition detour_search (n : nat) : result (App AStarFrontier.t) :=
  let* maze := buildMaze detour_template in
  let* app := doStart (mkApp (mkStore maze 0 Pending) Ready false None) in
  ticks n app.

Definition short_walk : list State :=
  [(0, 1); (0, 2); (1, 2); (2, 2); (3, 2); (4, 2); (4, 1); (4, 0)].

Definition long_walk : list State :=
  [(0, 1); (0, 0); (1, 0); (2, 0); (2, 1); (2, 2); (3, 2); (4, 2); (4, 1); (4, 0)].

(** C1 (the code departs from it).  On the grid of [detour_template], a
    rectangular grid with one start and one goal and no mark, a walk of
    seven edges leads from the start to the goal.  The A-star search ends
    with [FoundSolution] at its twelfth step; the node it removes there sits
    on the goal with path cost nine, and its parent chain is the walk of
    nine edges around the other side.  The cell [(2, 2)] was first reached
    from [(2, 1)] at cost five; when [(1, 2)] was expanded later, at cost
    two, the cell was pending in the frontier and [next] passed it over,
    so its node kept the larger cost. *)
Theorem astar_returns_longer_path :
  exists maze0 appk ck node fr appf,
    buildMaze detour_template = Ok maze0
    /\ rectangular maze0
    /\ countType Start maze0 = 1%nat /\ countType Goal maze0 = 1%nat
    /\ unmarked maze0
    /\ typeAt maze0 (0, 1) = Some Start /\ typeAt maze0 (4, 0) = Some Goal
    /\ connects maze0 (0, 1) (4, 0) short_walk
    /\ edges short_walk = 7
    /\ detour_search 11 = Ok appk
    /\ solutionType (store appk) = Continue
    /\ demoRunner appk = Some ck
    /\ remove (frontier ck) = Ok (Some node, fr)
    /\ state node = (4, 0)
    /\ pathCost node = 9
    /\ detour_search 12 = Ok appf
    /\ solutionType (store appf) = FoundSolution
    /\ rev (chain node) = long_walk
    /\ edges (rev (chain node)) = 9.
Proof.
  eexists _, _, _, _, _, _.
  split; [vm_compute; reflexivity|].
  split; [split; [discriminate|repeat constructor]|].
  split; [reflexivity|]. split; [reflexivity|].
  split; [repeat constructor; discriminate|].
  split; [reflexivity|]. split; [reflexivity|].
  split; [unfold short_walk; concrete_walk|].
  split; [reflexivity|].
  split; [vm_compute; reflexivity|].
  split; [reflexivity|]. split; [reflexivity|].
  split; [vm_compute; reflexivity|].
  split; [reflexivity|]. split; [reflexivity|].
  split; [vm_compute; reflexivity|].
  split; [reflexivity|]. split; reflexivity.
Qed.
(** * Further properties of the embedded program *)

(** ** The queue as a container *)

Section HeapContents.
Context {T : Type}.
Variable cmp : T -> T -> bool.

Lemma push_perm (h values : list T) :
  (PriorityQueue.push cmp h values).2 ≡ₚ h ++ values.
Proof.
  unfold PriorityQueue.push. cbn [snd]. revert h.
  induction values as [|v values IH]; intros h; cbn [fold_left].
  - now rewrite app_nil_r.
  - rewrite IH, push1_perm. rewrite (Permutation_middle h values v).
    now rewrite <- Permutation_middle.
Qed.

(** X1.  [push(...values)] keeps what the queue held and adds the values,
    each once, whatever the comparator; the number it returns is the new
    size. *)
Theorem push_adds_values (h values : list T) :
  (PriorityQueue.push cmp h values).2 ≡ₚ h ++ values
  /\ (PriorityQueue.push cmp h values).1 = (length h + length values)%nat
  /\ PriorityQueue.size (PriorityQueue.push cmp h values).2
     = (PriorityQueue.push cmp h values).1.
Proof.
  split; [apply push_perm|]. split; [|reflexivity].
  change ((PriorityQueue.push cmp h values).1)
    with (length (PriorityQueue.push cmp h values).2).
  now rewrite push_perm, length_app.
Qed.

(** X2.  [pop()] on the empty queue returns [undefined] and leaves the queue
    empty; on any other queue it returns the element at the root and takes
    out that one element, keeping every other, whatever the comparator. *)
Theorem pop_takes_root (h : list T) :
  match h with
  | [] => PriorityQueue.pop cmp h = (None, [])
  | r :: _ =>
      (PriorityQueue.pop cmp h).1 = Some r
      /\ r :: (PriorityQueue.pop cmp h).2 ≡ₚ h
      /\ PriorityQueue.size (PriorityQueue.pop cmp h).2 = (PriorityQueue.size h - 1)%nat
  end.
Proof.
  destruct h as [|r h0]; [reflexivity|].
  destruct (pop_perm cmp (r :: h0) r h0 eq_refl) as (h' & Hpop & Hperm).
  rewrite Hpop. cbn [fst snd]. split; [reflexivity|]. split; [exact Hperm|].
  unfold PriorityQueue.size. apply Permutation_length in Hperm. cbn [length] in *. lia.
Qed.

(** [while (!queue.isEmpty()) out.push(queue.pop())], for a queue of at most
    [n] elements: what comes out, in order, and the queue left. *)
Fixpoint popAll (n : nat) (h : list T) : list T * list T :=
  match n with
  | O => ([], h)
  | S n' =>
      if PriorityQueue.isEmpty h then ([], h)
      else
        let '(v, h') := PriorityQueue.pop cmp h in
        let '(out, rest) := popAll n' h' in
        (match v with Some x => x :: out | None => out end, rest)
  end.
End HeapContents.

Section HeapSort.
Context {T : Type} (cmp : T -> T -> bool) `{!StrictWeakOrder cmp}.

Lemma popAll_sorted (n : nat) (h : list T) :
  heap_ordered cmp h -> (length h <= n)%nat ->
  (popAll cmp n h).2 = []
  /\ (popAll cmp n h).1 ≡ₚ h
  /\ StronglySorted (fun a b => cmp b a = false) (popAll cmp n h).1.
Proof.
  revert h. induction n as [|n IH]; intros h Hh Hlen.
  - destruct h; [|cbn in Hlen; lia]. cbn. repeat split; constructor.
  - cbn [popAll]. destruct h as [|r h0]; [cbn; repeat split; constructor|].
    change (PriorityQueue.isEmpty (r :: h0)) with false. cbv iota.
    destruct (pop_perm cmp (r :: h0) r h0 eq_refl) as (h' & Hpop & Hperm).
    pose proof (pop_ordered cmp (r :: h0) Hh) as Hord.
    rewrite Hpop in *. cbn [snd] in Hord.
    destruct (IH h' Hord) as (Hrest & Hout & Hsorted).
    { apply Permutation_length in Hperm. cbn [length] in *. lia. }
    destruct (popAll cmp n h') as [out rest]. cbn [fst snd] in *.
    split; [exact Hrest|]. split; [now rewrite Hout|].
    constructor; [exact Hsorted|].
    apply List.Forall_forall. intros x Hx.
    assert (Hin : x ∈ r :: h0).
    { rewrite <- Hperm, <- Hout. right. now apply list_elem_of_In. }
    apply list_elem_of_lookup in Hin as [i Hi].
    eapply (root_minimal cmp (r :: h0) r); eauto.
Qed.

Lemma push_popAll_sorts (values : list T) :
  let h := (PriorityQueue.push cmp [] values).2 in
  let out := (popAll cmp (length values) h).1 in
  out ≡ₚ values
  /\ StronglySorted (fun a b => cmp b a = false) out
  /\ (popAll cmp (length values) h).2 = [].
Proof.
  intros h out.
  assert (Hperm : h ≡ₚ values) by apply (push_perm cmp [] values).
  assert (Hh : heap_ordered cmp h).
  { apply push_ordered; [assumption|]. intros i _ a b Ha. now rewrite lookup_nil in Ha. }
  destruct (popAll_sorted (length values) h Hh) as (Hrest & Hout & Hsorted).
  { now rewrite Hperm. }
  split; [now rewrite <- Hperm|]. split; assumption.
Qed.

(** X3.  Heap sort: values pushed into a new queue and popped until it is
    empty come out each once and in order, no value strictly before one that
    came out earlier; the queue ends empty. *)
Theorem push_then_pop_all_sorts (values : list T) :
  let h := (PriorityQueue.push cmp [] values).2 in
  let out := (popAll cmp (length values) h).1 in
  out ≡ₚ values
  /\ StronglySorted (fun a b => cmp b a = false) out
  /\ (popAll cmp (length values) h).2 = [].
Proof. exact (push_popAll_sorts values). Qed.

(** X4.  [replace(value)] on a queue reached by pushes and pops returns the
    element at the root, puts the value in its place and leaves the array
    heap ordered; on the empty queue it returns [undefined] and the queue
    then holds the value alone. *)
Theorem replace_swaps_root (ops : list (heap_op (T := T))) (value : T) :
  let h := run_ops cmp ops in
  (PriorityQueue.replace cmp h value).1 = head h
  /\ (PriorityQueue.replace cmp h value).2 ≡ₚ value :: tail h
  /\ heap_ordered cmp (PriorityQueue.replace cmp h value).2.
Proof.
  intros h. pose proof (run_ops_ordered cmp ops) as Hh. fold h in Hh.
  unfold PriorityQueue.replace, PriorityQueue.peek, PriorityQueue._siftDown,
    PriorityQueue.top. cbn [fst snd].
  split; [now destruct h|]. split.
  - rewrite siftDown_loop_perm. now destruct h.
  - apply siftDown_loop_ordered; [assumption|]. split; [|intros; lia].
    intros i Hi Hne a b Ha Hb. pose proof (parent_lt i Hi) as Hpi.
    destruct h as [|r h0].
    + apply lookup_lt_Some in Ha. cbn [length] in Ha. lia.
    + cbn [insert list_insert] in Ha, Hb.
      destruct i as [|i]; [lia|].
      destruct (PriorityQueue.parent (S i)) as [|p] eqn:Hp; [congruence|].
      cbn in Ha, Hb. apply (Hh (S i) Hi a b); [exact Ha|]. now rewrite Hp.
Qed.
End HeapSort.

Lemma push_then_pop_all_sorts_witness :
  let h := (PriorityQueue.push Z.ltb [] [5; 3; 8; 1; 3]).2 in
  let out := (popAll Z.ltb 5 h).1 in
  out = [1; 3; 3; 5; 8] /\ out ≡ₚ [5; 3; 8; 1; 3].
Proof.
  split; [reflexivity|].
  exact (proj1 (push_then_pop_all_sorts Z.ltb (StrictWeakOrder0 := key_lt_StrictWeakOrder id)
                  [5; 3; 8; 1; 3])).
Defined.

Lemma replace_swaps_root_witness :
  let h := run_ops Z.ltb [Push [5; 3; 8; 1]] in
  h = [1; 3; 8; 5]
  /\ PriorityQueue.replace Z.ltb h 6 = (Some 1, [3; 5; 8; 6])
  /\ heap_ordered Z.ltb (PriorityQueue.replace Z.ltb h 6).2.
Proof.
  split; [reflexivity|]. split; [reflexivity|].
  exact (proj2 (proj2 (replace_swaps_root Z.ltb (StrictWeakOrder0 := key_lt_StrictWeakOrder id)
                         [Push [5; 3; 8; 1]] 6))).
Defined.

(** ** Positions in the heap *)

(** X5.  On every position that a heap of fewer than [2^30] elements uses,
    the 32-bit operators compute what halving and doubling on natural
    numbers compute: [left(i) = 2i + 1], [right(i) = 2i + 2], and for
    [i > 0], [parent(i)] is the half of [i - 1], rounded down, so that the
    parent of both children of [i] is [i].  The bound is sharp for [left]:
    at [2^30] the shift wraps to a negative number. *)
Theorem heap_positions_32bit (i : nat) :
  (Z.of_nat i < 2 ^ 30 - 1 ->
     Int32.left (Z.of_nat i) = Z.of_nat (PriorityQueue.left i)
     /\ Int32.right (Z.of_nat i) = Z.of_nat (PriorityQueue.right i)
     /\ Int32.left (Z.of_nat i) = 2 * Z.of_nat i + 1
     /\ Int32.right (Z.of_nat i) = 2 * Z.of_nat i + 2
     /\ Int32.parent (Int32.left (Z.of_nat i)) = Z.of_nat i
     /\ Int32.parent (Int32.right (Z.of_nat i)) = Z.of_nat i)
  /\ (0 < Z.of_nat i < 2 ^ 32 - 1 ->
        Int32.parent (Z.of_nat i) = Z.of_nat (PriorityQueue.parent i)
        /\ Int32.parent (Z.of_nat i) = (Z.of_nat i - 1) / 2)
  /\ Int32.parent 0 = -1
  /\ Int32.left (2 ^ 30) = 1 - 2 ^ 31.
Proof.
  assert (Hmod : forall z, 0 <= z < 2 ^ 32 -> Int32.toUint32 z = z).
  { intros z Hz. unfold Int32.toUint32. now apply Z.mod_small. }
  assert (Hleft : forall z, 0 <= z < 2 ^ 30 -> Int32.left z = 2 * z + 1).
  { intros z Hz. unfold Int32.left, Int32.shl, Int32.toInt32.
    rewrite (Hmod z) by lia. change (Int32.toUint32 1 mod 32) with 1.
    rewrite Z.shiftl_mul_pow2 by lia. rewrite Hmod by lia.
    destruct (Z.ltb_spec (z * 2 ^ 1) (2 ^ 31)); lia. }
  assert (Hright : forall z, 0 <= z < 2 ^ 30 - 1 -> Int32.right z = 2 * z + 2).
  { intros z Hz. unfold Int32.right, Int32.shl, Int32.toInt32.
    rewrite (Hmod (z + 1)) by lia. change (Int32.toUint32 1 mod 32) with 1.
    rewrite Z.shiftl_mul_pow2 by lia. rewrite Hmod by lia.
    destruct (Z.ltb_spec ((z + 1) * 2 ^ 1) (2 ^ 31)); lia. }
  assert (Hparent : forall z, 0 <= z < 2 ^ 32 - 1 -> Int32.parent z = (z + 1) / 2 - 1).
  { intros z Hz. unfold Int32.parent, Int32.ushr.
    rewrite (Hmod (z + 1)) by lia. change (Int32.toUint32 1 mod 32) with 1.
    now rewrite Z.shiftr_div_pow2 by lia. }
  split; [|split; [|split; [reflexivity|reflexivity]]].
  - intros Hi. rewrite left_spec, right_spec.
    rewrite Hleft, Hright by lia.
    rewrite !Hparent by lia.
    repeat split; try lia.
    + replace (2 * Z.of_nat i + 1 + 1) with ((Z.of_nat i + 1) * 2) by lia.
      rewrite Z.div_mul by lia. lia.
    + replace (2 * Z.of_nat i + 2 + 1) with (1 + (Z.of_nat i + 1) * 2) by lia.
      rewrite Z.div_add by lia. change (1 / 2) with 0. lia.
  - intros Hi. rewrite Hparent by lia. rewrite parent_spec.
    assert (H2 : (Z.of_nat i + 1) / 2 - 1 = (Z.of_nat i - 1) / 2).
    { replace (Z.of_nat i + 1) with (Z.of_nat i - 1 + 1 * 2) by lia.
      rewrite Z.div_add by lia. lia. }
    split; [|exact H2].
    rewrite Nat2Z.inj_sub.
    + rewrite Nat2Z.inj_div, Nat2Z.inj_add. reflexivity.
    + apply Nat.div_le_lower_bound; lia.
Qed.

Lemma heap_positions_32bit_witness :
  Int32.left 5 = 11 /\ Int32.right 5 = 12
  /\ Int32.parent 11 = 5 /\ Int32.parent 12 = 5.
Proof.
  destruct (heap_positions_32bit 5) as [H _].
  destruct H as (_ & _ & Hl & Hr & Hpl & Hpr); [reflexivity|].
  rewrite Hl in Hpl. rewrite Hr in Hpr. auto.
Defined.

(** ** The order in which the frontiers hand out their nodes *)

(** [frontier.add] for each node of a list, in order. *)
Definition addNodes {F : Type} `{IFrontier F} (l : list Node) (f : F) : F :=
  fold_left (fun f n => add n f) l f.

(** [n] calls of [frontier.remove()]: what they return, in order, and the
    frontier left. *)
Fixpoint removeN {F : Type} `{IFrontier F} (n : nat) (f : F)
  : result (list (option Node) * F) :=
  match n with
  | O => Ok ([], f)
  | S n' =>
      let* (v, f') := remove f in
      let* (out, rest) := removeN n' f' in
      Ok (v :: out, rest)
  end.

Lemma stack_addNodes (l : list Node) (f : StackFrontier.t) :
  addNodes l f = StackFrontier.mk (StackFrontier._frontier f ++ l).
Proof.
  unfold addNodes. revert f. induction l as [|n l IH]; intros [q]; cbn [fold_left].
  - cbn. now rewrite app_nil_r.
  - rewrite IH. cbn. now rewrite <- app_assoc.
Qed.

Lemma queue_addNodes (l : list Node) (f : QueueFrontier.t) :
  addNodes l f = QueueFrontier.mk (QueueFrontier._frontier f ++ l).
Proof.
  unfold addNodes. revert f. induction l as [|n l IH]; intros [q]; cbn [fold_left].
  - cbn. now rewrite app_nil_r.
  - rewrite IH. cbn. now rewrite <- app_assoc.
Qed.

(** X6.  The stack frontier is last in, first out: after adding nodes, as
    many calls of [remove] return them in the reverse order and leave the
    frontier as it was before the additions; [remove] right after [add]
    returns the node just added. *)
Theorem stack_frontier_lifo (l : list Node) (f : StackFrontier.t) :
  removeN (length l) (addNodes l f) = Ok (Some <$> rev l, f)
  /\ forall n, remove (add n f) = Ok (Some n, f).
Proof.
  assert (Hone : forall n (g : StackFrontier.t), remove (add n g) = Ok (Some n, g)).
  { intros n [q]. cbn. unfold StackFrontier.remove, StackFrontier.empty. cbn.
    rewrite length_app. cbn [length].
    replace (length q + 1 =? 0)%nat with false by (symmetry; apply Nat.eqb_neq; lia).
    now rewrite last_snoc, removelast_last. }
  split; [|intros n; apply Hone].
  induction l as [|n l IH] using rev_ind; [reflexivity|].
  rewrite length_app, Nat.add_comm. cbn [length Nat.add removeN].
  unfold addNodes in *. rewrite fold_left_app. cbn [fold_left].
  rewrite Hone. cbn [bind]. rewrite IH. cbn [bind].
  now rewrite rev_unit.
Qed.

(** X7.  The queue frontier is first in, first out: the nodes it holds come
    out in the order in which they were added, those added to a new frontier
    in the order of the additions. *)
Theorem queue_frontier_fifo (l : list Node) (f : QueueFrontier.t) :
  removeN (length (QueueFrontier._frontier f) + length l) (addNodes l f)
  = Ok (Some <$> (QueueFrontier._frontier f ++ l), create)
  /\ removeN (length l) (addNodes (F := QueueFrontier.t) l create) = Ok (Some <$> l, create).
Proof.
  assert (Hall : forall q : list Node,
            removeN (length q) (QueueFrontier.mk q) = Ok (Some <$> q, create)).
  { induction q as [|n q IH]; [reflexivity|].
    cbn [length removeN]. cbn [remove QueueFrontier_IFrontier].
    unfold QueueFrontier.remove, QueueFrontier.empty. cbn.
    change (QueueFrontier.mk q) with (QueueFrontier.mk q).
    rewrite IH. reflexivity. }
  split.
  - rewrite queue_addNodes, <- length_app. apply Hall.
  - rewrite queue_addNodes. cbn. apply Hall.
Qed.

(** The heap-backed frontiers: additions are pushes, removals are pops. *)
Lemma greedy_addNodes (l : list Node) (f : GreedBestFrontier.t) :
  addNodes l f
  = GreedBestFrontier.mk
      (PriorityQueue.push GreedBestFrontier._comparator (GreedBestFrontier._frontier f) l).2.
Proof.
  unfold addNodes, PriorityQueue.push. cbn [snd]. revert f.
  induction l as [|n l IH]; intros [q]; [reflexivity|]. cbn [fold_left]. now rewrite IH.
Qed.

Lemma astar_addNodes (l : list Node) (f : AStarFrontier.t) :
  addNodes l f
  = AStarFrontier.mk
      (PriorityQueue.push AStarFrontier._comparator (AStarFrontier._frontier f) l).2.
Proof.
  unfold addNodes, PriorityQueue.push. cbn [snd]. revert f.
  induction l as [|n l IH]; intros [q]; [reflexivity|]. cbn [fold_left]. now rewrite IH.
Qed.

Lemma greedy_removeN (n : nat) (h : list Node) :
  length h = n ->
  removeN n (GreedBestFrontier.mk h)
  = Ok (Some <$> (popAll GreedBestFrontier._comparator n h).1, create).
Proof.
  revert h. induction n as [|n IH]; intros h Hlen.
  - destruct h; [reflexivity|discriminate].
  - destruct h as [|r h0]; [discriminate|].
    cbn [removeN popAll]. change (PriorityQueue.isEmpty (r :: h0)) with false. cbv iota.
    cbn [remove GreedBestFrontier_IFrontier]. unfold GreedBestFrontier.remove.
    cbn [GreedBestFrontier._frontier].
    destruct (pop_perm GreedBestFrontier._comparator (r :: h0) r h0 eq_refl)
      as (h' & Hpop & Hperm).
    rewrite Hpop. cbn [bind]. rewrite IH.
    + cbn [bind]. now destruct (popAll _ n h').
    + apply Permutation_length in Hperm. cbn [length] in *. lia.
Qed.

Lemma astar_removeN (n : nat) (h : list Node) :
  length h = n ->
  removeN n (AStarFrontier.mk h)
  = Ok (Some <$> (popAll AStarFrontier._comparator n h).1, create).
Proof.
  revert h. induction n as [|n IH]; intros h Hlen.
  - destruct h; [reflexivity|discriminate].
  - destruct h as [|r h0]; [discriminate|].
    cbn [removeN popAll]. change (PriorityQueue.isEmpty (r :: h0)) with false. cbv iota.
    cbn [remove AStarFrontier_IFrontier]. unfold AStarFrontier.remove.
    cbn [AStarFrontier._frontier].
    destruct (pop_perm AStarFrontier._comparator (r :: h0) r h0 eq_refl)
      as (h' & Hpop & Hperm).
    rewrite Hpop. cbn [bind]. rewrite IH.
    + cbn [bind]. now destruct (popAll _ n h').
    + apply Permutation_length in Hperm. cbn [length] in *. lia.
Qed.

Lemma sorted_by_key (key : Node -> Z) (l : list Node) :
  StronglySorted (fun a b => (key b <? key a) = false) l ->
  StronglySorted (fun a b => key a <= key b) l.
Proof.
  induction 1 as [|a l Hs IH Hall]; constructor; [exact IH|].
  eapply List.Forall_impl; [|exact Hall]. intros b Hb. now apply Z.ltb_ge in Hb.
Qed.

(** X8.  The greedy frontier hands out its nodes by Manhattan distance:
    nodes added to a new frontier come out each once, in an order in which
    the distance never decreases. *)
Theorem greedy_frontier_order (l : list Node) :
  exists out,
    removeN (length l) (addNodes (F := GreedBestFrontier.t) l create)
    = Ok (Some <$> out, create)
    /\ out ≡ₚ l
    /\ StronglySorted (fun a b => manhattanDistance a <= manhattanDistance b) out.
Proof.
  rewrite greedy_addNodes. cbn [create GreedBestFrontier_IFrontier GreedBestFrontier._frontier].
  pose proof (push_popAll_sorts GreedBestFrontier._comparator
                (StrictWeakOrder0 := key_lt_StrictWeakOrder GreedBestFrontier._h) l)
    as (Hperm & Hsorted & _). cbn zeta in *.
  eexists. split; [|split; [exact Hperm|]].
  - apply greedy_removeN.
    rewrite (push_perm GreedBestFrontier._comparator [] l). reflexivity.
  - now apply (sorted_by_key GreedBestFrontier._h).
Qed.

(** X9.  The A* frontier hands out its nodes by path cost plus Manhattan
    distance: nodes added to a new frontier come out each once, in an order
    in which that sum never decreases. *)
Theorem astar_frontier_order (l : list Node) :
  exists out,
    removeN (length l) (addNodes (F := AStarFrontier.t) l create)
    = Ok (Some <$> out, create)
    /\ out ≡ₚ l
    /\ StronglySorted
         (fun a b => pathCost a + manhattanDistance a <= pathCost b + manhattanDistance b)
         out.
Proof.
  rewrite astar_addNodes. cbn [create AStarFrontier_IFrontier AStarFrontier._frontier].
  pose proof (push_popAll_sorts AStarFrontier._comparator
                (StrictWeakOrder0 := key_lt_StrictWeakOrder AStarFrontier._f) l)
    as (Hperm & Hsorted & _). cbn zeta in *.
  eexists. split; [|split; [exact Hperm|]].
  - apply astar_removeN.
    rewrite (push_perm AStarFrontier._comparator [] l). reflexivity.
  - now apply (sorted_by_key AStarFrontier._f).
Qed.

(** ** Membership in a frontier *)

Lemma containers_state_add {F : Type} `{FrontierLaws F} (n : Node) (f : F) (s : State) :
  (containers_state s (add n f) = true <-> s = state n \/ containers_state s f = true)
  /\ empty (add n f) = false
  /\ containers_state s create = false
  /\ empty (create (F := F)) = true.
Proof.
  split; [|split; [|split]].
  - rewrite !containers_state_nodes, nodes_add. cbn [fmap list_fmap].
    now rewrite elem_of_cons.
  - destruct (empty (add n f)) eqn:He; [|reflexivity].
    apply empty_nodes in He. pose proof (nodes_add n f) as Hp.
    rewrite He in Hp. now apply Permutation_nil_cons in Hp.
  - destruct (containers_state s create) eqn:Hc; [|reflexivity].
    apply containers_state_nodes in Hc. rewrite nodes_create in Hc.
    now apply elem_of_nil in Hc.
  - apply empty_nodes, nodes_create.
Qed.

(** X10.  In each of the four frontier classes, [containers_state] after
    [add] answers yes for the state of the node added and otherwise as it
    did before; a frontier is not empty after [add]; a new frontier is empty
    and contains no state. *)
Theorem frontier_membership (n : Node) (s : State) :
  (forall f : StackFrontier.t,
     (containers_state s (add n f) = true <-> s = state n \/ containers_state s f = true)
     /\ empty (add n f) = false
     /\ containers_state s (create (F := StackFrontier.t)) = false
     /\ empty (create (F := StackFrontier.t)) = true)
  /\ (forall f : QueueFrontier.t,
     (containers_state s (add n f) = true <-> s = state n \/ containers_state s f = true)
     /\ empty (add n f) = false
     /\ containers_state s (create (F := QueueFrontier.t)) = false
     /\ empty (create (F := QueueFrontier.t)) = true)
  /\ (forall f : GreedBestFrontier.t,
     (containers_state s (add n f) = true <-> s = state n \/ containers_state s f = true)
     /\ empty (add n f) = false
     /\ containers_state s (create (F := GreedBestFrontier.t)) = false
     /\ empty (create (F := GreedBestFrontier.t)) = true)
  /\ (forall f : AStarFrontier.t,
     (containers_state s (add n f) = true <-> s = state n \/ containers_state s f = true)
     /\ empty (add n f) = false
     /\ containers_state s (create (F := AStarFrontier.t)) = false
     /\ empty (create (F := AStarFrontier.t)) = true).
Proof.
  split; [|split; [|split]]; intros f; apply containers_state_add.
Qed.

(** ** The heuristic *)

Lemma manhattan_metric (a b c : State) :
  0 <= calcManhattanDistance a b
  /\ (calcManhattanDistance a b = 0 <-> a = b)
  /\ calcManhattanDistance a b = calcManhattanDistance b a
  /\ calcManhattanDistance a c <= calcManhattanDistance a b + calcManhattanDistance b c.
Proof.
  destruct a as [a1 a2], b as [b1 b2], c as [c1 c2].
  unfold calcManhattanDistance. cbn [fst snd].
  repeat split; try lia.
  - intros H0. f_equal; lia.
  - intros [= -> ->]. lia.
Qed.


Lemma manhattan_walk (maze : MazeData) (g : State) (p : list State) :
  isPath maze p ->
  forall s, head p = Some s -> last p = Some g ->
  calcManhattanDistance s g <= edges p.
Proof.
  unfold edges.
  induction p as [|x p IH]; intros Hp s Hs Hg; [discriminate|].
  injection Hs as ->. destruct p as [|y p].
  - injection Hg as ->. cbn. pose proof (manhattan_metric g g g) as (_ & [_ H0] & _).
    rewrite H0 by reflexivity. lia.
  - cbn [isPath] in Hp. destruct Hp as (_ & Hadj & Hp).
    specialize (IH Hp y eq_refl Hg). cbn [head] in Hadj. unfold adjacent in Hadj.
    pose proof (manhattan_metric s y g) as (_ & _ & _ & Htri).
    cbn [length] in *. lia.
Qed.

(** X12.  The heuristic is admissible and consistent: the Manhattan distance
    from a cell to the goal is at most the number of edges of any walk over
    adjacent cells from it to the goal, and it changes by at most one
    between adjacent cells. *)
Theorem manhattan_admissible (maze : MazeData) (s t g : State) (p : list State) :
  (connects maze s g p -> calcManhattanDistance s g <= edges p)
  /\ (adjacent s t ->
        calcManhattanDistance s g <= 1 + calcManhattanDistance t g
        /\ calcManhattanDistance t g <= 1 + calcManhattanDistance s g).
Proof.
  split.
  - intros (Hp & Hs & Hg). eapply manhattan_walk; eauto.
  - unfold adjacent. intros Hadj.
    pose proof (manhattan_metric s t g) as (_ & _ & Hsym & Htri).
    pose proof (manhattan_metric t s g) as (_ & _ & _ & Htri').
    lia.
Qed.

Lemma manhattan_admissible_witness :
  calcManhattanDistance (0, 0) (1, 1) <= edges [(0, 0); (0, 1); (1, 1)].
Proof.
  apply (proj1 (manhattan_admissible open_grid (0, 0) (0, 1) (1, 1)
                  [(0, 0); (0, 1); (1, 1)])).
  concrete_walk.
Defined.

(** ** Reading and writing cells *)

(** X13.  A cell exists at [(row, col)] exactly when [row] is the index of a
    row and [col] an index into that row.  Where no cell exists,
    [setCellState], [setCellLabel] and [getCellState] throw a [TypeError].
    Where one exists they succeed: [getCellState] after [setCellState]
    returns the state written; [setCellState] changes the state of that cell
    and nothing else, [setCellLabel] its label and nothing else, and every
    other cell of the grid is as before. *)
Theorem cell_accessors (maze : MazeData) (s : State) (v : MazeCellState) (l : string) :
  ((exists c, cellAt maze s = Ok c)
   <-> exists row, 0 <= s.1 /\ maze !! Z.to_nat s.1 = Some row
                   /\ 0 <= s.2 < Z.of_nat (length row))
  /\ match cellAt maze s with
     | Ok c =>
         exists maze1 maze2,
           setCellState maze s v = Ok maze1
           /\ setCellLabel maze s l = Ok maze2
           /\ getCellState maze s = Ok (MazeCell.state c)
           /\ getCellState maze1 s = Ok v
           /\ cellAt maze1 s = Ok (MazeCell.mk (MazeCell.type c) v (MazeCell.label c))
           /\ cellAt maze2 s = Ok (MazeCell.mk (MazeCell.type c) (MazeCell.state c) (Some l))
           /\ forall t, t <> s ->
                cellAt maze1 t = cellAt maze t /\ cellAt maze2 t = cellAt maze t
     | Throw _ =>
         setCellState maze s v = Throw TypeError
         /\ setCellLabel maze s l = Throw TypeError
         /\ getCellState maze s = Throw TypeError
     end.
Proof.
  split.
  - split.
    + intros [c (H1 & H2 & row & Hrow & Hc)%cellAt_Ok]. exists row.
      apply lookup_lt_Some in Hc. repeat split; auto; lia.
    + intros (row & H1 & Hrow & H2 & Hlt).
      destruct (lookup_lt_is_Some_2 row (Z.to_nat s.2) ltac:(lia)) as [c Hc].
      exists c. apply cellAt_Ok. eauto.
  - destruct (cellAt maze s) as [c|e] eqn:Hc.
    + destruct (proj1 (updateCell_Ok
                  (fun c => MazeCell.mk (MazeCell.type c) v (MazeCell.label c)) maze s))
        as [maze1 Hm1]; [eauto|].
      destruct (proj1 (updateCell_Ok
                  (fun c => MazeCell.mk (MazeCell.type c) (MazeCell.state c) (Some l)) maze s))
        as [maze2 Hm2]; [eauto|].
      exists maze1, maze2. split; [exact Hm1|]. split; [exact Hm2|].
      pose proof (fun t => cellAt_updateCell _ _ _ _ _ t Hm1 Hc) as H1.
      pose proof (fun t => cellAt_updateCell _ _ _ _ _ t Hm2 Hc) as H2.
      unfold getCellState. rewrite Hc, (H1 s), (H2 s), !decide_True by reflexivity.
      repeat split; try reflexivity.
      * rewrite H1. now rewrite decide_False.
      * rewrite H2. now rewrite decide_False.
    + apply cellAt_Throw in Hc as Hc'. subst e.
      unfold setCellState, setCellLabel, getCellState, updateCell. rewrite Hc. auto.
Qed.

(** ** Templates *)

(** The characters of a cell. *)
Definition isCellChar (c : ascii) : bool :=
  Ascii.eqb c "#" || Ascii.eqb c "A" || Ascii.eqb c "B" || Ascii.eqb c " ".

(** A template that [buildMaze] accepts: cell characters and line feeds, and
    carriage returns only right before a line feed. *)
Fixpoint wellFormed (template : string) : bool :=
  match template with
  | EmptyString => true
  | String c rest =>
      if isCellChar c || Ascii.eqb c LF then wellFormed rest
      else if Ascii.eqb c CR then
        match rest with
        | String c' _ => Ascii.eqb c' LF && wellFormed rest
        | EmptyString => false
        end
      else false
  end.

(** The template without its carriage returns. *)
Fixpoint dropCR (template : string) : string :=
  match template with
  | EmptyString => EmptyString
  | String c rest => if Ascii.eqb c CR then dropCR rest else String c (dropCR rest)
  end.

Fixpoint countLF (template : string) : nat :=
  match template with
  | EmptyString => 0
  | String c rest => ((if Ascii.eqb c LF then 1 else 0) + countLF rest)%nat
  end.

Lemma splitLines_nonempty (template : string) : splitLines template <> [].
Proof.
  destruct template as [|c rest]; [discriminate|]. cbn [splitLines].
  destruct (Ascii.eqb c LF); [discriminate|].
  assert (Hkeep : match splitLines rest with
                  | line :: lines => String c line :: lines
                  | [] => [String c EmptyString]
                  end <> []) by (destruct (splitLines rest); discriminate).
  destruct (Ascii.eqb c CR); [|exact Hkeep].
  destruct rest as [|c' rest']; [exact Hkeep|].
  destruct (Ascii.eqb c' LF); [discriminate|exact Hkeep].
Qed.

Lemma parseChar_cell (c : ascii) :
  if isCellChar c
  then exists ty, parseChar c = Ok (parsedCell ty) /\ cellChar (parsedCell ty) = String c ""
  else parseChar c = Throw (Error "invalid template").
Proof.
  unfold isCellChar, parseChar.
  destruct (Ascii.eqb_spec c "#") as [->|]; [exists Wall; auto|].
  destruct (Ascii.eqb_spec c "A") as [->|]; [exists Start; auto|].
  destruct (Ascii.eqb_spec c "B") as [->|]; [exists Goal; auto|].
  destruct (Ascii.eqb_spec c " ") as [->|]; [exists Space; auto|].
  reflexivity.
Qed.

Lemma string_app_assoc (x y z : string) : ((x ++ y) ++ z = x ++ (y ++ z))%string.
Proof. induction x as [|a x IH]; [reflexivity|]. cbn [append]. now rewrite IH. Qed.

Lemma mazeToTemplate_cons_cell (cell : MazeCell.t) row (rows : MazeData) :
  mazeToTemplate ((cell :: row) :: rows)
  = (cellChar cell ++ mazeToTemplate (row :: rows))%string.
Proof.
  unfold mazeToTemplate. cbn [map].
  assert (Hrow : String.concat "" (cellChar cell :: map cellChar row)
                 = (cellChar cell ++ String.concat "" (map cellChar row))%string).
  { cbn [String.concat]. destruct (map cellChar row); [|reflexivity].
    cbn [String.concat]. clear. induction (cellChar cell) as [|a x IH]; [reflexivity|].
    cbn [append]. now rewrite <- IH. }
  rewrite Hrow. generalize (String.concat "" (map cellChar row)) as b.
  generalize (cellChar cell) as x. generalize (map (fun row => String.concat "" (map cellChar row)) rows) as rs.
  intros rs x b. destruct rs as [|r rs]; cbn [String.concat]; [reflexivity|].
  apply string_app_assoc.
Qed.

Lemma mazeToTemplate_cons_empty (rows : MazeData) :
  rows <> [] -> mazeToTemplate ([] :: rows) = String LF (mazeToTemplate rows).
Proof.
  unfold mazeToTemplate. cbn [map]. destruct rows as [|r rs]; [congruence|]. reflexivity.
Qed.

(** What [buildMaze] does with a template, by cases on its first character. *)
Lemma buildMaze_spec (template : string) :
  if wellFormed template
  then exists row rows,
         buildMaze template = Ok (row :: rows)
         /\ mazeToTemplate (row :: rows) = dropCR template
         /\ length (row :: rows) = S (countLF template)
  else buildMaze template = Throw (Error "invalid template").
Proof.
  unfold buildMaze.
  induction template as [|c rest IH]; [exists [], []; repeat split|].
  cbn [wellFormed splitLines dropCR countLF].
  assert (Hkeep : isCellChar c = true ->
            if wellFormed rest
            then exists row rows,
              mapM (fun strTemplate => mapM parseChar (list_ascii_of_string strTemplate))
                match splitLines rest with
                | line :: lines => String c line :: lines
                | [] => [String c EmptyString]
                end = Ok (row :: rows)
              /\ mazeToTemplate (row :: rows) = String c (dropCR rest)
              /\ length (row :: rows) = S (countLF rest)
            else
              mapM (fun strTemplate => mapM parseChar (list_ascii_of_string strTemplate))
                match splitLines rest with
                | line :: lines => String c line :: lines
                | [] => [String c EmptyString]
                end = Throw (Error "invalid template")).
  { intros Hcell. pose proof (parseChar_cell c) as Hp. rewrite Hcell in Hp.
    destruct Hp as (ty & Hp & Hch).
    pose proof (splitLines_nonempty rest) as Hne.
    destruct (splitLines rest) as [|line lines]; [congruence|].
    cbn [mapM list_ascii_of_string] in *. rewrite Hp. cbn [bind].
    destruct (wellFormed rest).
    - destruct IH as (row & rows & Hb & Ht & Hl).
      destruct (mapM parseChar (list_ascii_of_string line)) as [r|]; [|discriminate].
      cbn [bind] in *.
      destruct (mapM _ lines) as [rs|]; [|discriminate]. cbn [bind] in *.
      injection Hb as -> ->. eexists _, _. split; [reflexivity|].
      rewrite mazeToTemplate_cons_cell, Hch, Ht. auto.
    - destruct (mapM parseChar (list_ascii_of_string line)) as [r|]; [|exact IH].
      cbn [bind] in *.
      destruct (mapM _ lines) as [rs|]; [discriminate|exact IH]. }
  assert (Hbad : isCellChar c = false ->
            mapM (fun strTemplate => mapM parseChar (list_ascii_of_string strTemplate))
              match splitLines rest with
              | line :: lines => String c line :: lines
              | [] => [String c EmptyString]
              end = Throw (Error "invalid template")).
  { intros Hcell. pose proof (parseChar_cell c) as Hp. rewrite Hcell in Hp.
    destruct (splitLines rest) as [|line lines];
      cbn [mapM list_ascii_of_string]; now rewrite Hp. }
  assert (Hlf : (if wellFormed rest
            then exists row rows,
              mapM (fun strTemplate => mapM parseChar (list_ascii_of_string strTemplate))
                (EmptyString :: splitLines rest) = Ok (row :: rows)
              /\ mazeToTemplate (row :: rows) = String LF (dropCR rest)
              /\ length (row :: rows) = S (S (countLF rest))
            else
              mapM (fun strTemplate => mapM parseChar (list_ascii_of_string strTemplate))
                (EmptyString :: splitLines rest) = Throw (Error "invalid template"))).
  { cbn [mapM list_ascii_of_string bind].
    destruct (wellFormed rest).
    - destruct IH as (row & rows & -> & Ht & Hl). cbn [bind].
      eexists _, _. split; [reflexivity|].
      rewrite mazeToTemplate_cons_empty by discriminate. rewrite Ht.
      split; [reflexivity|]. cbn [length] in *. lia.
    - now rewrite IH. }
  destruct (Ascii.eqb_spec c LF) as [->|Hnlf].
  { change (isCellChar LF) with false. cbn [orb].
    change (Ascii.eqb LF CR) with false. cbv iota. exact Hlf. }
  rewrite orb_false_r.
  destruct (isCellChar c) eqn:Hcell.
  { assert (Hncr : Ascii.eqb c CR = false).
    { destruct (Ascii.eqb_spec c CR) as [->|]; [discriminate|reflexivity]. }
    rewrite Hncr. cbn [Nat.add].
    specialize (Hkeep eq_refl). destruct (wellFormed rest);
      destruct (Ascii.eqb c CR); try discriminate; exact Hkeep. }
  specialize (Hbad eq_refl).
  destruct (Ascii.eqb_spec c CR) as [->|Hncr]; [|exact Hbad].
  destruct rest as [|c' rest']; [exact Hbad|].
  destruct (Ascii.eqb_spec c' LF) as [->|Hn']; [|exact Hbad].
  cbn [andb]. clear Hkeep Hbad Hlf.
  cbn [wellFormed splitLines dropCR countLF] in IH.
  change (isCellChar LF) with false in IH. cbn [orb] in IH.
  change (Ascii.eqb LF LF) with true in IH. change (Ascii.eqb LF CR) with false in IH.
  cbv iota in IH. cbn [wellFormed dropCR countLF].
  change (isCellChar LF) with false. cbn [orb].
  change (Ascii.eqb LF LF) with true. change (Ascii.eqb LF CR) with false.
  cbv iota. exact IH.
Qed.

Lemma buildMaze_fresh (template : string) (maze : MazeData) :
  buildMaze template = Ok maze ->
  Forall (Forall (fun c => c = parsedCell (MazeCell.type c))) maze.
Proof.
  unfold buildMaze. apply mapM_Forall. intros line row.
  apply mapM_Forall. intros ch c. unfold parseChar.
  repeat (destruct (Ascii.eqb ch _); [now intros [= <-]|]).
  discriminate.
Qed.

(** X14.  [buildMaze] accepts exactly the templates made of the four cell
    characters and line feeds, with carriage returns only right before a
    line feed; on any other template it throws ["invalid template"], and it
    throws nothing else.  An accepted template gives at least one row, one
    row more than it has line feeds, of fresh cells (a wall [Unreachable],
    any other cell [Unexplored], no label), and [mazeToTemplate] of the grid
    is the template without its carriage returns: the same template when it
    has none. *)
Theorem buildMaze_accepts (template : string) :
  ((exists maze, buildMaze template = Ok maze) <-> wellFormed template = true)
  /\ (forall e, buildMaze template = Throw e -> e = Error "invalid template")
  /\ (forall maze, buildMaze template = Ok maze ->
        mazeToTemplate maze = dropCR template
        /\ length maze = S (countLF template)
        /\ Forall (Forall (fun c => c = parsedCell (MazeCell.type c))) maze).
Proof.
  pose proof (buildMaze_spec template) as Hspec.
  pose proof (buildMaze_fresh template) as Hfresh.
  destruct (wellFormed template).
  - destruct Hspec as (row & rows & Hb & Ht & Hl). rewrite Hb in *.
    split; [split; eauto|]. split; [discriminate|].
    intros maze [= <-]. auto.
  - rewrite Hspec. split; [split; [intros [? [=]]|discriminate]|].
    split; [now intros e [= <-]|discriminate].
Qed.

(** ** What a search does to the grid, whatever the frontier *)

(** The template of a grid depends on the types of its cells only. *)
Lemma mazeToTemplate_types (maze maze' : MazeData) :
  sameTypes maze maze' -> mazeToTemplate maze' = mazeToTemplate maze.
Proof.
  unfold sameTypes, types, mazeToTemplate. intros Hty. f_equal.
  set (typeChar := fun ty => match ty with
                             | Wall => "#" | Start => "A" | Goal => "B" | Space => " "
                             end%string).
  assert (Hrow : forall row : list MazeCell.t,
            String.concat "" (map cellChar row)
            = String.concat "" (map typeChar (MazeCell.type <$> row))).
  { intros row. f_equal. change (map typeChar (MazeCell.type <$> row))
      with (map typeChar (map MazeCell.type row)). rewrite map_map. reflexivity. }
  transitivity (map (fun tys => String.concat "" (map typeChar tys))
                    (fmap (M:=list) MazeCell.type <$> maze')).
  - change (fmap (M:=list) MazeCell.type <$> maze')
      with (map (fmap (M:=list) MazeCell.type) maze').
    rewrite map_map. apply map_ext. exact Hrow.
  - rewrite Hty.
    change (fmap (M:=list) MazeCell.type <$> maze)
      with (map (fmap (M:=list) MazeCell.type) maze).
    rewrite map_map. apply map_ext. intros row. symmetry. apply Hrow.
Qed.

Section Outcome.
Context {F : Type} `{FrontierLaws F}.
Variable maze0 : MazeData.
Variable this0 : Maze.
Hypothesis Hrect : rectangular maze0.
Hypothesis Hdims : dimsOf this0 maze0.
Hypothesis Hstart : passable maze0 (_start this0).

(** A call of [next] leaves the state of every wall cell as it was. *)
Lemma Step_walls (c c' : Closure F) st st' s :
  Inv maze0 this0 c st -> Step maze0 this0 c st c' st' ->
  typeAt maze0 s = Some Wall ->
  stateAt (mazeData st') s = stateAt (mazeData st) s.
Proof.
  intros (Hthis & Hty & Hnd & Hnodes) Hstep Hwall.
  assert (Hnp : ~ passable maze0 s) by (intros [_ Hp]; contradiction).
  destruct Hstep as [Hnil|node fr maze' Hrm Hperm Hgoal Hty' Hst'
                    |node fr maze1 maze' Hrm Hperm Hgoal Hm1 Hty' Hst'];
    cbn [mazeData]; [reflexivity| |].
  - destruct (Hnodes node) as [Hgood _]; [rewrite Hperm; constructor|].
    rewrite Hst'. rewrite decide_False; [reflexivity|].
    intros Hin. apply Hnp. eapply goodNode_inBounds; eauto.
  - destruct (Hnodes node) as [Hgood _]; [rewrite Hperm; constructor|].
    rewrite Hst'. rewrite decide_False.
    + rewrite decide_False; [reflexivity|]. intros ->. apply Hnp.
      eapply goodNode_inBounds; eauto. apply chain_state_elem.
    + intros ([a t] & -> & Hc0)%list_elem_of_fmap.
      apply list_elem_of_filter in Hc0 as [_ Hin].
      apply neighbors_spec_elem in Hin as [Hp _]. now apply Hnp.
Qed.

(** *** Nothing reachable is left behind *)

(** While no cell carried the mark [Explored] when the search started, the
    explored cells are passable cells other than the goal, the start is
    explored or pending, and every passable neighbour of an explored cell is
    explored or pending. *)
Definition CInv (c : Closure F) (st : Store) : Prop :=
  Inv maze0 this0 c st
  /\ (forall s, explored (mazeData st) s -> passable maze0 s /\ s <> _goal this0)
  /\ (explored (mazeData st) (_start this0)
      \/ _start this0 ∈ state <$> nodes (frontier c))
  /\ (forall s t, explored (mazeData st) s -> passable maze0 t -> adjacent s t ->
        explored (mazeData st) t \/ t ∈ state <$> nodes (frontier c)).

(** What a call of [next] that leaves the outcome at [Continue] has done. *)
Lemma Step_expand_inv (c c' : Closure F) st st' :
  Inv maze0 this0 c st -> Step maze0 this0 c st c' st' ->
  solutionType st' = Continue ->
  exists node fr maze1,
    let added := filter (unseen fr maze1) (neighbors_spec maze0 (state node)) in
    nodes (frontier c) ≡ₚ node :: nodes fr
    /\ goodNode maze0 this0 node
    /\ ~ explored (mazeData st) (state node)
    /\ state node <> _goal this0
    /\ (state node ∉ (state <$> nodes fr))
    /\ (forall s, stateAt maze1 s =
          if decide (s = state node) then Some Explored else stateAt (mazeData st) s)
    /\ nodes (frontier c') ≡ₚ (mkChild this0 node <$> added) ++ nodes fr
    /\ numExplored st' = numExplored st + 1
    /\ (forall s, s ∈ snd <$> added ->
          s <> state node /\ ~ explored (mazeData st) s
          /\ (s ∉ (state <$> nodes fr)) /\ passable maze0 s /\ adjacent (state node) s)
    /\ (forall s, stateAt (mazeData st') s =
          if decide (s ∈ snd <$> added) then Some Frontier
          else if decide (s = state node) then Some Explored
          else stateAt (mazeData st) s)
    /\ (forall s, explored (mazeData st') s <->
          s = state node \/ explored (mazeData st) s).
Proof.
  intros (Hthis & Hty & Hnd & Hnodes) Hstep Hcont.
  destruct Hstep as [Hnil|node fr maze' Hrm Hperm Hgoal Hty' Hst'
                    |node fr maze1 maze' Hrm Hperm Hgoal Hm1 Hty' Hst']; try discriminate.
  cbn [mazeData numExplored solutionType frontier] in *.
  destruct (Hnodes node) as [Hgood Hunexp]; [rewrite Hperm; constructor|].
  assert (Hnd' : NoDup (state node :: (state <$> nodes fr))).
  { rewrite Hperm in Hnd. exact Hnd. }
  apply NoDup_cons in Hnd' as [Hnotin _].
  exists node, fr, maze1. cbn zeta.
  set (added := filter (unseen fr maze1) (neighbors_spec maze0 (state node))) in *.
  assert (Hadded : forall s, s ∈ snd <$> added ->
            s <> state node /\ ~ explored (mazeData st) s
            /\ (s ∉ (state <$> nodes fr)) /\ passable maze0 s /\ adjacent (state node) s).
  { intros s ([a t] & -> & Hc0)%list_elem_of_fmap.
    apply list_elem_of_filter in Hc0 as [[Hnf Hun] Hin]. cbn [snd] in *.
    rewrite (setCellState_stateAt _ _ _ _ t Hm1) in Hun.
    apply neighbors_spec_elem in Hin as [Hp Hadj].
    destruct (decide (t = state node)); [congruence|]. unfold explored. auto. }
  split; [exact Hperm|]. split; [exact Hgood|]. split; [exact Hunexp|].
  split; [exact Hgoal|]. split; [exact Hnotin|].
  split; [intros s; apply (setCellState_stateAt _ _ _ _ s Hm1)|].
  split; [apply nodes_addAll|]. split; [reflexivity|]. split; [exact Hadded|].
  split; [exact Hst'|].
  intros s. unfold explored. rewrite Hst'.
  destruct (decide (s ∈ snd <$> added)) as [Hs|Hs].
  - destruct (Hadded s Hs) as (Hne & Hun & _). unfold explored in Hun.
    split; [discriminate|tauto].
  - destruct (decide (s = state node)); tauto.
Qed.

Lemma CInv_Step (c c' : Closure F) st st' :
  CInv c st -> solutionType st = Continue -> Step maze0 this0 c st c' st' ->
  solutionType st' = Continue -> CInv c' st'.
Proof.
  intros (Hinv & Hpass & Hst0 & Hclo) _ Hstep Hcont.
  split; [eapply Step_Inv; eauto|].
  destruct (Step_expand_inv c c' st st' Hinv Hstep Hcont)
    as (node & fr & maze1 & Hperm & Hgood & Hunexp & Hgoal & Hnotin & Hm1 & Hfr'
        & _ & Hadded & Hst' & Hexp).
  cbn zeta in *.
  set (added := filter (unseen fr maze1) (neighbors_spec maze0 (state node))) in *.
  assert (Hold : forall t, t ∈ state <$> nodes (frontier c) ->
            t = state node \/ t ∈ state <$> nodes fr).
  { intros t. rewrite Hperm. cbn [fmap list_fmap]. now rewrite elem_of_cons. }
  assert (Hnew : forall t, t ∈ state <$> nodes fr \/ t ∈ snd <$> added ->
            t ∈ state <$> nodes (frontier c')).
  { intros t. rewrite Hfr', fmap_app, state_mkChild, elem_of_app. tauto. }
  split; [|split].
  - intros s [->|Hs]%Hexp; [|now apply Hpass].
    split; [|exact Hgoal]. eapply goodNode_inBounds; eauto. apply chain_state_elem.
  - destruct Hst0 as [Hs|Hs]; [left; apply Hexp; tauto|].
    apply Hold in Hs as [Hs|Hs]; [left; apply Hexp; tauto|right; apply Hnew; tauto].
  - intros s t Hs Ht Hadj. apply Hexp in Hs as [->|Hs].
    + destruct (neighbors_spec_complete maze0 (state node) t Ht Hadj) as [a Ha].
      destruct (decide (unseen fr maze1 (a, t))) as [Hu|Hu].
      * right. apply Hnew. right. apply list_elem_of_fmap. exists (a, t).
        split; [reflexivity|]. now apply list_elem_of_filter.
      * unfold unseen in Hu. cbn [snd] in Hu.
        destruct (decide (t ∈ state <$> nodes fr)) as [Hin|Hin];
          [right; apply Hnew; tauto|].
        destruct (decide (stateAt maze1 t = Some Explored)) as [He|He]; [|tauto].
        left. apply Hexp. rewrite Hm1 in He.
        destruct (decide (t = state node)); [tauto|]. now right.
    + destruct (Hclo s t Hs Ht Hadj) as [He|Hin]; [left; apply Hexp; tauto|].
      apply Hold in Hin as [->|Hin]; [left; apply Hexp; tauto|right; apply Hnew; tauto].
Qed.

(** With an empty frontier, every cell that a walk from an explored cell
    reaches is explored. *)
Lemma walk_explored (c : Closure F) st (p : list State) :
  CInv c st -> nodes (frontier c) = [] -> isPath maze0 p ->
  forall s, head p = Some s -> explored (mazeData st) s ->
  forall t, t ∈ p -> explored (mazeData st) t.
Proof.
  intros (_ & _ & _ & Hclo) Hnil.
  induction p as [|x p IH]; intros Hp s Hs He t Ht; [inversion Ht|].
  injection Hs as ->. apply elem_of_cons in Ht as [->|Ht]; [exact He|].
  cbn [isPath] in Hp. destruct Hp as (_ & Hadj & Hp).
  destruct p as [|y p]; [inversion Ht|].
  apply (IH Hp y eq_refl); [|exact Ht].
  destruct Hp as (Hy & _).
  destruct (Hclo s y He Hy Hadj) as [Hey|Hin]; [exact Hey|].
  rewrite Hnil in Hin. inversion Hin.
Qed.

Lemma CInv_no_walk (c : Closure F) st (p : list State) :
  CInv c st -> nodes (frontier c) = [] ->
  ~ connects maze0 (_start this0) (_goal this0) p.
Proof.
  intros HC Hnil (Hp & Hh & Hl).
  pose proof HC as (_ & Hpass & Hst0 & _).
  assert (He : explored (mazeData st) (_start this0)).
  { destruct Hst0 as [He|Hin]; [exact He|]. rewrite Hnil in Hin. inversion Hin. }
  assert (Hg : _goal this0 ∈ p).
  { rewrite last_lookup in Hl. eapply list_elem_of_lookup_2; eauto. }
  pose proof (walk_explored c st p HC Hnil Hp _ Hh He _ Hg) as Heg.
  now apply Hpass in Heg as [_ Hne].
Qed.

(** *** Marks and counter on a freshly built or reset grid *)

(** The cells of the grid that carry a mark. *)
Definition marked (v : MazeCellState) (maze : MazeData) : list State :=
  filter (fun s => stateAt maze s = Some v) (allStates maze0).

(** On a grid that carried no mark of a search when this one started: no
    cell is marked [SolutionPath], the parent chain of a pending node visits
    no state twice and, below the node, explored cells only, and the counter
    is the number of explored cells. *)
Definition PInv (c : Closure F) (st : Store) : Prop :=
  CInv c st
  /\ (forall s, stateAt (mazeData st) s <> Some SolutionPath)
  /\ (forall n, n ∈ nodes (frontier c) ->
        NoDup (chain n) /\ forall s, s ∈ tail (chain n) -> explored (mazeData st) s)
  /\ numExplored st = Z.of_nat (length (marked Explored (mazeData st))).

Lemma PInv_Step (c c' : Closure F) st st' :
  PInv c st -> solutionType st = Continue -> Step maze0 this0 c st c' st' ->
  solutionType st' = Continue -> PInv c' st'.
Proof.
  intros (HC & Hnsp & Hchains & Hnum) Hc0 Hstep Hcont.
  split; [eapply CInv_Step; eauto|].
  pose proof HC as (Hinv & _).
  destruct (Step_expand_inv c c' st st' Hinv Hstep Hcont)
    as (node & fr & maze1 & Hperm & Hgood & Hunexp & Hgoal & Hnotin & Hm1 & Hfr'
        & Hnum' & Hadded & Hst' & Hexp).
  cbn zeta in *.
  set (added := filter (unseen fr maze1) (neighbors_spec maze0 (state node))) in *.
  destruct (Hchains node) as [Hnd Htail]; [rewrite Hperm; constructor|].
  assert (Hchain : forall s, s ∈ chain node -> explored (mazeData st') s).
  { intros s Hs. apply Hexp. destruct node as [s0 p a h g]. cbn [chain state tail] in *.
    apply elem_of_cons in Hs as [->|Hs]; [now left|right; now apply Htail]. }
  split; [|split].
  - intros s. rewrite Hst'. destruct (decide (s ∈ snd <$> added)); [discriminate|].
    destruct (decide (s = state node)); [discriminate|apply Hnsp].
  - intros n Hn. rewrite Hfr' in Hn. apply elem_of_app in Hn as [Hn|Hn].
    + apply list_elem_of_fmap in Hn as ([a t] & -> & Hc1).
      assert (Hin : t ∈ snd <$> added) by (apply list_elem_of_fmap; now exists (a, t)).
      unfold mkChild. cbn [chain tail snd]. split; [|exact Hchain].
      apply NoDup_cons. split; [|exact Hnd].
      intros Ht. apply Hchain, Hexp in Ht. destruct (Hadded t Hin) as (? & ? & _). tauto.
    + destruct (Hchains n) as [Hnd' Htail']; [rewrite Hperm; now constructor|].
      split; [exact Hnd'|]. intros s Hs. apply Hexp. right. now apply Htail'.
  - rewrite Hnum', Hnum. unfold marked.
    rewrite <- (filter_length_remove
                  (fun s => stateAt (mazeData st') s = Some Explored)
                  (fun s => stateAt (mazeData st) s = Some Explored)
                  (allStates maze0) (state node)).
    + lia.
    + apply allStates_NoDup.
    + apply allStates_elem. eapply goodNode_inBounds; eauto. apply chain_state_elem.
    + apply Hexp. now left.
    + intros s. fold (explored (mazeData st) s). fold (explored (mazeData st') s).
      rewrite Hexp. split; [|tauto]. intros He. split; [tauto|]. intros ->. contradiction.
Qed.

Lemma filter_none {A} (P : A -> Prop) `{!forall x, Decision (P x)} (l : list A) :
  (forall x, x ∈ l -> ~ P x) -> filter P l = [].
Proof.
  induction l as [|x l IH]; intros Hno; [reflexivity|].
  rewrite filter_cons, decide_False by (apply Hno; constructor).
  apply IH. intros y Hy. apply Hno. now constructor.
Qed.

Lemma chain_cons (n : Node) : chain n = state n :: tail (chain n).
Proof. now destruct n. Qed.

(** The last call of [next]: the counter is the number of cells marked
    explored or solution path, and when a node on the goal was found, the
    cells marked solution path are those of its parent chain, a walk from
    the start to the goal that visits no cell twice. *)
Lemma PInv_end (c c' : Closure F) st st' :
  PInv c st -> solutionType st = Continue -> Step maze0 this0 c st c' st' ->
  solutionType st' <> Continue ->
  numExplored st'
  = Z.of_nat (length (marked Explored (mazeData st'))
              + length (marked SolutionPath (mazeData st')))
  /\ (solutionType st' = FoundSolution ->
      exists p, connects maze0 (_start this0) (_goal this0) p /\ NoDup p
        /\ forall s, stateAt (mazeData st') s = Some SolutionPath <-> s ∈ p).
Proof.
  intros (HC & Hnsp & Hchains & Hnum) Hc0 Hstep Hterm.
  pose proof HC as (Hinv & Hpass & _).
  pose proof Hinv as (_ & _ & _ & Hnodes).
  destruct Hstep as [Hnil|node fr maze' Hrm Hperm Hgl Hty' Hst'
                    |node fr maze1 maze' Hrm Hperm Hgl Hm1 Hty' Hst'];
    cbn [numExplored mazeData solutionType] in *; [| |contradiction].
  - split; [|discriminate].
    assert (Hno : marked SolutionPath (mazeData st) = [])
      by (apply filter_none; intros s _; apply Hnsp).
    rewrite Hnum, Hno. cbn [length]. lia.
  - destruct (Hnodes node) as [Hgood Hunexp]; [rewrite Hperm; constructor|].
    destruct (Hchains node) as [Hnd Htail]; [rewrite Hperm; constructor|].
    assert (Hin : forall s, s ∈ chain node -> s ∈ allStates maze0).
    { intros s Hs. apply allStates_elem. eapply goodNode_inBounds; eauto. }
    assert (Hsp : forall s, stateAt maze' s = Some SolutionPath <-> s ∈ chain node).
    { intros s. rewrite Hst'. destruct (decide (s ∈ chain node)); [tauto|].
      split; [intros Hs; now apply Hnsp in Hs|tauto]. }
    split.
    + assert (HpSP : marked SolutionPath maze' ≡ₚ chain node).
      { apply NoDup_Permutation; [apply NoDup_filter, allStates_NoDup|exact Hnd|].
        intros s. unfold marked. rewrite list_elem_of_filter, Hsp. split; [tauto|].
        intros Hs. split; [exact Hs|now apply Hin]. }
      assert (HpE : marked Explored (mazeData st)
                    ≡ₚ marked Explored maze' ++ tail (chain node)).
      { rewrite (chain_cons node) in Hnd. apply NoDup_cons in Hnd as [Hhd Hnd].
        apply NoDup_Permutation.
        - apply NoDup_filter, allStates_NoDup.
        - apply NoDup_app. split; [apply NoDup_filter, allStates_NoDup|].
          split; [|exact Hnd].
          intros s [Hs _]%list_elem_of_filter Ht. rewrite Hst' in Hs.
          rewrite decide_True in Hs; [discriminate|].
          rewrite (chain_cons node). now right.
        - intros s. unfold marked. rewrite elem_of_app, !list_elem_of_filter, Hst'.
          destruct (decide (s ∈ chain node)) as [Hs|Hs].
          + rewrite (chain_cons node) in Hs. apply elem_of_cons in Hs as [->|Hs].
            * split; [intros [He _]; contradiction|].
              intros [[[=] _]|Ht]; contradiction.
            * split; [tauto|]. intros _. split; [now apply Htail|].
              apply Hin. rewrite (chain_cons node). now right.
          + split; [tauto|]. intros [Hs'|Ht]; [exact Hs'|].
            exfalso. apply Hs. rewrite (chain_cons node). now right. }
      rewrite Hnum. apply Permutation_length in HpSP, HpE.
      rewrite HpSP, HpE, length_app, (chain_cons node). cbn [length tail]. lia.
    + intros _. exists (rev (chain node)).
      split; [rewrite <- Hgl; now apply connects_chain|].
      split; [apply NoDup_ListNoDup, List.NoDup_rev, NoDup_ListNoDup, Hnd|].
      intros s. rewrite Hsp, !list_elem_of_In. apply in_rev.
Qed.

(** *** The run, seen from the timer *)

(** An invariant [J] of the calls of [next] and a property [Q] of the store
    that holds while [J] does and after the last call: [Q] holds however
    often the timer fires. *)
Lemma ticks_run (J : Closure F -> Store -> Prop) (Q : Store -> Prop) :
  (forall c st, J c st -> Inv maze0 this0 c st) ->
  (forall c st c' st', J c st -> solutionType st = Continue ->
     Step maze0 this0 c st c' st' -> solutionType st' = Continue -> J c' st') ->
  (forall c st, J c st -> solutionType st = Continue -> Q st) ->
  (forall c st c' st', J c st -> solutionType st = Continue ->
     Step maze0 this0 c st c' st' -> solutionType st' <> Continue -> Q st') ->
  forall n (app : App F) c,
    demoRunner app = Some c -> Q (store app) ->
    (solutionType (store app) = Continue -> J c (store app) /\ interval app = true) ->
    exists appn, ticks n app = Ok appn /\ Q (store appn).
Proof.
  intros HJ Hpres Hrun Hend.
  induction n as [|n IH]; intros app c Hc HQ Hcont; [now exists app|].
  cbn [ticks]. destruct (interval app) eqn:Hint; [|now exists app].
  destruct (decide (solutionType (store app) = Continue)) as [Hc0|Hterm].
  - destruct (Hcont Hc0) as [HJc _].
    destruct (demoRunner_call_Step maze0 this0 Hrect Hdims app c Hc (HJ _ _ HJc) Hc0 Hint)
      as (c' & st' & app' & Hstep & Hcall & Hst & Hdr & Hint').
    rewrite Hcall. cbn [bind]. subst st'.
    destruct (decide (solutionType (store app') = Continue)) as [Hc'|Hc'].
    + apply (IH app' c' Hdr).
      * eapply Hrun; eauto.
      * intros _. split; [eapply Hpres; eauto|].
        rewrite Hint'. now apply bool_decide_eq_true_2.
    + apply (IH app' c' Hdr); [eapply Hend; eauto|]. intros; contradiction.
  - destruct (demoRunner_call_terminal app Hterm) as (app' & Hcall & Hst & Hdr).
    rewrite Hcall. cbn [bind]. apply (IH app' c).
    + congruence.
    + now rewrite Hst.
    + rewrite Hst. intros; contradiction.
Qed.
End Outcome.

(** *** The first state of a search, again *)

(** A grid as [buildMaze] and [reset] leave it, and as the brush keeps it:
    every cell [Unexplored] or [Unreachable]. *)
Definition pristine (maze : MazeData) : Prop :=
  Forall (Forall (fun c => MazeCell.state c = Unexplored
                           \/ MazeCell.state c = Unreachable)) maze.

Lemma pristine_stateAt (maze : MazeData) s :
  pristine maze ->
  stateAt maze s <> Some Explored /\ stateAt maze s <> Some SolutionPath.
Proof.
  unfold pristine, stateAt. intros Hp.
  destruct (cellAt maze s) as [c|e] eqn:Hc; [|split; discriminate].
  apply cellAt_Ok in Hc as (_ & _ & row & Hrow & Hc).
  rewrite Forall_lookup in Hp. specialize (Hp _ _ Hrow).
  rewrite Forall_lookup in Hp. specialize (Hp _ _ Hc).
  split; intros [= Heq]; rewrite Heq in Hp; destruct Hp; discriminate.
Qed.

Lemma reset_pristine {F : Type} (app : App F) : pristine (mazeData (store (reset app))).
Proof.
  unfold reset, pristine. cbn [store mazeData].
  apply List.Forall_forall. intros row (row0 & <- & _)%in_map_iff.
  apply List.Forall_forall. intros c (c0 & <- & _)%in_map_iff.
  unfold resetCell. cbn. destruct (bool_decide _); auto.
Qed.

Lemma buildMaze_pristine template (maze : MazeData) :
  buildMaze template = Ok maze -> pristine maze.
Proof.
  unfold buildMaze, pristine. apply mapM_Forall. intros line row.
  apply mapM_Forall. intros ch c. unfold parseChar.
  repeat (destruct (Ascii.eqb ch _); [intros [= <-]; cbn; auto|]).
  discriminate.
Qed.

(** The number of cells in a state, over all rows of the grid. *)
Definition countState (v : MazeCellState) (maze : MazeData) : nat :=
  length (filter (fun c => MazeCell.state c = v) (concat maze)).

Lemma states_allStates (maze : MazeData) :
  rectangular maze ->
  stateAt maze <$> allStates maze = (fun c => Some (MazeCell.state c)) <$> concat maze.
Proof.
  intros Hrect.
  change (stateAt maze) with
    ((fun r => match r with Ok c => Some (MazeCell.state c) | Throw _ => None end)
       ∘ cellAt maze).
  rewrite list_fmap_compose, (cells_allStates maze Hrect), <- list_fmap_compose.
  reflexivity.
Qed.

Lemma sameTypes_allStates (maze0 maze : MazeData) :
  sameTypes maze0 maze -> allStates maze = allStates maze0.
Proof.
  intros Hty. unfold allStates.
  now rewrite (sameTypes_height _ _ Hty), (sameTypes_width _ _ Hty).
Qed.

Lemma marked_length (maze0 maze : MazeData) v :
  rectangular maze0 -> sameTypes maze0 maze ->
  length (marked maze0 v maze) = countState v maze.
Proof.
  intros Hrect Hty. unfold marked, countState.
  rewrite <- (sameTypes_allStates _ _ Hty).
  assert (Hrect' : rectangular maze) by (eapply sameTypes_rectangular; eauto).
  etransitivity;
    [exact (filter_length_fmap (stateAt maze) (fun o => o = Some v) (allStates maze))|].
  rewrite (states_allStates maze Hrect').
  etransitivity;
    [symmetry; exact (filter_length_fmap (fun c => Some (MazeCell.state c))
                        (fun o => o = Some v) (concat maze))|].
  f_equal. apply list_filter_iff. intros c. split; congruence.
Qed.

Section FirstState.
Context {F : Type} `{FrontierLaws F}.
Variable maze0 : MazeData.
Variable this0 : Maze.

Lemma CInv_initial (st1 : Store) :
  unmarked maze0 ->
  Inv maze0 this0 (mkClosure this0 (add (rootNode this0) create)) st1 ->
  (forall s, stateAt (mazeData st1) s =
     if decide (s = _start this0) then Some Frontier else stateAt maze0 s) ->
  CInv maze0 this0 (mkClosure this0 (add (rootNode this0) (create (F := F)))) st1.
Proof.
  intros Hun Hinv Hst.
  assert (Hno : forall s, ~ explored (mazeData st1) s).
  { intros s. unfold explored. rewrite Hst.
    destruct (decide (s = _start this0)); [discriminate|].
    now apply unmarked_stateAt. }
  split; [exact Hinv|]. split; [intros s Hs; now apply Hno in Hs|].
  split; [|intros s t Hs; now apply Hno in Hs].
  right. cbn [frontier]. rewrite nodes_add. cbn [fmap list_fmap]. left.
Qed.

Lemma PInv_initial (st1 : Store) :
  pristine maze0 ->
  Inv maze0 this0 (mkClosure this0 (add (rootNode this0) create)) st1 ->
  numExplored st1 = 0 ->
  (forall s, stateAt (mazeData st1) s =
     if decide (s = _start this0) then Some Frontier else stateAt maze0 s) ->
  PInv maze0 this0 (mkClosure this0 (add (rootNode this0) (create (F := F)))) st1.
Proof.
  intros Hp Hinv Hnum Hst.
  assert (Hun : unmarked maze0).
  { unfold unmarked. eapply List.Forall_impl; [|exact Hp]. intros row Hrow.
    eapply List.Forall_impl; [|exact Hrow]. intros c [Hc|Hc]; rewrite Hc; discriminate. }
  pose proof (CInv_initial st1 Hun Hinv Hst) as HC.
  split; [exact HC|]. split; [|split].
  - intros s. rewrite Hst. destruct (decide (s = _start this0)); [discriminate|].
    now apply pristine_stateAt.
  - intros n Hn. cbn [frontier] in Hn. rewrite nodes_add, nodes_create in Hn.
    apply list_elem_of_singleton in Hn as ->. unfold rootNode. cbn [chain tail].
    split; [apply NoDup_singleton|]. intros s Hs. inversion Hs.
  - rewrite Hnum. unfold marked. rewrite filter_none; [reflexivity|].
    intros s _. rewrite Hst. destruct (decide (s = _start this0)); [discriminate|].
    now apply pristine_stateAt.
Qed.
End FirstState.

(** ** The outcome of a search, for each of the four frontiers *)

(** X15.  A search never changes the layout.  On a rectangular grid with
    one start and one goal, whatever the frontier class and however often
    the timer fires, every cell keeps its type, so that the template of the
    grid stays the same, and every wall cell keeps its state. *)
Theorem search_keeps_layout {F : Type} `{FrontierLaws F} (app0 : App F) (n : nat) :
  rectangular (mazeData (store app0)) ->
  countType Start (mazeData (store app0)) = 1%nat ->
  countType Goal (mazeData (store app0)) = 1%nat ->
  exists app1 appn,
    doStart app0 = Ok app1 /\ ticks n app1 = Ok appn
    /\ types (mazeData (store appn)) = types (mazeData (store app0))
    /\ mazeToTemplate (mazeData (store appn)) = mazeToTemplate (mazeData (store app0))
    /\ forall s, typeAt (mazeData (store app0)) s = Some Wall ->
         stateAt (mazeData (store appn)) s = stateAt (mazeData (store app0)) s.
Proof.
  intros Hrect Hs Hg. pose proof (doStart_spec app0 Hrect) as Hspec.
  destruct (doStart app0) as [app1|e]; [|tauto].
  destruct Hspec as (this0 & c1 & _ & _ & Hdims & Hpass & Hdr & Hinv & Hcont
                     & Hint & _ & Hst1 & _).
  set (maze0 := mazeData (store app0)) in *.
  set (W := fun st : Store => forall s, typeAt maze0 s = Some Wall ->
                 stateAt (mazeData st) s = stateAt maze0 s).
  assert (HW1 : W (store app1)).
  { intros s Hwall. rewrite Hst1. rewrite decide_False; [reflexivity|].
    intros ->. destruct Hpass as [_ Hp]. contradiction. }
  destruct (ticks_run maze0 this0 Hrect Hdims
              (fun c st => Inv maze0 this0 c st /\ W st)
              (fun st => sameTypes maze0 (mazeData st) /\ W st)) with (n := n) (app := app1) (c := c1)
    as (appn & Hticks & Hty & HWn).
  - tauto.
  - intros c st c' st' [Hi Hw] _ Hstep _. split; [eapply Step_Inv; eauto|].
    intros s Hwall. rewrite (Step_walls maze0 this0 c c' st st' s Hi Hstep Hwall). auto.
  - intros c st [(_ & Hty & _) Hw] _. auto.
  - intros c st c' st' [Hi Hw] _ Hstep _.
    assert (Hi' : Inv maze0 this0 c' st') by (eapply Step_Inv; eauto).
    destruct Hi' as (_ & Hty & _). split; [exact Hty|].
    intros s Hwall. rewrite (Step_walls maze0 this0 c c' st st' s Hi Hstep Hwall). auto.
  - exact Hdr.
  - destruct Hinv as (_ & Hty & _). auto.
  - auto.
  - exists app1, appn. split; [reflexivity|]. split; [exact Hticks|].
    split; [exact Hty|]. split; [now apply mazeToTemplate_types|exact HWn].
Qed.

Lemma search_keeps_layout_witness :
  exists app1 appn : App StackFrontier.t,
    doStart (mkApp (mkStore sample_grid 0 Pending) Ready false None) = Ok app1
    /\ ticks 2 app1 = Ok appn
    /\ types (mazeData (store appn)) = types sample_grid
    /\ mazeToTemplate (mazeData (store appn)) = mazeToTemplate sample_grid
    /\ forall s, typeAt sample_grid s = Some Wall ->
         stateAt (mazeData (store appn)) s = stateAt sample_grid s.
Proof.
  apply (search_keeps_layout (F := StackFrontier.t)
           (mkApp (mkStore sample_grid 0 Pending) Ready false None) 2).
  - split; [discriminate|]. repeat constructor.
  - reflexivity.
  - reflexivity.
Defined.

Lemma search_completes {F : Type} `{FrontierLaws F} (app0 : App F)
        (start goal : State) :
  rectangular (mazeData (store app0)) ->
  countType Start (mazeData (store app0)) = 1%nat ->
  countType Goal (mazeData (store app0)) = 1%nat ->
  typeAt (mazeData (store app0)) start = Some Start ->
  typeAt (mazeData (store app0)) goal = Some Goal ->
  unmarked (mazeData (store app0)) ->
  exists app1 appf,
    doStart app0 = Ok app1
    /\ ticks (height (mazeData (store app0)) * width (mazeData (store app0)) + 1) app1
       = Ok appf
    /\ ((solutionType (store appf) = FoundSolution
         /\ exists p, connects (mazeData (store app0)) start goal p
              /\ forall s, s ∈ p -> stateAt (mazeData (store appf)) s = Some SolutionPath)
        \/ (solutionType (store appf) = NoSolution
            /\ forall p, ~ connects (mazeData (store app0)) start goal p)).
Proof.
  intros Hrect Hs Hg Hstart Hgoal Hun.
  pose proof (doStart_spec app0 Hrect) as Hspec.
  destruct (doStart app0) as [app1|e]; [|tauto].
  destruct Hspec as (this0 & c1 & Hps & Hpg & Hdims & Hpass & Hdr & Hinv & Hcont
                     & Hint & _ & Hst1 & Hc1).
  set (maze0 := mazeData (store app0)) in *.
  assert (start = _start this0) as -> by (eapply placesOf_unique; eauto).
  assert (goal = _goal this0) as -> by (eapply placesOf_unique; eauto).
  assert (HC1 : CInv maze0 this0 c1 (store app1)).
  { subst c1. now apply CInv_initial. }
  assert (Hbound : (unexplored maze0 (mazeData (store app1))
                    < height maze0 * width maze0 + 1)%nat).
  { pose proof (unexplored_bound maze0 (mazeData (store app1))). lia. }
  assert (HCstep : forall (c : Closure F) st c' st',
            CInv maze0 this0 c st -> solutionType st = Continue ->
            Step maze0 this0 c st c' st' -> solutionType st' = Continue ->
            CInv maze0 this0 c' st') by (intros; eapply CInv_Step; eauto).
  destruct (run_to_end maze0 this0 Hrect Hdims (CInv maze0 this0)
              (fun _ _ HC => proj1 HC) HCstep _ app1 c1
              Hdr HC1 Hcont Hint Hbound)
    as (k & appk & ck & c' & appf & _ & Hticksk & Hdrk & HCk & Hck & Hstep & Hterm
        & Hcall & _ & Hticks).
  exists app1, appf. split; [reflexivity|]. split; [exact Hticks|].
  destruct (Step_terminal maze0 this0 ck c' _ _ Hstep Hck Hterm)
    as [[Hnil Hno]|(node & fr & Hrm & Hperm & Hgl & Hfound & Hst)].
  - right. split; [exact Hno|]. intros p. eapply CInv_no_walk; eauto.
  - left. split; [exact Hfound|]. exists (rev (chain node)).
    destruct HCk as ((_ & _ & _ & Hnodes) & _).
    destruct (Hnodes node) as [Hgood _]; [rewrite Hperm; constructor|].
    split; [rewrite <- Hgl; now apply connects_chain|].
    intros s Hin. rewrite Hst. rewrite decide_True; [reflexivity|].
    apply list_elem_of_In, in_rev, list_elem_of_In. exact Hin.
Qed.

(** X16.  Every frontier finds a way when there is one.  On a rectangular
    grid with one start and one goal, no cell of which is marked explored
    when the search starts, the search of each frontier class ends within
    one step per cell plus one; it ends with [FoundSolution] when some walk
    over non-wall cells leads from the start to the goal, and the cells of
    one such walk are then marked [SolutionPath]; it ends with [NoSolution]
    when there is no such walk. *)
Theorem search_complete {F : Type} `{FrontierLaws F} (app0 : App F)
        (start goal : State) :
  rectangular (mazeData (store app0)) ->
  countType Start (mazeData (store app0)) = 1%nat ->
  countType Goal (mazeData (store app0)) = 1%nat ->
  typeAt (mazeData (store app0)) start = Some Start ->
  typeAt (mazeData (store app0)) goal = Some Goal ->
  unmarked (mazeData (store app0)) ->
  exists app1 appf,
    doStart app0 = Ok app1
    /\ ticks (height (mazeData (store app0)) * width (mazeData (store app0)) + 1) app1
       = Ok appf
    /\ ((solutionType (store appf) = FoundSolution
         /\ exists p, connects (mazeData (store app0)) start goal p
              /\ forall s, s ∈ p -> stateAt (mazeData (store appf)) s = Some SolutionPath)
        \/ (solutionType (store appf) = NoSolution
            /\ forall p, ~ connects (mazeData (store app0)) start goal p)).
Proof. exact (search_completes app0 start goal). Qed.

Lemma search_complete_witness :
  exists app1 appf : App GreedBestFrontier.t,
    doStart (mkApp (mkStore open_grid 0 Pending) Ready false None) = Ok app1
    /\ ticks (height open_grid * width open_grid + 1) app1 = Ok appf
    /\ ((solutionType (store appf) = FoundSolution
         /\ exists p, connects open_grid (0, 0) (1, 1) p
              /\ forall s, s ∈ p -> stateAt (mazeData (store appf)) s = Some SolutionPath)
        \/ (solutionType (store appf) = NoSolution
            /\ forall p, ~ connects open_grid (0, 0) (1, 1) p)).
Proof.
  apply (search_complete (F := GreedBestFrontier.t)
           (mkApp (mkStore open_grid 0 Pending) Ready false None) (0, 0) (1, 1)).
  - split; [discriminate|]. repeat constructor.
  - reflexivity.
  - reflexivity.
  - reflexivity.
  - reflexivity.
  - repeat constructor; discriminate.
Defined.

(** X17.  The counter and the colours agree.  On a rectangular grid with
    one start and one goal that carries no mark of an earlier search,
    whatever the frontier class and however often the timer has fired,
    [numExplored] is the number of cells marked [Explored] or
    [SolutionPath]; and once the outcome is [FoundSolution], the cells
    marked [SolutionPath] are exactly the cells of one walk from the start
    to the goal, which visits no cell twice. *)
Theorem counter_counts_marks {F : Type} `{FrontierLaws F} (app0 : App F)
        (start goal : State) (n : nat) :
  rectangular (mazeData (store app0)) ->
  countType Start (mazeData (store app0)) = 1%nat ->
  countType Goal (mazeData (store app0)) = 1%nat ->
  typeAt (mazeData (store app0)) start = Some Start ->
  typeAt (mazeData (store app0)) goal = Some Goal ->
  pristine (mazeData (store app0)) ->
  exists app1 appn,
    doStart app0 = Ok app1 /\ ticks n app1 = Ok appn
    /\ numExplored (store appn)
       = Z.of_nat (countState Explored (mazeData (store appn))
                   + countState SolutionPath (mazeData (store appn)))
    /\ (solutionType (store appn) = FoundSolution ->
        exists p, connects (mazeData (store app0)) start goal p /\ NoDup p
          /\ forall s, stateAt (mazeData (store appn)) s = Some SolutionPath <-> s ∈ p).
Proof.
  intros Hrect Hs Hg Hstart Hgoal Hp.
  pose proof (doStart_spec app0 Hrect) as Hspec.
  destruct (doStart app0) as [app1|e]; [|tauto].
  destruct Hspec as (this0 & c1 & Hps & Hpg & Hdims & Hpass & Hdr & Hinv & Hcont
                     & Hint & Hnum1 & Hst1 & Hc1).
  set (maze0 := mazeData (store app0)) in *.
  assert (start = _start this0) as -> by (eapply placesOf_unique; eauto).
  assert (goal = _goal this0) as -> by (eapply placesOf_unique; eauto).
  assert (HP1 : PInv maze0 this0 c1 (store app1)).
  { subst c1. now apply PInv_initial. }
  set (Q := fun st : Store =>
         sameTypes maze0 (mazeData st)
         /\ numExplored st
            = Z.of_nat (length (marked maze0 Explored (mazeData st))
                        + length (marked maze0 SolutionPath (mazeData st)))
         /\ (solutionType st = FoundSolution ->
             exists p, connects maze0 (_start this0) (_goal this0) p /\ NoDup p
               /\ forall s, stateAt (mazeData st) s = Some SolutionPath <-> s ∈ p)).
  assert (Hrun : forall c st, PInv maze0 this0 c st -> solutionType st = Continue -> Q st).
  { intros c st (((_ & Hty & _) & _) & Hnsp & _ & Hnum) Hc.
    split; [exact Hty|]. split; [|rewrite Hc; discriminate].
    rewrite Hnum. unfold marked at 3. rewrite filter_none; [cbn [length]; lia|].
    intros s _. apply Hnsp. }
  destruct (ticks_run maze0 this0 Hrect Hdims (PInv maze0 this0) Q)
    with (n := n) (app := app1) (c := c1) as (appn & Hticks & Hty & Hnum & Hfound).
  - intros c st HP. apply HP.
  - intros; eapply PInv_Step; eauto.
  - exact Hrun.
  - intros c st c' st' HP Hc Hstep Hterm.
    assert (Hend := HP). eapply PInv_end in Hend; eauto. destruct Hend as [Hnum Hfound].
    split; [|split; assumption].
    destruct HP as ((Hi & _) & _).
    assert (Hi' : Inv maze0 this0 c' st') by (eapply Step_Inv; eauto).
    apply Hi'.
  - exact Hdr.
  - now apply (Hrun c1).
  - auto.
  - exists app1, appn. split; [reflexivity|]. split; [exact Hticks|].
    rewrite <- !(marked_length maze0) by assumption. auto.
Qed.

Lemma counter_counts_marks_witness :
  exists app1 appn : App AStarFrontier.t,
    doStart (mkApp (mkStore open_grid 0 Pending) Ready false None) = Ok app1
    /\ ticks 2 app1 = Ok appn
    /\ numExplored (store appn)
       = Z.of_nat (countState Explored (mazeData (store appn))
                   + countState SolutionPath (mazeData (store appn)))
    /\ (solutionType (store appn) = FoundSolution ->
        exists p, connects open_grid (0, 0) (1, 1) p /\ NoDup p
          /\ forall s, stateAt (mazeData (store appn)) s = Some SolutionPath <-> s ∈ p).
Proof.
  apply (counter_counts_marks (F := AStarFrontier.t)
           (mkApp (mkStore open_grid 0 Pending) Ready false None) (0, 0) (1, 1) 2).
  - split; [discriminate|]. repeat constructor.
  - reflexivity.
  - reflexivity.
  - reflexivity.
  - reflexivity.
  - repeat constructor.
Defined.

(** ** Which error the constructor throws *)

Lemma scan_which (maze : MazeData) (l : list State) :
  (forall s, s ∈ l -> is_Some (typeAt maze s)) ->
  forall os og e, foldM (scanAt maze) l (os, og) = Throw e ->
  (e = Error "只能有一个起点"
   /\ (found1 os + length (filter (fun s => typeAt maze s = Some Start) l) >= 2)%nat)
  \/ (e = Error "只能有一个终点"
      /\ (found1 og + length (filter (fun s => typeAt maze s = Some Goal) l) >= 2)%nat).
Proof.
  induction l as [|s l IH]; intros Hin os og e Hr; [discriminate|].
  assert (Hin' : forall t, t ∈ l -> is_Some (typeAt maze t)).
  { intros t Ht. apply Hin. now constructor. }
  specialize (IH Hin').
  destruct (Hin s (list_elem_of_here _ _)) as [ty Hty].
  destruct s as [i j].
  cbn [foldM] in Hr. unfold scanAt at 1, scanCell in Hr. cbn [fst snd] in Hr.
  unfold typeAt in Hty. destruct (cellAt maze (i, j)) as [c|e'] eqn:Hc; [|discriminate].
  injection Hty as Hty. cbn [bind] in Hr.
  assert (HtyAt : typeAt maze (i, j) = Some ty) by (unfold typeAt; now rewrite Hc, Hty).
  rewrite !filter_cons, HtyAt.
  destruct (MazeCell.type c) eqn:Htc; subst ty.
  - rewrite !decide_False by discriminate. now apply IH.
  - rewrite !decide_False by discriminate. now apply IH.
  - rewrite decide_True by reflexivity. rewrite decide_False by discriminate.
    destruct os as [p|]; cbn [bind] in Hr.
    + injection Hr as <-. left. cbn [found1 length]. split; [reflexivity|lia].
    + apply IH in Hr. cbn [found1 length] in *. destruct Hr as [[-> Hn]|[-> Hn]];
        [left|right]; split; auto; lia.
  - rewrite decide_False by discriminate. rewrite decide_True by reflexivity.
    destruct og as [p|]; cbn [bind] in Hr.
    + injection Hr as <-. right. cbn [found1 length]. split; [reflexivity|lia].
    + apply IH in Hr. cbn [found1 length] in *. destruct Hr as [[-> Hn]|[-> Hn]];
        [left|right]; split; auto; lia.
Qed.

Lemma constructor_throws (st : Store) :
  rectangular (mazeData st) ->
  let starts := countType Start (mazeData st) in
  let goals := countType Goal (mazeData st) in
  (constructor st = Throw (Error "只能有一个起点") -> (2 <= starts)%nat)
  /\ (constructor st = Throw (Error "只能有一个终点") -> (2 <= goals)%nat)
  /\ ((2 <= starts)%nat \/ (2 <= goals)%nat ->
        constructor st = Throw (Error "只能有一个起点")
        \/ constructor st = Throw (Error "只能有一个终点"))
  /\ (constructor st = Throw (Error "没有起点")
      <-> starts = 0%nat /\ (goals <= 1)%nat)
  /\ (constructor st = Throw (Error "没有终点")
      <-> starts = 1%nat /\ goals = 0%nat).
Proof.
  intros Hrect starts goals. subst starts goals.
  rewrite <- (placesOf_length Start _ Hrect), <- (placesOf_length Goal _ Hrect).
  unfold constructor.
  destruct (mazeData st) as [|row0 rows] eqn:Hmaze; [now destruct Hrect|].
  rewrite <- Hmaze in *.
  assert (H0 : mazeData st !! 0%nat = Some row0) by now rewrite Hmaze.
  rewrite H0.
  assert (Hw : length row0 = width (mazeData st)) by now rewrite Hmaze.
  rewrite Hw. change (length (mazeData st)) with (height (mazeData st)).
  rewrite constructor_loops.
  assert (Hcells : forall s, s ∈ allStates (mazeData st) -> is_Some (typeAt (mazeData st) s)).
  { intros s Hs. apply allStates_elem in Hs.
    destruct (cellAt_inBounds _ _ Hrect Hs) as [c Hc]. unfold typeAt. rewrite Hc. eauto. }
  destruct (foldM (scanAt (mazeData st)) (allStates (mazeData st)) (None, None))
    as [[os og]|e] eqn:Hscan; cbn [bind].
  - apply scan_spec in Hscan; [|exact Hcells].
    unfold scanned in Hscan; cbn [found1] in Hscan.
    fold (placesOf Start (mazeData st)) in Hscan.
    fold (placesOf Goal (mazeData st)) in Hscan.
    destruct Hscan as (H1 & H2 & -> & ->).
    destruct (placesOf Start (mazeData st)) as [|s ss] eqn:Hs; cbn [head length] in *.
    { repeat split; intros; try discriminate; try lia; auto. }
    destruct (placesOf Goal (mazeData st)) as [|g gs] eqn:Hg; cbn [head length] in *.
    { repeat split; intros; try discriminate; try lia; auto. }
    repeat split; intros; try discriminate; lia.
  - apply scan_which in Hscan; [|exact Hcells]. cbn [found1] in Hscan.
    fold (placesOf Start (mazeData st)) in Hscan.
    fold (placesOf Goal (mazeData st)) in Hscan.
    destruct Hscan as [[-> Hn]|[-> Hn]]; repeat split; intros; try discriminate; try lia; auto.
Qed.

(** X18.  On a rectangular grid, the error of the constructor tells what is
    wrong.  It throws ["只能有一个起点"] only when there are two or more
    start cells and ["只能有一个终点"] only when there are two or more goal
    cells, one of the two whenever either is the case; it throws
    ["没有起点"] exactly when there is no start cell and at most one goal
    cell, and ["没有终点"] exactly when there is one start cell and no goal
    cell. *)
Theorem constructor_error (st : Store) :
  rectangular (mazeData st) ->
  let starts := countType Start (mazeData st) in
  let goals := countType Goal (mazeData st) in
  (constructor st = Throw (Error "只能有一个起点") -> (2 <= starts)%nat)
  /\ (constructor st = Throw (Error "只能有一个终点") -> (2 <= goals)%nat)
  /\ ((2 <= starts)%nat \/ (2 <= goals)%nat ->
        constructor st = Throw (Error "只能有一个起点")
        \/ constructor st = Throw (Error "只能有一个终点"))
  /\ (constructor st = Throw (Error "没有起点")
      <-> starts = 0%nat /\ (goals <= 1)%nat)
  /\ (constructor st = Throw (Error "没有终点")
      <-> starts = 1%nat /\ goals = 0%nat).
Proof. exact (constructor_throws st). Qed.

Lemma constructor_error_witness :
  constructor (mkStore [[MazeCell.mk Space Unexplored None; MazeCell.mk Goal Unexplored None]]
                       0 Pending)
  = Throw (Error "没有起点").
Proof.
  refine (proj2 (proj1 (proj2 (proj2 (proj2
    (constructor_error
       (mkStore [[MazeCell.mk Space Unexplored None; MazeCell.mk Goal Unexplored None]]
                0 Pending) _))))) (conj _ _)).
  - split; [discriminate|]. repeat constructor.
  - reflexivity.
  - vm_compute. constructor.
Defined.

(** ** The buttons *)

(** X19.  [start] never throws.  On a rectangular grid it either starts the
    search (one start cell, one goal cell: the demo is [Running], the timer
    armed, the counter at zero, the outcome [Continue]) or reports one of
    the four topology errors; in that case the grid, the demo state, the
    timer and [demoRunner] are as before, the counter is zero and the
    outcome [Pending]. *)
Theorem start_reports {F : Type} `{FrontierLaws F} (app : App F) :
  rectangular (mazeData (store app)) ->
  match Controls.start app with
  | (app', None) =>
      doStart app = Ok app'
      /\ countType Start (mazeData (store app)) = 1%nat
      /\ countType Goal (mazeData (store app)) = 1%nat
      /\ demoState app' = Running /\ interval app' = true
      /\ is_Some (demoRunner app')
      /\ numExplored (store app') = 0 /\ solutionType (store app') = Continue
  | (app', Some e) =>
      doStart app = Throw e
      /\ e ∈ topologyErrors
      /\ ~ (countType Start (mazeData (store app)) = 1%nat
            /\ countType Goal (mazeData (store app)) = 1%nat)
      /\ mazeData (store app') = mazeData (store app)
      /\ numExplored (store app') = 0 /\ solutionType (store app') = Pending
      /\ demoState app' = demoState app /\ interval app' = interval app
      /\ demoRunner app' = demoRunner app
  end.
Proof.
  intros Hrect. unfold Controls.start.
  pose proof (doStart_spec app Hrect) as Hspec.
  destruct (doStart app) as [app1|e] eqn:Hstart.
  - destruct Hspec as (this0 & c1 & Hps & Hpg & _ & _ & Hdr & _ & Hcont & Hint & Hnum & _).
    assert (Hdemo : demoState app1 = Running).
    { unfold doStart in Hstart.
      destruct (constructor (store app)) as [[m st]|]; [|discriminate].
      cbn [bind] in Hstart. destruct (solve m st) as [[nx st']|]; [|discriminate].
      now injection Hstart as <-. }
    split; [reflexivity|].
    rewrite <- (placesOf_length Start _ Hrect), <- (placesOf_length Goal _ Hrect), Hps, Hpg.
    rewrite Hdr. repeat split; eauto.
  - destruct Hspec as [He Hn]. unfold Controls.doStart_thrown.
    destruct (mazeData (store app)) as [|row0 rows] eqn:Hmaze; [now destruct Hrect|].
    cbn [fst snd store mazeData numExplored solutionType demoState interval demoRunner].
    repeat split; auto.
Qed.

Lemma start_reports_witness :
  exists app' : App QueueFrontier.t,
    Controls.start (mkApp (mkStore open_grid 7 NoSolution) Ready false None) = (app', None)
    /\ demoState app' = Running /\ numExplored (store app') = 0.
Proof.
  pose proof (start_reports (F := QueueFrontier.t)
                (mkApp (mkStore open_grid 7 NoSolution) Ready false None)) as Hs.
  destruct (Controls.start (mkApp (mkStore open_grid 7 NoSolution) Ready false None))
    as [app' [e|]] eqn:Hstart.
  - exfalso. destruct Hs as (_ & _ & Hn & _).
    + split; [discriminate|]. repeat constructor.
    + apply Hn. split; reflexivity.
  - exists app'. split; [reflexivity|]. destruct Hs as (_ & _ & _ & Hd & _ & _ & Hn & _).
    + split; [discriminate|]. repeat constructor.
    + auto.
Defined.

(** [k] clicks on the button that steps the search. *)
Fixpoint nexts {F : Type} `{IFrontier F} (k : nat) (app : App F) : result (App F) :=
  match k with
  | O => Ok app
  | S k' => let* (app', _) := Controls.next app in nexts k' app'
  end.

(** One call of [demoRunner] reads the store and the closure only. *)
Lemma demoRunner_call_rel {F : Type} `{IFrontier F} (a b : App F) :
  store a = store b -> demoRunner a = demoRunner b ->
  match demoRunner_call a, demoRunner_call b with
  | Ok a', Ok b' =>
      store a' = store b' /\ demoRunner a' = demoRunner b'
      /\ (demoRunner a = None \/
          if bool_decide (solutionType (store b') = Continue)
          then interval a' = interval a /\ interval b' = interval b
               /\ demoState a' = demoState a /\ demoState b' = demoState b
          else interval a' = false /\ interval b' = false
               /\ demoState a' = Done /\ demoState b' = Done)
  | Throw e, Throw e' => e = e'
  | _, _ => False
  end.
Proof.
  intros Hst Hdr. unfold demoRunner_call. rewrite <- Hdr, <- Hst.
  destruct (demoRunner a) as [c|] eqn:Ha;
    [|split; [exact Hst|split; [congruence|now left]]].
  destruct (if bool_decide (solutionType (store a) = Continue)
            then next c (store a) else Ok (c, store a)) as [[c' st]|e]; cbn [bind];
    [|reflexivity].
  destruct (decide (solutionType st = Continue)) as [Hc|Hc].
  - rewrite (bool_decide_eq_false_2 (solutionType st <> Continue)) by tauto.
    cbn. rewrite bool_decide_eq_true_2 by assumption. auto 10.
  - rewrite (bool_decide_eq_true_2 (solutionType st <> Continue)) by assumption.
    cbn. rewrite bool_decide_eq_false_2 by assumption. auto 10.
Qed.

Lemma demoRunner_call_fields {F : Type} `{IFrontier F} (a a' : App F) :
  demoRunner_call a = Ok a' ->
  (interval a = false -> interval a' = false)
  /\ (is_Some (demoRunner a) -> is_Some (demoRunner a')).
Proof.
  unfold demoRunner_call. destruct (demoRunner a) as [c|].
  - destruct (if bool_decide (solutionType (store a) = Continue)
              then next c (store a) else Ok (c, store a)) as [[c' st]|e]; cbn [bind];
      [|discriminate].
    destruct (bool_decide (solutionType st <> Continue)); intros [= <-]; cbn;
      (split; [auto|intros _; eauto]).
  - intros [= <-]. split; [auto|]. intros [? [=]].
Qed.

(** X20.  Stepping by hand is stepping by the timer.  On a component with
    no search under way on which [doStart] succeeds, the button that steps
    prepares the same search and pauses it before its first step; and after
    [k] further clicks the store and the closure are those that [k] firings
    of the timer give after [start], the two runs throwing or not together.
    The timer never fires on the paused demo. *)
Theorem stepping_by_hand {F : Type} `{IFrontier F} (app app1 : App F) (k : nat) :
  demoRunner app = None ->
  doStart app = Ok app1 ->
  Controls.next app = Ok (Controls.pause app1, None)
  /\ demoState (Controls.pause app1) = Paused
  /\ store (Controls.pause app1) = store app1
  /\ ticks k (Controls.pause app1) = Ok (Controls.pause app1)
  /\ match nexts k (Controls.pause app1), ticks k app1 with
     | Ok a, Ok b =>
         store a = store b /\ demoRunner a = demoRunner b /\ interval a = false
     | Throw e, Throw e' => e = e'
     | _, _ => False
     end.
Proof.
  intros Hnone Hstart.
  split; [unfold Controls.next, Controls.start; now rewrite Hnone, Hstart|].
  split; [reflexivity|]. split; [reflexivity|].
  split; [now apply ticks_stopped|].
  assert (Hinit : exists c, demoRunner app1 = Some c
                            /\ solutionType (store app1) = Continue
                            /\ interval app1 = true).
  { unfold doStart in Hstart.
    destruct (constructor (store app)) as [[m st]|]; [|discriminate].
    cbn [bind] in Hstart. unfold solve in Hstart.
    destruct (setCellState _ _ _); [|discriminate]. cbn [bind] in Hstart.
    injection Hstart as <-. cbn. eauto. }
  destruct Hinit as (c1 & Hc1 & Hcont & Hint).
  assert (Hgen : forall k (a b : App F),
            store a = store b -> demoRunner a = demoRunner b ->
            is_Some (demoRunner a) -> interval a = false ->
            (interval b = true <-> solutionType (store b) = Continue) ->
            match nexts k a, ticks k b with
            | Ok a', Ok b' =>
                store a' = store b' /\ demoRunner a' = demoRunner b' /\ interval a' = false
            | Throw e, Throw e' => e = e'
            | _, _ => False
            end).
  { clear. induction k as [|k IH]; intros a b Hst Hdr Hsome Hia Hib; [cbn; auto|].
    destruct Hsome as [c Hc].
    cbn [nexts ticks]. unfold Controls.next. rewrite Hc.
    pose proof (demoRunner_call_rel a b Hst Hdr) as Hrel.
    pose proof (demoRunner_call_fields a) as Hfields.
    destruct (interval b) eqn:Hintb.
    - destruct (demoRunner_call a) as [a'|e], (demoRunner_call b) as [b'|e'];
        cbn [bind]; try contradiction; [|exact Hrel].
      destruct Hrel as (Hst' & Hdr' & [Hn|Hrel]); [congruence|].
      destruct (Hfields a' eq_refl) as [Hi' Hs'].
      apply IH; [exact Hst'|exact Hdr'|apply Hs'; rewrite Hc; eauto|auto|].
      destruct (decide (solutionType (store b') = Continue)) as [Hc'|Hc'].
      + rewrite bool_decide_eq_true_2 in Hrel by assumption.
        destruct Hrel as (_ & -> & _). tauto.
      + rewrite bool_decide_eq_false_2 in Hrel by assumption.
        destruct Hrel as (_ & -> & _). split; [discriminate|contradiction].
    - assert (Hterm : solutionType (store a) <> Continue).
      { rewrite Hst. intros Hc'. apply Hib in Hc'. discriminate. }
      destruct (demoRunner_call_terminal a Hterm) as (a' & Hcall & Hsta & Hdra).
      rewrite Hcall in *. cbn [bind].
      destruct (Hfields a' eq_refl) as [Hi' Hs'].
      specialize (IH a' b). rewrite (ticks_stopped k b Hintb) in IH.
      apply IH; [congruence|congruence|apply Hs'; rewrite Hc; eauto|auto|].
      rewrite Hintb. exact Hib. }
  apply Hgen; [reflexivity|reflexivity|cbn; rewrite Hc1; eauto|reflexivity|].
  rewrite Hint, Hcont. tauto.
Qed.

(** The component right after [start] on a grid, for the examples. *)
Definition started {F : Type} `{IFrontier F} (maze : MazeData) : App F :=
  match doStart (mkApp (mkStore maze 0 Pending) Ready false None) with
  | Ok app1 => app1
  | Throw _ => mkApp (mkStore maze 0 Pending) Ready false None
  end.

Lemma stepping_by_hand_witness :
  exists a b : App StackFrontier.t,
    nexts 2 (Controls.pause (started open_grid)) = Ok a
    /\ ticks 2 (started open_grid) = Ok b
    /\ store a = store b.
Proof.
  pose proof (stepping_by_hand (F := StackFrontier.t)
                (mkApp (mkStore open_grid 0 Pending) Ready false None)
                (started open_grid) 2 eq_refl eq_refl) as (_ & _ & _ & _ & Hrun).
  destruct (nexts 2 _) as [a|] eqn:Ha in Hrun; [|vm_compute in Ha; discriminate].
  destruct (ticks 2 _) as [b|] eqn:Hb in Hrun; [|contradiction].
  exists a, b. split; [exact Ha|]. split; [exact Hb|]. apply Hrun.
Defined.

Lemma ticks_add {F : Type} `{IFrontier F} (k m : nat) (app : App F) :
  ticks (k + m) app = let* app' := ticks k app in ticks m app'.
Proof.
  revert app. induction k as [|k IH]; intros app; [reflexivity|].
  cbn [Nat.add ticks]. destruct (interval app) eqn:Hint.
  - destruct (demoRunner_call app) as [app'|e]; cbn [bind]; [apply IH|reflexivity].
  - cbn [bind]. now rewrite ticks_stopped.
Qed.

(** Two components with the same store and closure, both with the timer
    armed while the search continues, go through the same stores. *)
Lemma ticks_rel {F : Type} `{IFrontier F} (m : nat) (a b : App F) :
  store a = store b -> demoRunner a = demoRunner b -> is_Some (demoRunner a) ->
  (solutionType (store a) = Continue -> interval a = true /\ interval b = true) ->
  match ticks m a, ticks m b with
  | Ok a', Ok b' => store a' = store b' /\ demoRunner a' = demoRunner b'
  | Throw e, Throw e' => e = e'
  | _, _ => False
  end.
Proof.
  revert a b. induction m as [|m IH]; intros a b Hst Hdr Hsome Hint; [cbn; auto|].
  destruct (decide (solutionType (store a) = Continue)) as [Hc|Hc].
  - destruct (Hint Hc) as [Hia Hib]. cbn [ticks]. rewrite Hia, Hib.
    pose proof (demoRunner_call_rel a b Hst Hdr) as Hrel.
    pose proof (demoRunner_call_fields a) as Hfields.
    destruct (demoRunner_call a) as [a'|e], (demoRunner_call b) as [b'|e'];
      cbn [bind]; try contradiction; [|exact Hrel].
    destruct (Hfields a' eq_refl) as [_ Hs'].
    destruct Hrel as (Hst' & Hdr' & [Hn|Hrel]).
    { destruct Hsome as [c Hc']. congruence. }
    apply IH; [exact Hst'|exact Hdr'|auto|]. intros Hc'.
    rewrite <- Hst' in Hrel. rewrite bool_decide_eq_true_2 in Hrel by assumption.
    destruct Hrel as (-> & -> & _). auto.
  - assert (Hcb : solutionType (store b) <> Continue) by now rewrite <- Hst.
    destruct (ticks_terminal (S m) a Hc) as (a' & -> & Hsa & Hda).
    destruct (ticks_terminal (S m) b Hcb) as (b' & -> & Hsb & Hdb).
    split; congruence.
Qed.

(** X21.  Resuming goes on where the steps by hand stopped.  After a search
    was started, paused, and stepped [k] times by hand, [resume] arms the
    timer again, and [m] firings of it lead to the store and the closure
    that [k + m] firings lead to when the search is never paused. *)
Theorem resume_continues {F : Type} `{IFrontier F} (app1 a : App F) (k m : nat) :
  is_Some (demoRunner app1) ->
  solutionType (store app1) = Continue -> interval app1 = true ->
  nexts k (Controls.pause app1) = Ok a ->
  demoState (Controls.resume a) = Running
  /\ interval (Controls.resume a) = true
  /\ store (Controls.resume a) = store a
  /\ match ticks m (Controls.resume a), ticks (k + m) app1 with
     | Ok a', Ok b' => store a' = store b' /\ demoRunner a' = demoRunner b'
     | Throw e, Throw e' => e = e'
     | _, _ => False
     end.
Proof.
  intros Hsome Hcont Hint Hk.
  assert (Hgen : forall k (a0 b0 a : App F),
            store a0 = store b0 -> demoRunner a0 = demoRunner b0 ->
            is_Some (demoRunner a0) -> interval a0 = false ->
            (interval b0 = true <-> solutionType (store b0) = Continue) ->
            nexts k a0 = Ok a ->
            exists b, ticks k b0 = Ok b
                      /\ store a = store b /\ demoRunner a = demoRunner b
                      /\ is_Some (demoRunner a)
                      /\ (interval b = true <-> solutionType (store b) = Continue)).
  { clear. induction k as [|k IH]; intros a0 b0 a Hst Hdr Hsome Hia Hib Hk.
    { injection Hk as <-. exists b0. auto. }
    destruct Hsome as [c Hc].
    cbn [nexts ticks] in *. unfold Controls.next in Hk. rewrite Hc in Hk.
    pose proof (demoRunner_call_rel a0 b0 Hst Hdr) as Hrel.
    pose proof (demoRunner_call_fields a0) as Hfields.
    destruct (interval b0) eqn:Hintb.
    - destruct (demoRunner_call a0) as [a'|e], (demoRunner_call b0) as [b'|e'];
        cbn [bind] in *; try contradiction; try discriminate.
      destruct Hrel as (Hst' & Hdr' & [Hn|Hrel]); [congruence|].
      destruct (Hfields a' eq_refl) as [Hi' Hs'].
      apply (IH a' b' a); [exact Hst'|exact Hdr'|apply Hs'; rewrite Hc; eauto|auto| |exact Hk].
      destruct (decide (solutionType (store b') = Continue)) as [Hc'|Hc'].
      + rewrite bool_decide_eq_true_2 in Hrel by assumption.
        destruct Hrel as (_ & -> & _). tauto.
      + rewrite bool_decide_eq_false_2 in Hrel by assumption.
        destruct Hrel as (_ & -> & _). split; [discriminate|contradiction].
    - assert (Hterm : solutionType (store a0) <> Continue).
      { rewrite Hst. intros Hc'. apply Hib in Hc'. discriminate. }
      destruct (demoRunner_call_terminal a0 Hterm) as (a' & Hcall & Hsta & Hdra).
      rewrite Hcall in *. cbn [bind] in Hk.
      destruct (Hfields a' eq_refl) as [Hi' Hs'].
      destruct (IH a' b0 a) as (b & Hb & Hrest);
        [congruence|congruence|apply Hs'; rewrite Hc; eauto|auto| |exact Hk|].
      + rewrite Hintb. exact Hib.
      + rewrite (ticks_stopped k b0 Hintb) in Hb. injection Hb as <-.
        exists b0. auto. }
  destruct (Hgen k (Controls.pause app1) app1 a) as (b & Hb & Hst & Hdr & [c Hc] & Hib);
    [reflexivity|reflexivity|exact Hsome|reflexivity|rewrite Hint, Hcont; tauto|exact Hk|].
  unfold Controls.resume. rewrite Hc. cbn [demoState interval store].
  split; [reflexivity|]. split; [reflexivity|]. split; [reflexivity|].
  rewrite ticks_add, Hb. cbn [bind].
  destruct (decide (solutionType (store b) = Continue)) as [Hcb|Hcb].
  - apply ticks_rel; cbn [store demoRunner interval]; [exact Hst|congruence|eauto|].
    intros _. split; [reflexivity|now apply Hib].
  - assert (Hca : solutionType (store (mkApp (store a) Running true (Some c))) <> Continue).
    { cbn [store]. now rewrite Hst. }
    destruct (ticks_terminal m _ Hca) as (a' & -> & Hsa & Hda).
    destruct (ticks_terminal m b Hcb) as (b' & -> & Hsb & Hdb).
    cbn [store demoRunner] in *. split; congruence.
Qed.

Lemma resume_continues_witness :
  exists a a' b' : App QueueFrontier.t,
    nexts 1 (Controls.pause (started open_grid)) = Ok a
    /\ ticks 1 (Controls.resume a) = Ok a'
    /\ ticks 2 (started open_grid) = Ok b'
    /\ store a' = store b'.
Proof.
  destruct (nexts (F := QueueFrontier.t) 1 (Controls.pause (started open_grid)))
    as [a|] eqn:Hk; [|vm_compute in Hk; discriminate].
  pose proof (resume_continues (started open_grid) a 1 1) as Hres.
  destruct Hres as (_ & _ & _ & Hrun);
    [eexists; reflexivity|reflexivity|reflexivity|exact Hk|].
  change (1 + 1)%nat with 2%nat in Hrun.
  destruct (ticks 1 (Controls.resume a)) as [a'|] eqn:Ha;
    destruct (ticks 2 (started open_grid)) as [b'|] eqn:Hb; try contradiction.
  - exists a, a', b'. split; [reflexivity|]. split; [exact Ha|].
    split; [first [exact Hb|reflexivity]|apply Hrun].
  - vm_compute in Hb. discriminate.
Defined.

(** ** Loading a maze *)

Lemma updateMazeFromTemplate_cases {F : Type} `{IFrontier F} (e : Editor F)
        (template : string) :
  match updateMazeFromTemplate e template with
  | (e', None) =>
      wellFormed template = true
      /\ buildMaze template = Ok (mazeData (store (demo e')))
      /\ pristine (mazeData (store (demo e')))
      /\ demo e' = mkApp (mkStore (mazeData (store (demo e'))) 0 Pending) Ready false None
      /\ mazeHeight e' = height (mazeData (store (demo e')))
      /\ mazeWidth e' = width (mazeData (store (demo e')))
      /\ (0 < mazeHeight e')%nat
      /\ brush e' = brush e /\ consecutiveDrawing e' = consecutiveDrawing e
  | (e', Some ex) =>
      wellFormed template = false
      /\ ex = Error "invalid template"
      /\ demo e' = reset (demo e)
      /\ brush e' = brush e /\ consecutiveDrawing e' = consecutiveDrawing e
      /\ mazeWidth e' = mazeWidth e /\ mazeHeight e' = mazeHeight e
  end.
Proof.
  unfold updateMazeFromTemplate.
  pose proof (buildMaze_spec template) as Hspec.
  pose proof (buildMaze_pristine template) as Hp.
  destruct (wellFormed template).
  - destruct Hspec as (row & rows & Hb & _). rewrite Hb in *.
    cbn. repeat split; auto. lia.
  - rewrite Hspec. cbn. repeat split.
Qed.

(** X22.  [updateMazeFromTemplate] resets the demo first and parses then.
    On a template that [buildMaze] accepts it leaves the parsed grid, fresh,
    in a component that is [Ready] with no timer, no [demoRunner], the
    counter at zero and the outcome [Pending], and sets the size fields to
    the length of the first row and the number of rows.  On any other
    template it throws ["invalid template"], and the component is then the
    one that [reset] alone leaves: the old grid, cleared. *)
Theorem updateMazeFromTemplate_spec {F : Type} `{IFrontier F} (e : Editor F)
        (template : string) :
  match updateMazeFromTemplate e template with
  | (e', None) =>
      wellFormed template = true
      /\ buildMaze template = Ok (mazeData (store (demo e')))
      /\ pristine (mazeData (store (demo e')))
      /\ demo e' = mkApp (mkStore (mazeData (store (demo e'))) 0 Pending) Ready false None
      /\ mazeHeight e' = height (mazeData (store (demo e')))
      /\ mazeWidth e' = width (mazeData (store (demo e')))
      /\ (0 < mazeHeight e')%nat
      /\ brush e' = brush e /\ consecutiveDrawing e' = consecutiveDrawing e
  | (e', Some ex) =>
      wellFormed template = false
      /\ ex = Error "invalid template"
      /\ demo e' = reset (demo e)
      /\ brush e' = brush e /\ consecutiveDrawing e' = consecutiveDrawing e
      /\ mazeWidth e' = mazeWidth e /\ mazeHeight e' = mazeHeight e
  end.
Proof. exact (updateMazeFromTemplate_cases e template). Qed.

(** The cell of an empty maze. *)
Definition spaceCell : MazeCell.t := MazeCell.mk Space Unexplored None.

Lemma substring_prefix (s t : string) :
  substring 0 (String.length s) (s ++ t) = s.
Proof.
  induction s as [|c s IH]; cbn [String.length append substring].
  - now destruct t.
  - now rewrite IH.
Qed.

Lemma length_append (s t : string) :
  String.length (s ++ t) = (String.length s + String.length t)%nat.
Proof. induction s as [|c s IH]; cbn [String.length append]; [reflexivity|]. now rewrite IH. Qed.

Lemma slice_line_end (s : string) : slice_0_m1 (s ++ String LF "") = s.
Proof.
  unfold slice_0_m1. rewrite length_append. cbn [String.length].
  replace (String.length s + 1 - 1)%nat with (String.length s) by lia.
  apply substring_prefix.
Qed.

Lemma spaces_row (w : nat) :
  String.concat "" (map cellChar (replicate w spaceCell)) = repeat " " w.
Proof.
  induction w as [|w IH]; [reflexivity|].
  cbn [replicate map repeat]. rewrite <- IH.
  cbn [String.concat]. now destruct (map cellChar (replicate w spaceCell)).
Qed.

Lemma empty_template (w h : nat) :
  slice_0_m1 (repeat (repeat " " w ++ String LF "") (S h))
  = mazeToTemplate (replicate (S h) (replicate w spaceCell)).
Proof.
  assert (Hrep : forall h, repeat (repeat " " w ++ String LF "") (S h)
            = (mazeToTemplate (replicate (S h) (replicate w spaceCell)) ++ String LF "")%string).
  { clear h. induction h as [|h IH].
    - unfold mazeToTemplate. cbn [repeat replicate map String.concat].
      rewrite spaces_row. now rewrite string_app_assoc.
    - change (repeat ?x (S (S h))) with (x ++ repeat x (S h))%string.
      rewrite IH. unfold mazeToTemplate.
      cbn [replicate map String.concat]. rewrite spaces_row.
      now rewrite !string_app_assoc. }
  rewrite Hrep. apply slice_line_end.
Qed.

Lemma countType_replicate (ty : MazeCellType) (h w : nat) :
  ty <> Space -> countType ty (replicate h (replicate w spaceCell)) = 0%nat.
Proof.
  intros Hty. unfold countType. rewrite filter_none; [reflexivity|].
  intros c Hc. apply list_elem_of_In, in_concat in Hc as (row & Hrow & Hc).
  apply list_elem_of_In in Hrow, Hc.
  apply elem_of_replicate in Hrow as [-> _].
  apply elem_of_replicate in Hc as [-> _]. cbn. congruence.
Qed.

(** X23.  [loadEmptyMaze(width, height)] never throws.  For a height of at
    least one it leaves a grid of [height] rows of [width] space cells; for
    a height of zero it leaves one empty row, and the height field says
    one.  Either way the demo is reset, and since the grid has no start
    cell, [start] on it reports ["没有起点"]. *)
Theorem loadEmptyMaze_spec {F : Type} `{IFrontier F} (e : Editor F) (w h : nat) :
  let rows := Nat.max h 1 in
  let cols := match h with O => O | S _ => w end in
  exists e',
    loadEmptyMaze e w h = (e', None)
    /\ demo e' = mkApp (mkStore (replicate rows (replicate cols spaceCell)) 0 Pending)
                      Ready false None
    /\ mazeHeight e' = rows /\ mazeWidth e' = cols
    /\ brush e' = brush e
    /\ (Controls.start (demo e')).2 = Some (Error "没有起点").
Proof.
  intros rows cols. unfold loadEmptyMaze.
  assert (Hb : buildMaze (slice_0_m1 (repeat (repeat " " w ++ String LF "") h))
               = Ok (replicate rows (replicate cols spaceCell))).
  { subst rows cols. destruct h as [|h]; [reflexivity|].
    rewrite empty_template, buildMaze_mazeToTemplate by discriminate.
    replace (Nat.max (S h) 1) with (S h) by lia. f_equal.
    change (map ?f ?l) with (f <$> l). rewrite fmap_replicate. f_equal.
    change (map ?f ?l) with (f <$> l). now rewrite fmap_replicate. }
  unfold updateMazeFromTemplate. rewrite Hb. clear Hb.
  assert (Hrows : exists r, rows = S r) by (exists (Nat.pred rows); subst rows; lia).
  destruct Hrows as [r ->]. clearbody cols.
  cbn [replicate]. eexists. split; [reflexivity|].
  cbn [demo mazeHeight mazeWidth brush withGrid].
  rewrite !length_replicate. cbn [length]. rewrite length_replicate.
  split; [reflexivity|].
  split; [reflexivity|]. split; [reflexivity|]. split; [reflexivity|].
  unfold Controls.start, doStart. cbn [store reset].
  change (replicate cols spaceCell :: replicate r (replicate cols spaceCell))
    with (replicate (S r) (replicate cols spaceCell)).
  set (st := mkStore _ _ _).
  assert (Hthrow : constructor st = Throw (Error "没有起点")).
  { apply constructor_throws; subst st; cbn [mazeData].
    - split; [discriminate|]. apply Forall_replicate. cbn [replicate width].
      reflexivity.
    - split; [now apply countType_replicate|].
      rewrite countType_replicate by discriminate. lia. }
  rewrite Hthrow. reflexivity.
Qed.

(** ** Shuffling *)

Lemma randomBelow_lt (random : Oracle) (calls n : nat) :
  (0 < n)%nat -> (randomBelow random calls n < n)%nat.
Proof.
  destruct n as [|n]; [lia|]. intros _. cbn [randomBelow].
  apply Nat.mod_upper_bound. lia.
Qed.

Lemma shuffle_loop_exchange {A} (random : Oracle) (n : nat) (array : list A) (calls : nat) :
  (S n <= length array)%nat ->
  shuffle_loop random (S n) array calls
  = shuffle_loop random n
      (PriorityQueue._swap array n (randomBelow random calls (S n))) (S calls).
Proof.
  intros Hn. cbn [shuffle_loop]. f_equal.
  pose proof (randomBelow_lt random calls (S n) ltac:(lia)) as Hr.
  unfold PriorityQueue._swap.
  destruct (lookup_lt_is_Some_2 array n ltac:(lia)) as [y ->].
  destruct (lookup_lt_is_Some_2 array (randomBelow random calls (S n)) ltac:(lia))
    as [x ->].
  reflexivity.
Qed.

Lemma shuffle_loop_perm {A} (random : Oracle) (n : nat) (array : list A) (calls : nat) :
  (n <= length array)%nat ->
  (shuffle_loop random n array calls).1 ≡ₚ array
  /\ (shuffle_loop random n array calls).2 = (calls + n)%nat.
Proof.
  revert array calls. induction n as [|n IH]; intros array calls Hn.
  - cbn. split; [reflexivity|lia].
  - rewrite shuffle_loop_exchange by exact Hn.
    destruct (IH (PriorityQueue._swap array n (randomBelow random calls (S n))) (S calls))
      as [Hp Hc].
    { rewrite swap_length. lia. }
    split; [now rewrite Hp, swap_perm|lia].
Qed.

Lemma shuffle_perm {A} (random : Oracle) (array : list A) (calls : nat) :
  (shuffle random array calls).1 ≡ₚ array.
Proof. apply shuffle_loop_perm. reflexivity. Qed.

(** The draws that lead to a given order. *)
Lemma shuffle_loop_reaches {A} (n : nat) (array target : list A) :
  (n <= length array)%nat -> length target = length array ->
  drop n array = drop n target -> take n array ≡ₚ take n target ->
  exists draws,
    length draws = n
    /\ forall (random : Oracle) calls,
         (forall i d, draws !! i = Some d -> random (calls + i)%nat = d) ->
         (shuffle_loop random n array calls).1 = target.
Proof.
  revert array. induction n as [|n IH]; intros array Hn Hlen Hdrop Htake.
  - exists []. split; [reflexivity|]. intros random calls _. cbn.
    now rewrite !drop_0 in Hdrop.
  - destruct (lookup_lt_is_Some_2 target n ltac:(lia)) as [y Hy].
    destruct (lookup_lt_is_Some_2 array n ltac:(lia)) as [x Hx].
    assert (Hin : y ∈ take (S n) array).
    { rewrite Htake. apply list_elem_of_lookup. exists n.
      rewrite lookup_take_lt by lia. exact Hy. }
    apply list_elem_of_lookup in Hin as [r Hr].
    assert (Hrn : (r < S n)%nat).
    { apply lookup_lt_Some in Hr. rewrite length_take in Hr. lia. }
    rewrite lookup_take_lt in Hr by lia.
    set (array' := PriorityQueue._swap array n r).
    assert (Harr : array' = <[r := x]> (<[n := y]> array)).
    { unfold array', PriorityQueue._swap. now rewrite Hx, Hr. }
    assert (Hn' : array' !! n = Some y).
    { rewrite Harr. destruct (decide (r = n)) as [->|Hne].
      - rewrite list_lookup_insert_eq by (rewrite length_insert; lia). congruence.
      - rewrite list_lookup_insert_ne by exact Hne.
        rewrite list_lookup_insert_eq by lia. reflexivity. }
    destruct (IH array') as (draws & Hdl & Hdraws).
    + unfold array'. rewrite swap_length. lia.
    + unfold array'. rewrite swap_length. exact Hlen.
    + rewrite (drop_S array' y n Hn'), (drop_S target y n Hy). f_equal.
      rewrite <- Hdrop, Harr. rewrite !drop_insert_lt by lia. reflexivity.
    + assert (Hsw : take (S n) array' ≡ₚ take (S n) array).
      { unfold array'. unfold PriorityQueue._swap. rewrite Hx, Hr.
        rewrite !take_insert_lt by lia.
        assert (Hx' : take (S n) array !! n = Some x) by now rewrite lookup_take_lt by lia.
        assert (Hr' : take (S n) array !! r = Some y) by now rewrite lookup_take_lt by lia.
        pose proof (swap_perm (take (S n) array) n r) as Hp.
        unfold PriorityQueue._swap in Hp. now rewrite Hx', Hr' in Hp. }
      rewrite Htake in Hsw.
      rewrite (take_S_r array' n y Hn'), (take_S_r target n y Hy) in Hsw.
      now apply Permutation_app_inv_r in Hsw.
    + exists (r :: draws). split; [cbn; lia|]. intros random calls Hrandom.
      rewrite shuffle_loop_exchange by exact Hn.
      assert (Hdraw : randomBelow random calls (S n) = r).
      { cbn [randomBelow]. rewrite <- (Nat.add_0_r calls), (Hrandom 0%nat r eq_refl).
        apply Nat.mod_small. lia. }
      rewrite Hdraw. apply Hdraws. intros i d Hd.
      replace (S calls + i)%nat with (calls + S i)%nat by lia.
      now apply Hrandom.
Qed.

(** X24.  [shuffle] rearranges: whatever [Math.random] returns, the array
    after holds the elements it held before, each as often, and one random
    number was drawn for each element.  And it can give every arrangement:
    for each one there are random numbers with which [shuffle] leaves
    it. *)
Theorem shuffle_permutes {A : Type} (array : list A) (calls : nat) :
  (forall random : Oracle,
     (shuffle random array calls).1 ≡ₚ array
     /\ length (shuffle random array calls).1 = length array
     /\ (shuffle random array calls).2 = (calls + length array)%nat)
  /\ (forall target, target ≡ₚ array ->
        exists random : Oracle, (shuffle random array calls).1 = target).
Proof.
  split.
  - intros random.
    destruct (shuffle_loop_perm random (length array) array calls ltac:(lia)) as [Hp Hc].
    split; [exact Hp|]. split; [now rewrite Hp|exact Hc].
  - intros target Hperm.
    destruct (shuffle_loop_reaches (length array) array target) as (draws & _ & Hdraws).
    + lia.
    + now rewrite Hperm.
    + rewrite drop_all. rewrite <- (Permutation_length Hperm). now rewrite drop_all.
    + rewrite firstn_all. rewrite <- (Permutation_length Hperm), firstn_all.
      now symmetry.
    + exists (fun k => nth (k - calls) draws 0%nat). apply Hdraws.
      intros i d Hd. replace (calls + i - calls)%nat with i by lia.
      now apply nth_lookup_Some.
Qed.

(** ** Random mazes *)

(** A write into a cell of a rectangular grid. *)
Lemma updateCell_inBounds (f : MazeCell.t -> MazeCell.t) (maze : MazeData) (p : State) :
  rectangular maze -> inBounds maze p ->
  exists maze' cell,
    cellAt maze p = Ok cell /\ updateCell f maze p = Ok maze'
    /\ rectangular maze' /\ height maze' = height maze /\ width maze' = width maze
    /\ forall t, cellAt maze' t = if decide (t = p) then Ok (f cell) else cellAt maze t.
Proof.
  intros Hrect Hin. destruct (cellAt_inBounds maze p Hrect Hin) as [cell Hcell].
  destruct (proj1 (updateCell_Ok f maze p)) as [maze' Hup]; [eauto|].
  exists maze', cell. split; [exact Hcell|]. split; [exact Hup|].
  assert (Hmaze' : maze' = alter (alter f (Z.to_nat p.2)) (Z.to_nat p.1) maze).
  { unfold updateCell in Hup. rewrite Hcell in Hup. cbn [bind] in Hup. congruence. }
  assert (Hh : height maze' = height maze).
  { rewrite Hmaze'. unfold height. apply length_alter. }
  assert (Hw : width maze' = width maze).
  { rewrite Hmaze'. destruct maze as [|row0 rows]; [reflexivity|].
    destruct (Z.to_nat p.1); cbn; [apply length_alter|reflexivity]. }
  split; [|split; [exact Hh|split; [exact Hw|]]].
  - destruct Hrect as [Hne Hrows]. split.
    + intros ->. unfold height in Hh. destruct maze; [congruence|discriminate].
    + rewrite Hw, Hmaze'. apply Forall_alter; [exact Hrows|].
      intros row _ Hrow. now rewrite length_alter.
  - intros t. eapply cellAt_updateCell; eauto.
Qed.

Lemma inBounds_dims (maze maze' : MazeData) (p : State) :
  height maze' = height maze -> width maze' = width maze ->
  inBounds maze' p <-> inBounds maze p.
Proof. unfold inBounds. now intros -> ->. Qed.

(** The number of wall cells. *)
Definition walls (maze : MazeData) : nat := length (placesOf Wall maze).

Lemma filter_length_impl {A} (P Q : A -> Prop) `{!forall x, Decision (P x)}
      `{!forall x, Decision (Q x)} (l : list A) :
  (forall x, x ∈ l -> P x -> Q x) ->
  (length (filter P l) <= length (filter Q l))%nat
  /\ ((exists x, x ∈ l /\ Q x /\ ~ P x) ->
      (length (filter P l) < length (filter Q l))%nat).
Proof.
  induction l as [|a l IH]; intros Himp.
  - split; [reflexivity|]. intros (x & Hx & _). now apply elem_of_nil in Hx.
  - destruct IH as [IHle IHlt]; [intros x Hx; apply Himp; now right|].
    rewrite !filter_cons.
    destruct (decide (P a)) as [Hp|Hp], (decide (Q a)) as [Hq|Hq]; cbn [length].
    + split; [lia|]. intros (x & [->|Hx]%elem_of_cons & Hqx & Hpx); [contradiction|].
      apply -> Nat.succ_lt_mono. apply IHlt. eauto.
    + exfalso. apply Hq, Himp; [now left|exact Hp].
    + split; lia.
    + split; [lia|]. intros (x & [->|Hx]%elem_of_cons & Hqx & Hpx); [contradiction|].
      apply IHlt. eauto.
Qed.

Lemma allStates_dims (maze maze' : MazeData) :
  height maze' = height maze -> width maze' = width maze ->
  allStates maze' = allStates maze.
Proof. unfold allStates. now intros -> ->. Qed.

Lemma walls_le (maze maze' : MazeData) :
  height maze' = height maze -> width maze' = width maze ->
  (forall p, typeAt maze' p = Some Wall -> typeAt maze p = Some Wall) ->
  (walls maze' <= walls maze)%nat
  /\ forall d, inBounds maze d -> typeAt maze d = Some Wall ->
       typeAt maze' d <> Some Wall -> (walls maze' < walls maze)%nat.
Proof.
  intros Hh Hw Himp. unfold walls, placesOf. rewrite (allStates_dims _ _ Hh Hw).
  destruct (filter_length_impl (fun s => typeAt maze' s = Some Wall)
              (fun s => typeAt maze s = Some Wall) (allStates maze)) as [Hle Hlt].
  { intros x _. apply Himp. }
  split; [exact Hle|]. intros d Hd Hwall Hnot. apply Hlt. exists d.
  split; [now apply allStates_elem|]. split; assumption.
Qed.

(** The cells two steps up, down, left and right of a cell. *)
Definition directionsOf (row col : Z) : list State :=
  [(row - 2, col); (row + 2, col); (row, col - 2); (row, col + 2)].

Lemma middle_cell (row col : Z) (d : State) :
  d ∈ directionsOf row col ->
  let m := ((d.1 + row) / 2, (d.2 + col) / 2) in
  adjacent (row, col) m /\ adjacent m d
  /\ Z.min row d.1 <= m.1 <= Z.max row d.1
  /\ Z.min col d.2 <= m.2 <= Z.max col d.2.
Proof.
  unfold directionsOf. rewrite !elem_of_cons.
  intros [->|[->|[->|[->|Hd]]]]; [| | | |now apply elem_of_nil in Hd];
    cbn [fst snd]; unfold adjacent, calcManhattanDistance; cbn [fst snd].
  - replace (row - 2 + row) with ((row - 1) * 2) by lia.
    replace (col + col) with (col * 2) by lia. rewrite !Z.div_mul by lia. lia.
  - replace (row + 2 + row) with ((row + 1) * 2) by lia.
    replace (col + col) with (col * 2) by lia. rewrite !Z.div_mul by lia. lia.
  - replace (col - 2 + col) with ((col - 1) * 2) by lia.
    replace (row + row) with (row * 2) by lia. rewrite !Z.div_mul by lia. lia.
  - replace (col + 2 + col) with ((col + 1) * 2) by lia.
    replace (row + row) with (row * 2) by lia. rewrite !Z.div_mul by lia. lia.
Qed.

(** A position of a grid of [w] by [h] cells. *)
Definition inside (w h : nat) (d : State) : Prop :=
  0 <= d.1 < Z.of_nat h /\ 0 <= d.2 < Z.of_nat w.

#[local] Instance inside_dec (w h : nat) (d : State) : Decision (inside w h d).
Proof. unfold inside. apply _. Defined.

Section Carving.
Context (random : Oracle) (w h : nat) (s0 : State).

(** A cell that has been carved out, or the cell at which the carving
    started, which is a wall until the carving is over. *)
Definition opened (maze : MazeData) (p : State) : Prop :=
  inBounds maze p /\ (p = s0 \/ typeAt maze p = Some Space).

(** A cell to which one gets from the first cell over opened cells. *)
Inductive linked (maze : MazeData) : State -> Prop :=
| linked_start : linked maze s0
| linked_step a b : linked maze a -> adjacent a b -> opened maze b -> linked maze b.

(** Every cell is a wall or a space, as [buildMaze] makes them. *)
Definition plainCells (maze : MazeData) : Prop :=
  forall p cell, cellAt maze p = Ok cell ->
    cell = parsedCell Wall \/ cell = parsedCell Space.

Record Carved (c : RandomMaze.t) : Prop := mkCarved {
  carved_rect : rectangular (RandomMaze.maze c);
  carved_height : height (RandomMaze.maze c) = h;
  carved_width : width (RandomMaze.maze c) = w;
  carved_fresh : plainCells (RandomMaze.maze c);
  carved_linked : Forall (linked (RandomMaze.maze c)) (RandomMaze.spaceCells c);
  carved_even : Nat.Even (length (RandomMaze.spaceCells c));
  carved_walls :
    RandomMaze.spaceCells c = [] ->
    forall p, inBounds (RandomMaze.maze c) p -> typeAt (RandomMaze.maze c) p = Some Wall
}.

Definition extends (c c' : RandomMaze.t) : Prop :=
  (forall p, typeAt (RandomMaze.maze c) p = Some Space ->
             typeAt (RandomMaze.maze c') p = Some Space)
  /\ (walls (RandomMaze.maze c') <= walls (RandomMaze.maze c))%nat
  /\ (RandomMaze.spaceCells c <> [] -> RandomMaze.spaceCells c' <> []).

Lemma extends_refl c : extends c c.
Proof. repeat split; auto. Qed.

Lemma extends_trans c1 c2 c3 : extends c1 c2 -> extends c2 c3 -> extends c1 c3.
Proof.
  intros (H1 & H2 & H3) (H1' & H2' & H3'). repeat split; auto. lia.
Qed.

Lemma linked_mono (maze maze' : MazeData) (p : State) :
  height maze' = height maze -> width maze' = width maze ->
  (forall q, typeAt maze q = Some Space -> typeAt maze' q = Some Space) ->
  linked maze p -> linked maze' p.
Proof.
  intros Hh Hw Hty. induction 1 as [|a b _ IH Hadj [Hin Hb]]; [constructor|].
  apply (linked_step maze' a b IH Hadj). split.
  - now apply (inBounds_dims maze maze').
  - destruct Hb; auto.
Qed.

Lemma linked_inBounds (maze : MazeData) (p : State) :
  inBounds maze s0 -> linked maze p -> inBounds maze p.
Proof. intros H0. destruct 1 as [|a b _ _ [Hin _]]; assumption. Qed.

Lemma typeAt_cellAt (maze : MazeData) (p : State) (cell : MazeCell.t) :
  cellAt maze p = Ok cell -> typeAt maze p = Some (MazeCell.type cell).
Proof. unfold typeAt. now intros ->. Qed.

(** One cell carved out of a grid of fresh cells. *)
Lemma carve_cell (maze : MazeData) (p : State) :
  rectangular maze -> plainCells maze -> inBounds maze p ->
  exists maze',
    updateCell RandomMaze.carve maze p = Ok maze'
    /\ rectangular maze' /\ height maze' = height maze /\ width maze' = width maze
    /\ plainCells maze'
    /\ forall t, typeAt maze' t = if decide (t = p) then Some Space else typeAt maze t.
Proof.
  intros Hrect Hfresh Hin.
  destruct (updateCell_inBounds RandomMaze.carve maze p Hrect Hin)
    as (maze' & cell & Hcell & Hup & Hrect' & Hh & Hw & Hat).
  exists maze'. repeat (split; [assumption|]). split.
  - intros t c. rewrite Hat. destruct (decide (t = p)) as [->|Hne]; [|apply Hfresh].
    intros [= <-]. right. now destruct (Hfresh _ _ Hcell) as [-> | ->].
  - intros t. unfold typeAt. rewrite Hat. now destruct (decide (t = p)).
Qed.

(** The body of the loop of [carve_path] up to the recursive call. *)
Lemma carve_step_spec (row col : Z) (d : State) (c : RandomMaze.t) :
  Carved c -> inBounds (RandomMaze.maze c) (row, col) ->
  linked (RandomMaze.maze c) (row, col) -> d ∈ directionsOf row col ->
  (RandomMaze.carve_step w h row col d c = Ok None
   /\ (inBounds (RandomMaze.maze c) d -> typeAt (RandomMaze.maze c) d <> Some Wall))
  \/ (exists c',
        RandomMaze.carve_step w h row col d c = Ok (Some c')
        /\ Carved c' /\ extends c c'
        /\ (walls (RandomMaze.maze c') < walls (RandomMaze.maze c))%nat
        /\ linked (RandomMaze.maze c') d /\ inBounds (RandomMaze.maze c') d
        /\ RandomMaze.spaceCells c' <> []).
Proof.
  intros Hc Hin Hlink Hd.
  pose proof (middle_cell row col d Hd) as Hmid.
  destruct d as [drow dcol]. cbn [fst snd] in Hmid. cbv zeta in Hmid.
  unfold RandomMaze.carve_step.
  set (m := ((drow + row) / 2, (dcol + col) / 2)) in *.
  destruct Hmid as (Hadj1 & Hadj2 & Hm1 & Hm2).
  destruct Hc as [Hrect Hh Hw Hfresh Hlinked Heven Hwalls].
  destruct ((0 <=? drow) && (drow <? Z.of_nat h) && (0 <=? dcol) && (dcol <? Z.of_nat w))
    eqn:Hcond.
  2:{ left. split; [reflexivity|]. intros [Hi1 Hi2]. cbn [fst snd] in *.
      rewrite Hh, Hw in *. exfalso.
      rewrite !andb_false_iff, !Z.leb_gt, !Z.ltb_ge in Hcond. lia. }
  rewrite !andb_true_iff, !Z.leb_le, !Z.ltb_lt in Hcond.
  assert (Hind : inBounds (RandomMaze.maze c) (drow, dcol)).
  { unfold inBounds. cbn [fst snd]. rewrite Hh, Hw. lia. }
  destruct (cellAt_inBounds _ _ Hrect Hind) as [cell Hcell]. rewrite Hcell. cbn [bind].
  case_bool_decide as Hwall.
  2:{ left. split; [reflexivity|]. intros _. rewrite (typeAt_cellAt _ _ _ Hcell).
      congruence. }
  right.
  destruct (carve_cell _ (drow, dcol) Hrect Hfresh Hind)
    as (maze1 & Hup1 & Hrect1 & Hh1 & Hw1 & Hfresh1 & Hty1).
  assert (Hinm : inBounds maze1 m).
  { apply (inBounds_dims (RandomMaze.maze c)); [assumption..|].
    destruct Hin as [Hi1 Hi2], Hind as [Hd1 Hd2]. cbn [fst snd] in *.
    unfold inBounds, m. cbn [fst snd]. lia. }
  destruct (carve_cell maze1 m Hrect1 Hfresh1 Hinm)
    as (maze2 & Hup2 & Hrect2 & Hh2 & Hw2 & Hfresh2 & Hty2).
  rewrite Hup1. cbn [bind]. rewrite Hup2. cbn [bind].
  eexists. split; [reflexivity|]. cbn [RandomMaze.maze RandomMaze.spaceCells].
  assert (Hmono : forall p, typeAt (RandomMaze.maze c) p = Some Space ->
                            typeAt maze2 p = Some Space).
  { intros p Hp. rewrite Hty2, Hty1. repeat case_decide; congruence. }
  assert (Hh' : height maze2 = height (RandomMaze.maze c)) by congruence.
  assert (Hw' : width maze2 = width (RandomMaze.maze c)) by congruence.
  assert (Hlinkm : linked maze2 m).
  { apply (linked_step maze2 (row, col) m); [|exact Hadj1|].
    - now apply (linked_mono (RandomMaze.maze c)).
    - split; [now apply (inBounds_dims maze1)|]. right. rewrite Hty2.
      case_decide; congruence. }
  assert (Hlinkd : linked maze2 (drow, dcol)).
  { apply (linked_step maze2 m (drow, dcol) Hlinkm Hadj2). split.
    - now apply (inBounds_dims (RandomMaze.maze c)).
    - right. rewrite Hty2, Hty1. repeat case_decide; congruence. }
  assert (Hwl : forall p, typeAt maze2 p = Some Wall ->
                          typeAt (RandomMaze.maze c) p = Some Wall).
  { intros p. rewrite Hty2, Hty1. repeat case_decide; congruence. }
  destruct (walls_le (RandomMaze.maze c) maze2 Hh' Hw' Hwl) as [Hle Hlt].
  split; [|split; [|split; [|split; [exact Hlinkd|split]]]].
  - constructor; cbn [RandomMaze.maze RandomMaze.spaceCells]; try congruence; try assumption.
    + rewrite !Forall_app. split; [split|].
      * eapply Forall_impl; [exact Hlinked|]. intros p.
        now apply (linked_mono (RandomMaze.maze c)).
      * now constructor.
      * now constructor.
    + rewrite !length_app. cbn [length]. destruct Heven as [k Hk]. exists (S k). lia.
    + intros Hnil. now apply app_eq_nil in Hnil as [_ Hnil].
  - split; [exact Hmono|]. split; [exact Hle|]. intros _ Hnil.
    now apply app_eq_nil in Hnil as [_ Hnil].
  - apply (Hlt (drow, dcol) Hind).
    + rewrite (typeAt_cellAt _ _ _ Hcell). now f_equal.
    + rewrite Hty2, Hty1. repeat case_decide; congruence.
  - now apply (inBounds_dims (RandomMaze.maze c)).
  - intros Hnil. now apply app_eq_nil in Hnil as [_ Hnil].
Qed.
Lemma Carved_inBounds (c c' : RandomMaze.t) (p : State) :
  Carved c -> Carved c' ->
  inBounds (RandomMaze.maze c) p -> inBounds (RandomMaze.maze c') p.
Proof.
  intros Hc Hc'. apply inBounds_dims.
  - now rewrite (carved_height c Hc), (carved_height c' Hc').
  - now rewrite (carved_width c Hc), (carved_width c' Hc').
Qed.

Lemma Carved_linked (c c' : RandomMaze.t) (p : State) :
  Carved c -> Carved c' -> extends c c' ->
  linked (RandomMaze.maze c) p -> linked (RandomMaze.maze c') p.
Proof.
  intros Hc Hc' (Hty & _). apply linked_mono; [| |exact Hty].
  - now rewrite (carved_height c Hc), (carved_height c' Hc').
  - now rewrite (carved_width c Hc), (carved_width c' Hc').
Qed.

(** One round of the loop of [carve_path]. *)
Definition carve_loop_body (fuel : nat) (row col : Z)
           (acc : option (result RandomMaze.t)) (d : State)
  : option (result RandomMaze.t) :=
  match acc with
  | Some (Ok c) =>
      match RandomMaze.carve_step w h row col d c with
      | Throw e => Some (Throw e)
      | Ok None => Some (Ok c)
      | Ok (Some c') => RandomMaze.carve_path random w h fuel d.1 d.2 c'
      end
  | _ => acc
  end.

Lemma carve_path_S (fuel : nat) (row col : Z) (c : RandomMaze.t) :
  RandomMaze.carve_path random w h (S fuel) row col c
  = fold_left (carve_loop_body fuel row col)
      (shuffle random (directionsOf row col) (RandomMaze.calls c)).1
      (Some (Ok (RandomMaze.mk (RandomMaze.maze c) (RandomMaze.spaceCells c)
                   (shuffle random (directionsOf row col) (RandomMaze.calls c)).2))).
Proof.
  unfold directionsOf. cbn [RandomMaze.carve_path].
  destruct (shuffle random _ (RandomMaze.calls c)). reflexivity.
Qed.

Lemma carve_loop (fuel : nat) :
  (forall row col c,
     Carved c -> inBounds (RandomMaze.maze c) (row, col) ->
     linked (RandomMaze.maze c) (row, col) ->
     (walls (RandomMaze.maze c) < fuel)%nat ->
     exists c', RandomMaze.carve_path random w h fuel row col c = Some (Ok c')
                /\ Carved c' /\ extends c c') ->
  forall row col ds c,
    (forall d, d ∈ ds -> d ∈ directionsOf row col) ->
    Carved c -> inBounds (RandomMaze.maze c) (row, col) ->
    linked (RandomMaze.maze c) (row, col) ->
    (walls (RandomMaze.maze c) <= fuel)%nat ->
    exists c',
      fold_left (carve_loop_body fuel row col) ds (Some (Ok c)) = Some (Ok c')
      /\ Carved c' /\ extends c c'
      /\ ((exists d, d ∈ ds /\ inBounds (RandomMaze.maze c) d) ->
          RandomMaze.spaceCells c' <> []).
Proof.
  intros IH row col ds. induction ds as [|d ds IHds]; intros c Hds Hc Hin Hlink Hw.
  { exists c. split; [reflexivity|]. split; [exact Hc|]. split; [apply extends_refl|].
    intros (d & Hd & _). now apply elem_of_nil in Hd. }
  cbn [fold_left].
  assert (Hds' : forall d', d' ∈ ds -> d' ∈ directionsOf row col).
  { intros d' Hd'. apply Hds. now right. }
  destruct (carve_step_spec row col d c Hc Hin Hlink (Hds d ltac:(now left)))
    as [[Hstep Hnw]|(c1 & Hstep & Hc1 & Hext1 & Hlt & Hlinkd & Hind & Hne)].
  - replace (carve_loop_body fuel row col (Some (Ok c)) d) with (Some (Ok c))
      by (unfold carve_loop_body; now rewrite Hstep).
    destruct (IHds c Hds' Hc Hin Hlink Hw) as (c' & Hfold & Hc' & Hext & Hsome).
    exists c'. split; [exact Hfold|]. split; [exact Hc'|]. split; [exact Hext|].
    intros (d' & [->|Hd']%elem_of_cons & Hind'); [|apply Hsome; eauto].
    destruct (RandomMaze.spaceCells c) as [|s ss] eqn:Hsc.
    + exfalso. apply (Hnw Hind'). now apply (carved_walls c Hc).
    + apply Hext. rewrite Hsc. discriminate.
  - replace (carve_loop_body fuel row col (Some (Ok c)) d)
      with (RandomMaze.carve_path random w h fuel d.1 d.2 c1)
      by (unfold carve_loop_body; now rewrite Hstep).
    destruct d as [drow dcol]. cbn [fst snd].
    destruct (IH drow dcol c1 Hc1 Hind Hlinkd ltac:(lia)) as (c2 & Hpath & Hc2 & Hext2).
    rewrite Hpath.
    assert (Hext12 : extends c c2) by (eapply extends_trans; eauto).
    destruct (IHds c2 Hds' Hc2) as (c' & Hfold & Hc' & Hext & Hsome).
    + now apply (Carved_inBounds c).
    + now apply (Carved_linked c).
    + destruct Hext2 as (_ & Hle & _). lia.
    + exists c'. split; [exact Hfold|]. split; [exact Hc'|].
      split; [eapply extends_trans; eauto|].
      intros _. apply Hext, Hext2, Hne.
Qed.

(** [carve_path] returns: a unit of fuel more than there are walls is
    enough. *)
Lemma carve_path_spec (fuel : nat) (row col : Z) (c : RandomMaze.t) :
  Carved c -> inBounds (RandomMaze.maze c) (row, col) ->
  linked (RandomMaze.maze c) (row, col) ->
  (walls (RandomMaze.maze c) < fuel)%nat ->
  exists c',
    RandomMaze.carve_path random w h fuel row col c = Some (Ok c')
    /\ Carved c' /\ extends c c'
    /\ ((exists d, d ∈ directionsOf row col /\ inBounds (RandomMaze.maze c) d) ->
        RandomMaze.spaceCells c' <> []).
Proof.
  revert row col c. induction fuel as [|fuel IH]; intros row col c Hc Hin Hlink Hw; [lia|].
  rewrite carve_path_S.
  pose proof (shuffle_perm random (directionsOf row col) (RandomMaze.calls c)) as Hperm.
  destruct (shuffle random (directionsOf row col) (RandomMaze.calls c)) as [ds k].
  cbn [fst snd] in *.
  set (c0 := RandomMaze.mk (RandomMaze.maze c) (RandomMaze.spaceCells c) k).
  assert (Hc0 : Carved c0) by (destruct Hc; now constructor).
  destruct (carve_loop fuel) with (row := row) (col := col) (ds := ds) (c := c0)
    as (c' & Hfold & Hc' & Hext & Hsome).
  - intros row' col' c1 H1 H2 H3 H4.
    destruct (IH row' col' c1 H1 H2 H3 H4) as (c2 & ? & ? & ? & _). eauto.
  - intros d Hd. now rewrite <- Hperm.
  - exact Hc0.
  - exact Hin.
  - exact Hlink.
  - cbn [c0 RandomMaze.maze]. lia.
  - exists c'. split; [exact Hfold|]. split; [exact Hc'|]. split; [exact Hext|].
    intros (d & Hd & Hind). apply Hsome. exists d. split; [now rewrite Hperm|exact Hind].
Qed.

(** Where no direction leads to a cell of the grid, [carve_path] only
    shuffles the directions. *)
Lemma carve_path_outside (fuel : nat) (row col : Z) (c : RandomMaze.t) :
  (forall d, d ∈ directionsOf row col -> ~ inside w h d) ->
  exists k,
    RandomMaze.carve_path random w h (S fuel) row col c
    = Some (Ok (RandomMaze.mk (RandomMaze.maze c) (RandomMaze.spaceCells c) k)).
Proof.
  intros Hout. rewrite carve_path_S.
  pose proof (shuffle_perm random (directionsOf row col) (RandomMaze.calls c)) as Hperm.
  destruct (shuffle random (directionsOf row col) (RandomMaze.calls c)) as [ds k].
  cbn [fst snd] in *. exists k.
  assert (Hds : forall d, d ∈ ds -> ~ inside w h d).
  { intros d Hd. apply Hout. now rewrite <- Hperm. }
  clear Hperm Hout. generalize (RandomMaze.mk (RandomMaze.maze c) (RandomMaze.spaceCells c) k).
  induction ds as [|[drow dcol] ds IH]; intros c0; [reflexivity|].
  cbn [fold_left]. rewrite <- IH at 2 by (intros d Hd; apply Hds; now right).
  f_equal. unfold carve_loop_body, RandomMaze.carve_step.
  specialize (Hds (drow, dcol) ltac:(now left)). unfold inside in Hds. cbn [fst snd] in Hds.
  destruct ((0 <=? drow) && (drow <? Z.of_nat h) && (0 <=? dcol) && (dcol <? Z.of_nat w))
    eqn:Hcond; [|reflexivity].
  rewrite !andb_true_iff, !Z.leb_le, !Z.ltb_lt in Hcond. lia.
Qed.
End Carving.

Lemma inside_inBounds (w h : nat) (maze : MazeData) (d : State) :
  height maze = h -> width maze = w -> inside w h d <-> inBounds maze d.
Proof. unfold inside, inBounds. now intros -> ->. Qed.

(** The grid of walls from which [genDFSMaze] starts. *)
Lemma wall_grid (w h : nat) :
  (0 < h)%nat ->
  let maze0 := replicate h (replicate w RandomMaze.wallCell) in
  rectangular maze0 /\ height maze0 = h /\ width maze0 = w
  /\ (forall p cell, cellAt maze0 p = Ok cell -> cell = parsedCell Wall)
  /\ (walls maze0 <= h * w)%nat.
Proof.
  intros Hh maze0.
  assert (Hheight : height maze0 = h) by apply length_replicate.
  assert (Hwidth : width maze0 = w).
  { unfold maze0. destruct h; [lia|]. cbn. apply length_replicate. }
  split; [|split; [exact Hheight|split; [exact Hwidth|split]]].
  - split.
    + unfold maze0. destruct h; [lia|discriminate].
    + rewrite Hwidth. apply Forall_replicate. apply length_replicate.
  - intros p cell (_ & _ & row & Hrow & Hcell)%cellAt_Ok.
    apply lookup_replicate in Hrow as [-> _].
    now apply lookup_replicate in Hcell as [-> _].
  - unfold walls, placesOf. etransitivity; [apply length_filter|].
    now rewrite allStates_length, Hheight, Hwidth.
Qed.

Lemma NoDup_all_eq {A} (l : list A) (a : A) :
  NoDup l -> (forall x, x ∈ l -> x = a) -> (length l <= 1)%nat.
Proof.
  intros Hnd Hall. destruct l as [|x [|y l]]; cbn [length]; [lia..|].
  exfalso. apply NoDup_cons in Hnd as [Hx _]. apply Hx.
  rewrite (Hall x ltac:(now left)), (Hall y ltac:(right; now left)). now left.
Qed.

Lemma pointwise_Forall (P : MazeCell.t -> Prop) (maze : MazeData) :
  (forall p cell, cellAt maze p = Ok cell -> P cell) -> Forall (Forall P) maze.
Proof.
  intros Hp. apply Forall_lookup. intros i row Hrow.
  apply Forall_lookup. intros j cell Hcell.
  apply (Hp (Z.of_nat i, Z.of_nat j)). apply cellAt_Ok. cbn [fst snd].
  split; [lia|]. split; [lia|]. exists row. now rewrite !Nat2Z.id.
Qed.

(** A walk over opened cells is a walk of any grid in which the opened
    cells are passable. *)
Lemma linked_connects (s0 : State) (maze maze' : MazeData) (p : State) :
  passable maze' s0 ->
  (forall q, opened s0 maze q -> passable maze' q) ->
  linked s0 maze p -> exists path, connects maze' s0 p path.
Proof.
  intros H0 Hopen. induction 1 as [|a b _ (path & Hpath & Hhead & Hlast) Hadj Hb].
  - exists [s0]. split; [cbn; auto|]. split; reflexivity.
  - exists (path ++ [b]). split; [|split].
    + apply isPath_app. split; [exact Hpath|]. split.
      * cbn. auto.
      * rewrite Hlast. exact Hadj.
    + destruct path; [discriminate|exact Hhead].
    + apply last_snoc.
Qed.

Lemma connects_join (maze : MazeData) (s0 a b : State) (pa pb : list State) :
  connects maze s0 a pa -> connects maze s0 b pb -> exists p, connects maze a b p.
Proof.
  intros (Hpa & Hha & Hla) (Hpb & Hhb & Hlb).
  destruct pb as [|s q]; [discriminate|]. injection Hhb as ->.
  assert (Hrev : connects maze a s0 (rev pa)).
  { split; [now apply isPath_rev|]. rewrite rev_alt.
    change (rev_append ?l []) with (reverse l).
    now rewrite head_reverse, last_reverse. }
  destruct Hrev as (Hr & Hrh & Hrl).
  exists (rev pa ++ q). cbn [isPath] in Hpb. destruct Hpb as (_ & Hadj & Hq).
  split; [|split].
  - apply isPath_app. split; [exact Hr|]. split; [exact Hq|].
    rewrite Hrl. destruct q; [exact I|exact Hadj].
  - destruct (rev pa); [discriminate|exact Hrh].
  - destruct q as [|t q]; [now rewrite app_nil_r, Hrl|].
    rewrite last_app. cbn [last] in Hlb. now rewrite Hlb.
Qed.

(** What [genDFSMaze] promises of a grid that it builds. *)
Definition Generated (w h : nat) (maze : MazeData) : Prop :=
  rectangular maze /\ height maze = h /\ width maze = w
  /\ Forall (Forall (fun c => c = parsedCell (MazeCell.type c))) maze
  /\ countType Goal maze = 1%nat
  /\ (countType Start maze <= 1)%nat
  /\ forall s g, typeAt maze s = Some Start -> typeAt maze g = Some Goal ->
       exists p, connects maze s g p.

(** The cell at which the carving starts. *)
Definition startOf (random : Oracle) (w h : nat) : State :=
  (Z.of_nat (randomBelow random 0 h), Z.of_nat (randomBelow random 1 w)).

Lemma generate_throws (random : Oracle) (w h : nat) :
  (forall d, d ∈ directionsOf (startOf random w h).1 (startOf random w h).2 ->
             ~ inside w h d) ->
  RandomMaze.generate random w h (RandomMaze.fuel w h) = Some (Throw TypeError).
Proof.
  intros Hout. unfold RandomMaze.generate.
  destruct (at_index _ _); [|reflexivity].
  destruct (carve_path_outside random w h (h * w) _ _
              (RandomMaze.mk (replicate h (replicate w RandomMaze.wallCell)) [] 2) Hout)
    as [k Hpath].
  unfold RandomMaze.fuel. unfold startOf in Hpath. cbn [fst snd] in Hpath.
  rewrite Hpath. cbn [RandomMaze.maze RandomMaze.spaceCells RandomMaze.calls].
  f_equal. destruct (updateCell _ _ _) as [maze1|e] eqn:Hup; cbn [bind].
  - reflexivity.
  - f_equal. unfold updateCell in Hup.
    destruct (cellAt _ _) eqn:Hcell; cbn [bind] in Hup; [discriminate|].
    injection Hup as <-. now apply cellAt_Throw in Hcell.
Qed.

Lemma generate_succeeds (random : Oracle) (w h : nat) :
  (exists d, d ∈ directionsOf (startOf random w h).1 (startOf random w h).2
             /\ inside w h d) ->
  exists maze,
    RandomMaze.generate random w h (RandomMaze.fuel w h) = Some (Ok maze)
    /\ Generated w h maze.
Proof.
  intros (d & Hd & Hind).
  assert (Hh : (0 < h)%nat) by (destruct Hind; lia).
  assert (Hw : (0 < w)%nat) by (destruct Hind; lia).
  pose proof (randomBelow_lt random 0 h Hh) as Hr0.
  pose proof (randomBelow_lt random 1 w Hw) as Hr1.
  destruct (wall_grid w h Hh) as (Hrect0 & Hh0 & Hw0 & Hcells0 & Hwalls0).
  unfold RandomMaze.generate. unfold startOf in Hd. cbn [fst snd] in Hd.
  set (maze0 := replicate h (replicate w RandomMaze.wallCell)) in *.
  set (startRow := Z.of_nat (randomBelow random 0 h)) in *.
  set (startCol := Z.of_nat (randomBelow random 1 w)) in *.
  set (start := (startRow, startCol)).
  assert (Hrow0 : at_index maze0 startRow = Some (replicate w RandomMaze.wallCell)).
  { apply at_index_Some. split; [lia|]. unfold startRow. rewrite Nat2Z.id.
    now apply lookup_replicate_2. }
  rewrite Hrow0.
  assert (Hin0 : inBounds maze0 start).
  { apply (inside_inBounds w h); [assumption..|]. unfold inside, start. cbn [fst snd]. lia. }
  assert (Hc0 : Carved w h start (RandomMaze.mk maze0 [] 2)).
  { constructor; cbn [RandomMaze.maze RandomMaze.spaceCells]; try assumption.
    - intros p cell Hcell. left. eauto.
    - constructor.
    - exists 0%nat. reflexivity.
    - intros _ p Hp. destruct (cellAt_inBounds maze0 p Hrect0 Hp) as [cell Hcell].
      rewrite (typeAt_cellAt _ _ _ Hcell), (Hcells0 _ _ Hcell). reflexivity. }
  destruct (carve_path_spec random w h start (RandomMaze.fuel w h) startRow startCol
              (RandomMaze.mk maze0 [] 2) Hc0 Hin0 (linked_start start maze0))
    as (c & Hpath & Hc & Hext & Hsome).
  { cbn [RandomMaze.maze]. unfold RandomMaze.fuel. lia. }
  rewrite Hpath. clear Hpath.
  assert (Hne : RandomMaze.spaceCells c <> []).
  { apply Hsome. exists d. split; [exact Hd|]. now apply (inside_inBounds w h). }
  destruct Hc as [Hrect Hhc Hwc Hplain Hlinked Heven _].
  assert (Hin : inBounds (RandomMaze.maze c) start).
  { apply (inBounds_dims maze0); [congruence..|exact Hin0]. }
  destruct (carve_cell (RandomMaze.maze c) start Hrect Hplain Hin)
    as (maze1 & Hup1 & Hrect1 & Hh1 & Hw1 & Hplain1 & Hty1).
  rewrite Hup1. cbn [bind].
  pose proof (shuffle_perm random (RandomMaze.spaceCells c) (RandomMaze.calls c)) as Hperm.
  destruct (shuffle random (RandomMaze.spaceCells c) (RandomMaze.calls c)) as [cells k].
  cbn [fst] in Hperm.
  destruct cells as [|s [|g rest]].
  { exfalso. apply Permutation_nil_l in Hperm. congruence. }
  { exfalso. apply Permutation_length in Hperm. cbn [length] in Hperm.
    destruct Heven as [n Hn]. lia. }
  assert (Hlink : forall p, p ∈ s :: g :: rest -> linked start (RandomMaze.maze c) p).
  { intros p Hp. rewrite Hperm in Hp. rewrite Forall_forall in Hlinked. auto. }
  assert (Hopened : forall p, linked start (RandomMaze.maze c) p ->
                      opened start (RandomMaze.maze c) p).
  { intros p [|a b _ _ Hb]; [split; auto|exact Hb]. }
  assert (Hspace : forall p, opened start (RandomMaze.maze c) p ->
                     inBounds maze1 p /\ typeAt maze1 p = Some Space).
  { intros p [Hinp Hp]. split.
    - now apply (inBounds_dims (RandomMaze.maze c)).
    - rewrite Hty1. case_decide; [reflexivity|]. destruct Hp; congruence. }
  assert (Hcell1 : forall p, opened start (RandomMaze.maze c) p ->
                     cellAt maze1 p = Ok (parsedCell Space)).
  { intros p Hp. destruct (Hspace p Hp) as [Hinp Htyp].
    destruct (cellAt_inBounds maze1 p Hrect1 Hinp) as [cell Hcell].
    rewrite (typeAt_cellAt _ _ _ Hcell) in Htyp.
    destruct (Hplain1 _ _ Hcell) as [-> | ->]; [discriminate|exact Hcell]. }
  assert (Hs : linked start (RandomMaze.maze c) s) by (apply Hlink; now left).
  assert (Hg : linked start (RandomMaze.maze c) g) by (apply Hlink; right; now left).
  pose proof (Hopened s Hs) as Hos. pose proof (Hopened g Hg) as Hog.
  destruct (updateCell_inBounds (RandomMaze.setType Start) maze1 s Hrect1
              (proj1 (Hspace s Hos)))
    as (maze2 & cs & Hcs & Hup2 & Hrect2 & Hh2 & Hw2 & Hat2).
  rewrite (Hcell1 s Hos) in Hcs. injection Hcs as <-.
  assert (Hing : inBounds maze2 g).
  { apply (inBounds_dims maze1); [assumption..|]. apply (Hspace g Hog). }
  destruct (updateCell_inBounds (RandomMaze.setType Goal) maze2 g Hrect2 Hing)
    as (maze3 & cg & Hcg & Hup3 & Hrect3 & Hh3 & Hw3 & Hat3).
  assert (Hcg' : RandomMaze.setType Goal cg = parsedCell Goal).
  { rewrite Hat2 in Hcg. case_decide.
    - now injection Hcg as <-.
    - rewrite (Hcell1 g Hog) in Hcg. now injection Hcg as <-. }
  rewrite Hcg' in Hat3. clear Hcg Hcg' cg.
  change (RandomMaze.setType Start (parsedCell Space)) with (parsedCell Start) in Hat2.
  change ((s :: g :: rest) !! 0%nat) with (Some s).
  change ((s :: g :: rest) !! 1%nat) with (Some g).
  cbv iota beta. rewrite Hup2. cbn [bind]. rewrite Hup3.
  exists maze3. split; [reflexivity|].
  assert (Hfinal : forall t cell, cellAt maze3 t = Ok cell ->
            (t = g /\ cell = parsedCell Goal)
            \/ (t = s /\ s <> g /\ cell = parsedCell Start)
            \/ (cellAt maze1 t = Ok cell
                /\ (cell = parsedCell Wall \/ cell = parsedCell Space))).
  { intros t cell. rewrite Hat3, Hat2. case_decide as Htg; [|case_decide as Hts].
    - intros [= <-]. now left.
    - intros [= <-]. right. left. split; [exact Hts|]. split; [congruence|reflexivity].
    - intros Hcell. right. right. split; [exact Hcell|]. eauto. }
  assert (Hdims : forall p, inBounds maze3 p <-> inBounds maze1 p).
  { intros p. apply inBounds_dims; congruence. }
  assert (Hgoal : forall t, typeAt maze3 t = Some Goal <-> t = g).
  { intros t. unfold typeAt. split.
    - destruct (cellAt maze3 t) as [cell|] eqn:Hcell; [|discriminate].
      destruct (Hfinal _ _ Hcell) as [[-> _]|[(_ & _ & ->)|(_ & [-> | ->])]];
        [reflexivity|discriminate..].
    - intros ->. rewrite Hat3. now rewrite decide_True. }
  assert (Hstart : forall t, typeAt maze3 t = Some Start -> t = s /\ s <> g).
  { intros t. unfold typeAt.
    destruct (cellAt maze3 t) as [cell|] eqn:Hcell; [|discriminate].
    destruct (Hfinal _ _ Hcell) as [[_ ->]|[(-> & Hne' & _)|(_ & [-> | ->])]];
      [discriminate|auto|discriminate..]. }
  assert (Hpass : forall p, opened start (RandomMaze.maze c) p -> passable maze3 p).
  { intros p Hp. destruct (Hspace p Hp) as [Hinp Htyp]. split; [now apply Hdims|].
    destruct (cellAt_inBounds maze3 p Hrect3 (proj2 (Hdims p) Hinp)) as [cell Hcell].
    rewrite (typeAt_cellAt _ _ _ Hcell).
    destruct (Hfinal _ _ Hcell) as [[_ ->]|[(_ & _ & ->)|(Hcell' & _)]];
      [discriminate..|].
    rewrite (typeAt_cellAt _ _ _ Hcell') in Htyp. congruence. }
  assert (Hways : forall p, linked start (RandomMaze.maze c) p ->
                    exists path, connects maze3 start p path).
  { intros p. apply linked_connects; [|exact Hpass].
    apply Hpass, Hopened. constructor. }
  repeat split; try congruence.
  - apply Hrect3.
  - apply Hrect3.
  - apply pointwise_Forall. intros t cell Hcell.
    destruct (Hfinal _ _ Hcell) as [[_ ->]|[(_ & _ & ->)|(_ & [-> | ->])]]; reflexivity.
  - rewrite <- (placesOf_length Goal maze3 Hrect3).
    assert (Hpg : placesOf Goal maze3 ≡ₚ [g]).
    { apply NoDup_Permutation.
      - apply NoDup_filter, allStates_NoDup.
      - apply NoDup_singleton.
      - intros t. rewrite placesOf_elem, list_elem_of_singleton, Hgoal.
        split; [tauto|]. intros ->. split; [now apply Hdims, Hspace|reflexivity]. }
    now rewrite Hpg.
  - rewrite <- (placesOf_length Start maze3 Hrect3).
    apply (NoDup_all_eq _ s); [apply NoDup_filter, allStates_NoDup|].
    intros t [_ Ht]%placesOf_elem. now apply Hstart in Ht.
  - intros a b Ha Hb. apply Hstart in Ha as [-> _]. apply Hgoal in Hb as ->.
    destruct (Hways s Hs) as [ps Hps]. destruct (Hways g Hg) as [pg Hpg].
    eapply connects_join; eauto.
Qed.

Lemma genDFSMaze_cases {F : Type} (random : Oracle) (e : Editor F) (w h : nat) :
  (genDFSMaze random e w h = Some (e, Some TypeError)
   /\ forall d, d ∈ directionsOf (startOf random w h).1 (startOf random w h).2 ->
                ~ inside w h d)
  \/ (exists maze,
        genDFSMaze random e w h
        = Some (mkEditor (mkApp (mkStore maze 0 Pending) Ready false None)
                         (brush e) (consecutiveDrawing e) (mazeWidth e) (mazeHeight e),
                None)
        /\ (exists d, d ∈ directionsOf (startOf random w h).1 (startOf random w h).2
                      /\ inside w h d)
        /\ Generated w h maze).
Proof.
  unfold genDFSMaze.
  destruct (decide (Exists (inside w h)
              (directionsOf (startOf random w h).1 (startOf random w h).2))) as [Hex|Hex].
  - right. apply Exists_exists in Hex.
    destruct (generate_succeeds random w h Hex) as (maze & -> & Hgen).
    exists maze. split; [reflexivity|]. split; assumption.
  - left. assert (Hout : forall d,
        d ∈ directionsOf (startOf random w h).1 (startOf random w h).2 -> ~ inside w h d).
    { intros d Hd Hin. apply Hex, Exists_exists. eauto. }
    rewrite (generate_throws random w h Hout). split; [reflexivity|exact Hout].
Qed.

Lemma startOf_inside (random : Oracle) (w h : nat) :
  (0 < w)%nat -> (0 < h)%nat -> inside w h (startOf random w h).
Proof.
  intros Hw Hh. pose proof (randomBelow_lt random 0 h Hh).
  pose proof (randomBelow_lt random 1 w Hw). unfold inside, startOf. cbn [fst snd]. lia.
Qed.

(** X25.  [genDFSMaze(width, height)], for natural numbers and whatever
    [Math.random] returns, comes to an end: it builds a maze, or it throws
    a [TypeError] and leaves the component as it was.  It builds a maze
    exactly when the cell that it picks to start from has, two steps up,
    down, left or right, a cell of the grid.  So it throws whenever the
    width and the height are both less than three, and it builds a maze
    whenever both are at least one and one of them is at least four. *)
Theorem genDFSMaze_returns {F : Type} (random : Oracle) (e : Editor F) (w h : nat) :
  exists e' alerted,
    genDFSMaze random e w h = Some (e', alerted)
    /\ (alerted = None \/ alerted = Some TypeError /\ e' = e)
    /\ (alerted = None
        <-> exists d, d ∈ directionsOf (startOf random w h).1 (startOf random w h).2
                      /\ inside w h d)
    /\ ((w < 3)%nat -> (h < 3)%nat -> alerted = Some TypeError)
    /\ ((1 <= w)%nat -> (1 <= h)%nat -> (4 <= w)%nat \/ (4 <= h)%nat -> alerted = None).
Proof.
  assert (Hsmall : (w < 3)%nat -> (h < 3)%nat ->
            ~ exists d, d ∈ directionsOf (startOf random w h).1 (startOf random w h).2
                        /\ inside w h d).
  { intros Hw Hh (d & Hd & Hin1 & Hin2).
    assert (0 < w)%nat by lia. assert (0 < h)%nat by lia.
    destruct (startOf_inside random w h) as [Hs1 Hs2]; [assumption..|].
    unfold directionsOf in Hd. rewrite !elem_of_cons in Hd.
    destruct Hd as [->|[->|[->|[->|Hd]]]]; [| | | |now apply elem_of_nil in Hd];
      cbn [fst snd] in *; lia. }
  assert (Hlarge : (1 <= w)%nat -> (1 <= h)%nat -> (4 <= w)%nat \/ (4 <= h)%nat ->
            exists d, d ∈ directionsOf (startOf random w h).1 (startOf random w h).2
                      /\ inside w h d).
  { intros Hw Hh Hfour.
    destruct (startOf_inside random w h) as [Hs1 Hs2]; [lia..|].
    set (row := (startOf random w h).1) in *. set (col := (startOf random w h).2) in *.
    unfold directionsOf, inside.
    destruct Hfour as [Hfour|Hfour].
    - destruct (decide (2 <= col)).
      + exists (row, col - 2). split; [in_list|]. cbn [fst snd]. lia.
      + exists (row, col + 2). split; [in_list|]. cbn [fst snd]. lia.
    - destruct (decide (2 <= row)).
      + exists (row - 2, col). split; [in_list|]. cbn [fst snd]. lia.
      + exists (row + 2, col). split; [in_list|]. cbn [fst snd]. lia. }
  destruct (genDFSMaze_cases random e w h) as [[-> Hout]|(maze & -> & Hin & _)].
  - exists e, (Some TypeError). split; [reflexivity|]. split; [auto|]. split; [|split].
    + split; [discriminate|]. intros (d & Hd & Hind). now destruct (Hout d Hd).
    + reflexivity.
    + intros Hw Hh Hfour. destruct (Hlarge Hw Hh Hfour) as (d & Hd & Hind).
      now destruct (Hout d Hd).
  - eexists _, None. split; [reflexivity|]. split; [auto|]. split; [|split].
    + tauto.
    + intros Hw Hh. now destruct (Hsmall Hw Hh).
    + reflexivity.
Qed.

(** X26.  The maze that [genDFSMaze] builds has the height and the width
    asked for; each of its cells is as [buildMaze] makes a cell of its type;
    it has one goal cell and at most one start cell; and where it has a
    start cell, a walk over cells that are no walls leads from it to the
    goal.  The demo is reset, and the fields of the form and the brush are
    as before. *)
Theorem genDFSMaze_maze {F : Type} (random : Oracle) (e e' : Editor F) (w h : nat) :
  genDFSMaze random e w h = Some (e', None) ->
  let maze := mazeData (store (demo e')) in
  demo e' = mkApp (mkStore maze 0 Pending) Ready false None
  /\ brush e' = brush e /\ consecutiveDrawing e' = consecutiveDrawing e
  /\ mazeWidth e' = mazeWidth e /\ mazeHeight e' = mazeHeight e
  /\ rectangular maze /\ height maze = h /\ width maze = w
  /\ Forall (Forall (fun c => c = parsedCell (MazeCell.type c))) maze
  /\ countType Goal maze = 1%nat
  /\ (countType Start maze <= 1)%nat
  /\ forall s g, typeAt maze s = Some Start -> typeAt maze g = Some Goal ->
       exists p, connects maze s g p.
Proof.
  intros Hgen maze.
  destruct (genDFSMaze_cases random e w h) as [[Hthrow _]|(maze' & Hok & _ & Hmaze)];
    [congruence|].
  rewrite Hok in Hgen. injection Hgen as <-. subst maze. cbn [demo store mazeData].
  destruct Hmaze as (Hrect & Hh & Hw & Hfresh & Hgoal & Hstart & Hway).
  repeat split; try assumption; apply Hrect.
Qed.

Lemma genDFSMaze_maze_witness :
  exists e' : Editor StackFrontier.t,
    genDFSMaze (fun _ => 0%nat)
      (mkEditor (mkApp (mkStore [] 0 Pending) Ready false None) None false 3 1) 3 1
    = Some (e', None)
    /\ countType Goal (mazeData (store (demo e'))) = 1%nat.
Proof.
  eexists. split; [vm_compute; reflexivity|].
  apply (genDFSMaze_maze (fun _ => 0%nat)
           (mkEditor (mkApp (mkStore [] 0 Pending) Ready false None) None false 3 1) _ 3 1).
  vm_compute. reflexivity.
Defined.

Lemma countType_one_place (ty : MazeCellType) (maze : MazeData) :
  rectangular maze -> countType ty maze = 1%nat -> exists s, typeAt maze s = Some ty.
Proof.
  intros Hrect Hcount. rewrite <- (placesOf_length ty maze Hrect) in Hcount.
  destruct (placesOf ty maze) as [|s l] eqn:Hp; [discriminate|].
  exists s. apply (placesOf_elem ty maze s). rewrite Hp. now left.
Qed.

(** X27.  A maze that [genDFSMaze] built can be solved, if it has a start
    cell: [start] on it either begins a search, and that search, whatever
    the frontier class, ends with [FoundSolution] within one step for each
    cell and one more; or the maze has no start cell, and [start] reports
    ["没有起点"]. *)
Theorem generated_maze_is_solved {F : Type} `{FrontierLaws F} (random : Oracle)
        (e e' : Editor F) (w h : nat) :
  genDFSMaze random e w h = Some (e', None) ->
  match Controls.start (demo e') with
  | (app1, None) =>
      countType Start (mazeData (store (demo e'))) = 1%nat
      /\ exists appf,
           ticks (h * w + 1) app1 = Ok appf
           /\ solutionType (store appf) = FoundSolution
  | (_, Some ex) =>
      countType Start (mazeData (store (demo e'))) = 0%nat
      /\ ex = Error "没有起点"
  end.
Proof.
  intros Hgen.
  destruct (genDFSMaze_cases random e w h) as [[Hthrow _]|(maze & Hok & _ & Hmaze)];
    [congruence|].
  rewrite Hok in Hgen. injection Hgen as <-. cbn [demo store mazeData].
  destruct Hmaze as (Hrect & Hh & Hw & Hfresh & Hgoal & Hstart & Hway).
  set (app0 := mkApp (mkStore maze 0 Pending) Ready false None).
  unfold Controls.start.
  destruct (decide (countType Start maze = 1%nat)) as [Hone|Hnone].
  - destruct (countType_one_place Start maze Hrect Hone) as [s Hs].
    destruct (countType_one_place Goal maze Hrect Hgoal) as [g Hg].
    destruct (search_completes app0 s g) as (app1 & appf & Hstart1 & Hticks & Hend);
      try assumption.
    { unfold unmarked. cbn [app0 store mazeData].
      eapply Forall_impl; [exact Hfresh|]. intros row Hrow.
      eapply Forall_impl; [exact Hrow|]. intros c ->.
      now destruct (MazeCell.type c). }
    rewrite Hstart1. split; [exact Hone|]. exists appf.
    cbn [app0 store mazeData] in Hticks. rewrite Hh, Hw in Hticks.
    split; [exact Hticks|].
    destruct Hend as [[Hfound _]|[_ Hno]]; [exact Hfound|].
    destruct (Hway s g Hs Hg) as [p Hp]. now destruct (Hno p).
  - assert (Hzero : countType Start maze = 0%nat) by lia.
    assert (Hthrow : constructor (store app0) = Throw (Error "没有起点")).
    { apply constructor_throws; cbn [app0 store mazeData]; [exact Hrect|]. lia. }
    unfold doStart. rewrite Hthrow. cbn [bind]. auto.
Qed.

Lemma generated_maze_is_solved_witness :
  exists (e' : Editor QueueFrontier.t) app1 appf,
    genDFSMaze (fun _ => 0%nat)
      (mkEditor (mkApp (mkStore [] 0 Pending) Ready false None) None false 3 1) 3 1
    = Some (e', None)
    /\ Controls.start (demo e') = (app1, None)
    /\ ticks 4 app1 = Ok appf
    /\ solutionType (store appf) = FoundSolution.
Proof.
  pose proof (generated_maze_is_solved (F := QueueFrontier.t) (fun _ => 0%nat)
                (mkEditor (mkApp (mkStore [] 0 Pending) Ready false None) None false 3 1)
                _ 3 1 eq_refl) as Hsolved.
  destruct (Controls.start _) as [app1 [ex|]] eqn:Hstart in Hsolved.
  - exfalso. destruct Hsolved as [Hzero _]. vm_compute in Hzero. discriminate.
  - destruct Hsolved as (_ & appf & Hticks & Hfound).
    eexists _, app1, appf. split; [reflexivity|]. split; [exact Hstart|].
    split; [exact Hticks|exact Hfound].
Defined.

(** X28.  [genDFSMaze] can build a maze without a start cell.  The cell
    from which the carving starts stays a wall while the carving goes on, so
    that the carving can come back to it, and the cell in between is then
    put into [spaceCells] a second time; when the shuffle puts that cell
    first and second, it is made the start and then the goal.  For a grid of
    three cells in a row there are random numbers with which this happens;
    [start] then reports ["没有起点"]. *)
Theorem genDFSMaze_without_start {F : Type} `{IFrontier F} (e : Editor F) :
  exists (random : Oracle) (e' : Editor F),
    genDFSMaze random e 3 1 = Some (e', None)
    /\ mazeToTemplate (mazeData (store (demo e'))) = " B "%string
    /\ countType Start (mazeData (store (demo e'))) = 0%nat
    /\ countType Goal (mazeData (store (demo e'))) = 1%nat
    /\ (Controls.start (demo e')).2 = Some (Error "没有起点").
Proof.
  exists (fun k => if Nat.eqb k 15 then 2%nat else 0%nat).
  eexists. split; [unfold genDFSMaze; vm_compute RandomMaze.generate; reflexivity|].
  cbn [demo withGrid store mazeData].
  split; [reflexivity|]. split; [reflexivity|]. split; [reflexivity|].
  unfold Controls.start, doStart. cbn [store reset].
  match goal with
  | |- context [constructor ?st] =>
      assert (Hthrow : constructor st = Throw (Error "没有起点"))
  end.
  { apply constructor_throws; cbn [mazeData].
    - split; [discriminate|]. repeat constructor.
    - split; [reflexivity|]. vm_compute. lia. }
  rewrite Hthrow. reflexivity.
Qed.

(** ** The states of the demo *)

(** What each demo state stands for. *)
Definition Settled {F : Type} (e : Editor F) : Prop :=
  let a := demo e in
  let idle :=
    demoRunner a = None /\ pristine (mazeData (store a))
    /\ solutionType (store a) = Pending /\ numExplored (store a) = 0 in
  match demoState a with
  | Ready => interval a = false /\ idle
  | Running =>
      interval a = true /\ is_Some (demoRunner a) /\ solutionType (store a) = Continue
  | Paused =>
      interval a = false
      /\ ((is_Some (demoRunner a) /\ solutionType (store a) = Continue) \/ idle)
  | Done =>
      interval a = false /\ is_Some (demoRunner a)
      /\ (solutionType (store a) = FoundSolution \/ solutionType (store a) = NoSolution)
  end.

(** The outcome after a call of [next] made under [Continue]. *)
Lemma next_outcome {F : Type} `{IFrontier F} (c c' : Closure F) st st' :
  next c st = Ok (c', st') -> solutionType st = Continue ->
  solutionType st' = Continue \/ solutionType st' = FoundSolution
  \/ solutionType st' = NoSolution.
Proof.
  unfold next. intros Hn Hc.
  destruct (empty (frontier c)); [injection Hn as <- <-; cbn; auto|].
  destruct (remove (frontier c)) as [[[node|] fr]|]; cbn [bind] in Hn; try discriminate.
  destruct (State_equals _ _).
  - destruct (markPath _ _); cbn [bind] in Hn; [|discriminate].
    injection Hn as <- <-. cbn. auto.
  - destruct (setCellState _ _ _); cbn [bind] in Hn; [|discriminate].
    destruct (neighbors _ _ _); cbn [bind] in Hn; [|discriminate].
    destruct (foldM _ _ _) as [[fr' maze2]|]; cbn [bind] in Hn; [|discriminate].
    injection Hn as <- <-. cbn. auto.
Qed.

Lemma doStart_fields {F : Type} `{IFrontier F} (a a' : App F) :
  doStart a = Ok a' ->
  demoState a' = Running /\ interval a' = true /\ is_Some (demoRunner a')
  /\ solutionType (store a') = Continue /\ numExplored (store a') = 0.
Proof.
  unfold doStart. destruct (constructor (store a)) as [[m st]|]; [|discriminate].
  cbn [bind]. unfold solve. destruct (setCellState _ _ _); [|discriminate].
  cbn [bind]. intros [= <-]. cbn. eauto 10.
Qed.

Lemma doStart_thrown_fields {F : Type} `{IFrontier F} (a : App F) :
  solutionType (store a) = Pending -> numExplored (store a) = 0 ->
  let a' := Controls.doStart_thrown a in
  mazeData (store a') = mazeData (store a)
  /\ solutionType (store a') = Pending /\ numExplored (store a') = 0
  /\ demoState a' = demoState a /\ interval a' = interval a
  /\ demoRunner a' = demoRunner a.
Proof.
  intros Hs Hn. unfold Controls.doStart_thrown.
  destruct (mazeData (store a)) eqn:Hm; cbn; rewrite ?Hm; auto 10.
Qed.

Lemma updateCell_pristine (f : MazeCell.t -> MazeCell.t) (maze maze' : MazeData) s :
  (forall c, MazeCell.state (f c) = Unexplored \/ MazeCell.state (f c) = Unreachable) ->
  pristine maze -> updateCell f maze s = Ok maze' -> pristine maze'.
Proof.
  unfold updateCell, pristine. intros Hf Hp.
  destruct (cellAt maze s); cbn [bind]; [|discriminate]. intros [= <-].
  apply Forall_alter; [exact Hp|]. intros row _ Hrow.
  apply Forall_alter; [exact Hrow|]. intros c _ _. apply Hf.
Qed.

Lemma paint_pristine (b : MazeCellType) (c : MazeCell.t) :
  MazeCell.state (paint b c) = Unexplored \/ MazeCell.state (paint b c) = Unreachable.
Proof. unfold paint. cbn. destruct (bool_decide _); auto. Qed.

Lemma drawCell_Settled {F : Type} `{IFrontier F} (e : Editor F) s :
  Settled e -> Settled (drawCell e s).
Proof.
  unfold drawCell. intros HS.
  destruct (demoState (demo e)) eqn:Hd; try exact HS.
  destruct (brush e) as [b|]; [|exact HS].
  destruct (updateCell _ _ _) as [maze'|] eqn:Hu; [|exact HS].
  unfold Settled in *. rewrite Hd in HS. cbn. rewrite Hd.
  destruct HS as (Hi & Hr & Hp & Hs & Hn). repeat split; auto.
  eapply updateCell_pristine; eauto. apply paint_pristine.
Qed.

Lemma reset_Settled {F : Type} `{IFrontier F} (e : Editor F) :
  Settled (withApp e (reset (demo e))).
Proof.
  unfold Settled. cbn [demo withApp]. unfold reset at 1. cbn [demoState].
  repeat split. apply (reset_pristine (demo e)).
Qed.

Lemma updateMazeFromTemplate_Settled {F : Type} `{IFrontier F} (e : Editor F) template :
  Settled (updateMazeFromTemplate e template).1.
Proof.
  pose proof (updateMazeFromTemplate_cases e template) as Hspec.
  destruct (updateMazeFromTemplate e template) as [e' [ex|]]; cbn [fst].
  - destruct Hspec as (_ & _ & Happ & _). unfold Settled. rewrite Happ.
    unfold reset at 1. cbn [demoState]. repeat split. apply (reset_pristine (demo e)).
  - destruct Hspec as (_ & _ & Hp & Happ & _). unfold Settled. rewrite Happ.
    cbn. repeat split. rewrite Happ in Hp. exact Hp.
Qed.

(** One call of [demoRunner] on a search under way. *)
Lemma demoRunner_call_Settled {F : Type} `{IFrontier F} (e : Editor F) (a' : App F) :
  is_Some (demoRunner (demo e)) -> solutionType (store (demo e)) = Continue ->
  (demoState (demo e) = Running /\ interval (demo e) = true
   \/ demoState (demo e) = Paused /\ interval (demo e) = false) ->
  demoRunner_call (demo e) = Ok a' -> Settled (withApp e a').
Proof.
  intros [c Hc] Hcont Hstate. unfold demoRunner_call. rewrite Hc.
  rewrite bool_decide_eq_true_2 by assumption.
  destruct (next c (store (demo e))) as [[c' st]|] eqn:Hn; cbn [bind]; [|discriminate].
  pose proof (next_outcome _ _ _ _ Hn Hcont) as Hout.
  destruct (decide (solutionType st = Continue)) as [Hc'|Hc'].
  - rewrite (bool_decide_eq_false_2 (solutionType st <> Continue)) by tauto.
    intros [= <-]. unfold Settled. cbn.
    destruct Hstate as [[-> ->]|[-> ->]]; eauto 10.
  - rewrite (bool_decide_eq_true_2 (solutionType st <> Continue)) by assumption.
    intros [= <-]. unfold Settled. cbn. split; [reflexivity|]. split; [eauto|]. tauto.
Qed.

Lemma start_Settled {F : Type} `{IFrontier F} (e : Editor F) a alerted :
  Settled e -> demoRunner (demo e) = None ->
  Controls.start (demo e) = (a, alerted) ->
  (alerted = None /\ demoState a = Running /\ interval a = true
   /\ is_Some (demoRunner a) /\ solutionType (store a) = Continue)
  \/ (demoState a = demoState (demo e) /\ interval a = interval (demo e)
      /\ demoRunner a = None /\ pristine (mazeData (store a))
      /\ solutionType (store a) = Pending /\ numExplored (store a) = 0).
Proof.
  intros HS Hnone. unfold Controls.start.
  assert (Hidle : pristine (mazeData (store (demo e)))
                  /\ solutionType (store (demo e)) = Pending
                  /\ numExplored (store (demo e)) = 0).
  { unfold Settled in HS. destruct (demoState (demo e)).
    - tauto.
    - destruct HS as (_ & [c Hc] & _). congruence.
    - destruct HS as (_ & [[[c Hc] _]|HS]); [congruence|tauto].
    - destruct HS as (_ & [c Hc] & _). congruence. }
  destruct Hidle as (Hp & Hs & Hn).
  destruct (doStart (demo e)) as [a1|ex] eqn:Hstart; intros [= <- <-].
  - left. apply doStart_fields in Hstart. tauto.
  - right. destruct (doStart_thrown_fields (demo e) Hs Hn) as (Hm & ? & ? & ? & ? & ?).
    rewrite Hm. repeat split; auto. congruence.
Qed.

Lemma genDFSMaze_Settled {F : Type} `{IFrontier F} (random : Oracle) (e : Editor F)
      (w h : nat) :
  Settled e ->
  exists e' alerted, genDFSMaze random e w h = Some (e', alerted) /\ Settled e'.
Proof.
  intros HS.
  destruct (genDFSMaze_cases random e w h) as [[-> _]|(maze & -> & _ & Hmaze)].
  - eauto.
  - eexists _, _. split; [reflexivity|]. unfold Settled. cbn. repeat split.
    destruct Hmaze as (_ & _ & _ & Hfresh & _). unfold pristine.
    eapply Forall_impl; [exact Hfresh|]. intros row Hrow.
    eapply Forall_impl; [exact Hrow|]. intros c ->.
    destruct (MazeCell.type c); cbn; auto.
Qed.

Lemma handle_Settled {F : Type} `{IFrontier F} (ev : Event) (e e' : Editor F) :
  Settled e -> handle ev e = Some (Ok e') -> Settled e'.
Proof.
  intros HS.
  destruct ev as [| | | | | |b| |s|s| |template| |random|w|h]; cbn [handle].
  - (* ClickStart *)
    destruct (demoState (demo e)) eqn:Hd; try (intros [= <-]; exact HS).
    assert (Hnone : demoRunner (demo e) = None).
    { unfold Settled in HS. rewrite Hd in HS. tauto. }
    destruct (Controls.start (demo e)) as [a alerted] eqn:Hstart. intros [= <-].
    destruct (start_Settled e a alerted HS Hnone Hstart)
      as [(_ & Hd' & Hi & Hr & Hc)|(Hd' & Hi & Hr & Hp & Hs & Hn)];
      unfold Settled; cbn [demo withApp withBrush]; rewrite Hd'.
    + auto.
    + rewrite Hd. unfold Settled in HS. rewrite Hd in HS. rewrite Hi. tauto.
  - (* ClickPause *)
    destruct (demoState (demo e)) eqn:Hd; try (intros [= <-]; exact HS).
    intros [= <-]. unfold Settled in *. rewrite Hd in HS. cbn. tauto.
  - (* ClickNext *)
    destruct (demoState (demo e)) eqn:Hd; try (intros [= <-]; exact HS).
    + (* Ready: no search yet *)
      assert (Hnone : demoRunner (demo e) = None).
      { unfold Settled in HS. rewrite Hd in HS. tauto. }
      unfold Controls.next. rewrite Hnone.
      destruct (Controls.start (demo e)) as [a alerted] eqn:Hstart. cbn [bind].
      intros [= <-].
      destruct (start_Settled e a alerted HS Hnone Hstart)
        as [(_ & Hd' & Hi & Hr & Hc)|(Hd' & Hi & Hr & Hp & Hs & Hn)];
        unfold Settled; cbn; tauto.
    + (* Paused *)
      unfold Settled in HS. rewrite Hd in HS. destruct HS as (Hi & [[Hr Hc]|Hidle]).
      * unfold Controls.next. destruct Hr as [c Hr]. rewrite Hr.
        destruct (demoRunner_call (demo e)) as [a|] eqn:Hcall; cbn [bind]; [|discriminate].
        intros [= <-].
        assert (HS' : Settled (withApp e a)).
        { eapply demoRunner_call_Settled; eauto. }
        exact HS'.
      * assert (Hnone : demoRunner (demo e) = None) by tauto.
        assert (HS : Settled e) by (unfold Settled; rewrite Hd; tauto).
        unfold Controls.next. rewrite Hnone.
        destruct (Controls.start (demo e)) as [a alerted] eqn:Hstart. cbn [bind].
        intros [= <-].
        destruct (start_Settled e a alerted HS Hnone Hstart)
          as [(_ & Hd' & Hi' & Hr & Hc)|(Hd' & Hi' & Hr & Hp & Hs & Hn)];
          unfold Settled; cbn; tauto.
  - (* ClickResume *)
    destruct (demoState (demo e)) eqn:Hd; try (intros [= <-]; exact HS).
    intros [= <-]. unfold Settled in *. rewrite Hd in HS.
    unfold Controls.resume. destruct HS as (Hi & [[[c Hr] Hc]|Hidle]).
    + rewrite Hr. cbn. eauto.
    + destruct Hidle as (Hr & ?). rewrite Hr. cbn. rewrite Hd. tauto.
  - (* ClickReset *)
    intros [= <-]. apply reset_Settled.
  - (* TimerFires *)
    destruct (interval (demo e)) eqn:Hi; [|intros [= <-]; exact HS].
    destruct (demoRunner_call (demo e)) as [a|] eqn:Hcall; cbn [bind]; [|discriminate].
    intros [= <-]. unfold Settled in HS.
    destruct (demoState (demo e)) eqn:Hd; try (destruct HS as [HS _]; congruence).
    destruct HS as (_ & Hr & Hc). eapply demoRunner_call_Settled; eauto.
  - (* SelectBrush *)
    destruct (demoState (demo e)) eqn:Hd; intros [= <-]; exact HS.
  - (* CancelDraw *)
    intros [= <-]. exact HS.
  - (* CellMouseDown *)
    intros [= <-]. unfold onCellMouseDown. apply (drawCell_Settled e s HS).
  - (* CellMouseEnter *)
    intros [= <-]. unfold onCellMouseEnter.
    destruct (consecutiveDrawing e); [now apply drawCell_Settled|exact HS].
  - (* MouseUp *)
    intros [= <-]. exact HS.
  - (* TemplateLoaded *)
    intros [= <-]. apply updateMazeFromTemplate_Settled.
  - (* ClickNewEmptyMaze *)
    intros [= <-]. unfold loadEmptyMaze. apply updateMazeFromTemplate_Settled.
  - (* ClickRandomMaze *)
    destruct (genDFSMaze_Settled random e (mazeWidth e) (mazeHeight e) HS)
      as (e1 & alerted & -> & HS1).
    now intros [= <-].
  - intros [= <-]. exact HS.
  - intros [= <-]. exact HS.
Qed.

Lemma handle_returns {F : Type} `{IFrontier F} (ev : Event) (e : Editor F) :
  Settled e -> handle ev e <> None.
Proof.
  intros HS.
  destruct ev as [| | | | | |b| |s|s| |template| |random|w|h]; cbn [handle];
    try discriminate.
  - destruct (demoState (demo e)); try discriminate.
    now destruct (Controls.start (demo e)).
  - destruct (demoState (demo e)); discriminate.
  - destruct (demoState (demo e)); discriminate.
  - destruct (demoState (demo e)); discriminate.
  - now destruct (interval (demo e)).
  - destruct (demoState (demo e)); discriminate.
  - destruct (genDFSMaze_Settled random e (mazeWidth e) (mazeHeight e) HS)
      as (e1 & alerted & -> & _).
    discriminate.
Qed.

(** X29.  The demo states mean what they say.  After any sequence of
    events of the page (buttons, timer, brush and mouse, templates loaded,
    the new-maze form with the empty and the random maze), up to the first
    handler that throws, if any: in state [Ready] no search exists, no
    timer is armed, the counter is zero, the outcome [Pending], and every
    cell of the grid is [Unexplored] or [Unreachable]; in state [Running] a
    search exists, its outcome is [Continue] and the timer is armed; in
    state [Paused] the timer is off and either a search exists with outcome
    [Continue], or none does and the component is as in [Ready] (a step by
    hand on a grid that [start] refuses); in state [Done] the timer is off,
    a search exists and its outcome is [FoundSolution] or [NoSolution].
    No handler runs out of fuel. *)
Theorem demo_states {F : Type} `{IFrontier F} (evs : list Event) :
  match session (F := F) evs with
  | Some (Ok e) => Settled e
  | Some (Throw _) => True
  | None => False
  end.
Proof.
  unfold session, initial. change (buildMaze "AB")
    with (Ok [[MazeCell.mk Start Unexplored None; MazeCell.mk Goal Unexplored None]]).
  cbn [bind]. set (e0 := mkEditor _ _ _ _ _).
  assert (HS0 : Settled e0).
  { unfold Settled. cbn. repeat split. repeat constructor; auto. }
  clearbody e0. revert e0 HS0.
  induction evs as [|ev evs IH]; intros e0 HS0; cbn [run]; [exact HS0|].
  pose proof (handle_returns ev e0 HS0) as Hret.
  pose proof (handle_Settled ev e0) as Hstep.
  destruct (handle ev e0) as [[e1|ex]|]; [|exact I|congruence].
  apply IH. now apply Hstep.
Qed.

(** A session: two steps by hand, the search resumed and ended by the
    timer, a reset, a wall drawn over the goal, and a step by hand that
    [start] refuses. *)
Lemma session_example :
  exists e : Editor QueueFrontier.t,
    session [ClickNext; ClickNext; ClickResume; TimerFires; ClickReset;
             SelectBrush (Some Wall); CellMouseDown (0, 1); ClickNext] = Some (Ok e)
    /\ demoState (demo e) = Paused /\ demoRunner (demo e) = None.
Proof.
  eexists. split; [vm_compute; reflexivity|]. split; reflexivity.
Qed.
